(** * EmulationController: the relay controller, its command queue, its CoAP
      request encoder and the timing statistics, embedded from the C++ sources.

    Source files: [Controller/LinkedBlockingQueue.hpp], [Controller/Debug.hpp],
    [Controller/StreamSocket.hpp], [Controller/Controller.hpp],
    [Controller/Controller.cpp], [Controller/Experiments.hpp],
    [Controller/main.cpp]. *)

From Stdlib Require Import ZArith NArith String Ascii DecimalString Lia.
From stdpp Require Import base option list sorting.

Local Open Scope Z_scope.

(* ===================================================================== *)
(** * LinkedBlockingQueue.hpp *)
(* ===================================================================== *)

Module LinkedBlockingQueue.
Section Queue.
Context {Element : Type}.

(** [std::queue<Element> queue], the member protected by the mutex.
    [push] appends at the back, [front] reads and [pop] removes the first
    element. Every member function below runs with the mutex held, so a
    call is one atomic transformation of this list. *)
Definition t : Type := list Element.

Definition push (element : Element) (q : t) : t := q ++ [element].
Definition front (q : t) : option Element := head q.
Definition pop (q : t) : t := tail q.
Definition empty (q : t) : bool := match q with [] => true | _ :: _ => false end.

Definition isEmpty (q : t) : bool := empty q.
Definition getCount (q : t) : nat := length q.

(** [offer]: lock, [queue.push(std::move(element))], [notify_all]. The
    notification changes nothing in the protected data. *)
Definition offer (element : Element) (q : t) : t := push element q.

(** [emplace]: the same with the element constructed in place. *)
Definition emplace (element : Element) (q : t) : t := push element q.

(** The predicate both waits are given: [!this->queue.empty()]. *)
Definition predicate (q : t) : bool := negb (empty q).

(** [nonempty.wait(lock, predicate)] is [while (!predicate()) wait(lock);].
    While the caller sleeps the mutex is released and producers run; each
    entry of [arrivals] is what they offered before one wake-up of the
    caller. When the list is used up with the predicate still false, the
    caller is asleep for good: [None]. *)
Fixpoint wait (q : t) (arrivals : list (list Element)) : option t :=
  match arrivals with
  | [] => if predicate q then Some q else None
  | arrived :: later =>
      if predicate q then Some q else wait (q ++ arrived) later
  end.

(** [poll]: wait until the queue is non-empty, move the head out, pop. *)
Definition poll (q : t) (arrivals : list (list Element)) : option (Element * t) :=
  match wait q arrivals with
  | None => None
  | Some q' =>
      match front q' with
      | Some element => Some (element, pop q')
      | None => None
      end
  end.

(** [nonempty.wait_for(lock, timeout, predicate)] is
    [while (!predicate()) if (wait_until(lock, deadline) == timeout) return predicate();
     return true;].
    [arrivals] are the wake-ups before the deadline, as for [wait]; [last]
    is what was offered during the sleep that the deadline ended. *)
Fixpoint wait_for (q : t) (arrivals : list (list Element)) (last : list Element)
  : bool * t :=
  match arrivals with
  | [] => if predicate q then (true, q) else (predicate (q ++ last), q ++ last)
  | arrived :: later =>
      if predicate q then (true, q) else wait_for (q ++ arrived) later last
  end.

(** [pollWithTimeout]: the head on success, [std::nullopt] on time-out. *)
Definition pollWithTimeout (q : t) (arrivals : list (list Element)) (last : list Element)
  : option Element * t :=
  match wait_for q arrivals last with
  | (true, q') => (front q', pop q')
  | (false, q') => (None, q')
  end.

(** A history of completed calls, in the order in which the mutex
    serialised them. [Offer] may come from any thread. A [Poll] that
    completes at this point of the order had its predicate true here; if it
    is false the call has not completed and the history is not one. *)
Inductive call : Type :=
| Offer (element : Element)
| Poll.

Fixpoint run (q : t) (calls : list call) : option (list Element * t) :=
  match calls with
  | [] => Some ([], q)
  | Offer element :: rest => run (offer element q) rest
  | Poll :: rest =>
      match poll q [] with
      | None => None
      | Some (element, q') =>
          match run q' rest with
          | None => None
          | Some (polled, final) => Some (element :: polled, final)
          end
      end
  end.

(** The elements handed to [offer] in a history, in call order. *)
Fixpoint offered (calls : list call) : list Element :=
  match calls with
  | [] => []
  | Offer element :: rest => element :: offered rest
  | Poll :: rest => offered rest
  end.

End Queue.
Arguments t : clear implicits.
Arguments call : clear implicits.
End LinkedBlockingQueue.

(* ===================================================================== *)
(** * Experiments.hpp: [ExecutionTimeMeasurer::Result] *)
(* ===================================================================== *)

Module ExecutionTimeMeasurer.

(** Iterators over a vector are positions; [end()] is the length.
    [std::min_element] returns the first smallest element of the range,
    [std::max_element] the first largest one, and both return [last] on an
    empty range. The candidate is replaced only on a strict [<]. *)
Fixpoint min_element_from (smallest : nat) (value : N) (first : nat) (range : list N) : nat :=
  match range with
  | [] => smallest
  | x :: rest =>
      if (x <? value)%N then min_element_from first x (S first) rest
      else min_element_from smallest value (S first) rest
  end.

Definition min_element (range : list N) : nat :=
  match range with
  | [] => 0%nat
  | x :: rest => min_element_from 0 x 1 rest
  end.

Fixpoint max_element_from (largest : nat) (value : N) (first : nat) (range : list N) : nat :=
  match range with
  | [] => largest
  | x :: rest =>
      if (value <? x)%N then max_element_from first x (S first) rest
      else max_element_from largest value (S first) rest
  end.

Definition max_element (range : list N) : nat :=
  match range with
  | [] => 0%nat
  | x :: rest => max_element_from 0 x 1 rest
  end.

(** [std::sort] on [uint64_t] with the default [<]: the ascending
    rearrangement. *)
Definition sort (v : list N) : list N := merge_sort N.le v.

(** [struct Result]: the execution time in nanoseconds of each trial. *)
Record Result : Type := { durations : list N }.

(** The accessors dereference an iterator or index the vector; on an
    empty vector that is a read at [end()], which has no defined value:
    [None]. *)
Definition min (r : Result) : option N :=
  durations r !! min_element (durations r).

Definition max (r : Result) : option N :=
  durations r !! max_element (durations r).

Definition medium (r : Result) : option N :=
  let tmp := sort (durations r) in
  tmp !! (length (durations r) / 2)%nat.

End ExecutionTimeMeasurer.

(* ===================================================================== *)
(** * StreamSocket.hpp *)
(* ===================================================================== *)

(** A connected socket together with what its peer and the kernel will do:
    [arriving] is what the successive [recv] calls find ([Some bytes]: data
    that has arrived; [None]: an error, result [-1]; nothing left: the peer
    has closed, result [0]), [accepting] is what the successive [::send]
    calls return ([-1] once the list is used up), and [sent] records every
    [::send] call: the bytes handed over and the result. *)
Record StreamSocket : Type := {
  descriptor : Z;
  arriving : list (option (list Z));
  accepting : list Z;
  sent : list (list Z * Z);
}.

Module StreamSocket.

(** [recv(descriptor, buffer, length, 0)]: the result and the bytes put in
    the buffer. *)
Definition recv (s : StreamSocket) (length : nat) : Z * list Z * StreamSocket :=
  match arriving s with
  | [] => (0, [], s)
  | None :: later =>
      (-1, [], {| descriptor := descriptor s; arriving := later;
                  accepting := accepting s; sent := sent s |})
  | Some bytes :: later =>
      let got := take length bytes in
      let left := drop length bytes in
      (Z.of_nat (List.length got), got,
       {| descriptor := descriptor s;
          arriving := match left with [] => later | _ :: _ => Some left :: later end;
          accepting := accepting s; sent := sent s |})
  end.

(** [send(const void* data, size_t length)]:
    [result >= 0 && static_cast<size_t>(result) == length]. *)
Definition send (s : StreamSocket) (data : list Z) (length : nat) : bool * StreamSocket :=
  let result := match accepting s with [] => -1 | r :: _ => r end in
  ((0 <=? result) && (result =? Z.of_nat length),
   {| descriptor := descriptor s; arriving := arriving s;
      accepting := tail (accepting s);
      sent := sent s ++ [(take length data, result)] |}).

(** [receiveWithLength]: [while (offset < length)] one [recv] of the
    missing [length - offset] bytes at [data + offset]; [false] as soon as a
    result is [<= 0]. [data] is what has been put in the buffer so far.
    Every round that continues adds at least one byte, so [length] rounds
    are enough and the [0] case of [fuel] is never reached from
    [receiveWithLength]. *)
Fixpoint receiveWithLength_loop (fuel : nat) (s : StreamSocket) (length offset : nat)
    (data : list Z) : bool * list Z * StreamSocket :=
  match fuel with
  | O => ((length <=? offset)%nat, data, s)
  | S fuel' =>
      if (offset <? length)%nat then
        let '(result, bytes, s') := recv s (length - offset) in
        if result <=? 0 then (false, data, s')
        else receiveWithLength_loop fuel' s' length (offset + Z.to_nat result) (data ++ bytes)
      else (true, data, s)
  end.

Definition receiveWithLength (s : StreamSocket) (length : nat) : bool * list Z * StreamSocket :=
  receiveWithLength_loop length s length 0 [].

End StreamSocket.

(* ===================================================================== *)
(** * Message.hpp, Controller.hpp: the data *)
(* ===================================================================== *)

(** Modelled from the spec: [Message.hpp] is not among the sources. A wire
    message is the fixed-size record of a 2-byte [magic], a [type] tag and a
    4-byte [data] payload. The tags named here are the ones the receiver's
    [switch] in [Controller.cpp] has a [case] for; every other value of the
    tag field, the two outbound types included, is [kOther]. *)
Inductive MessageType : Type :=
| kMoistureUserStack
| kActuatorUserStack
| kGateWayUserStack
| kSoilDryAlert
| kSoilWetAlert
| kAckSoilWet
| kRunOutOfWaterAlert
| kOther (tag : Z).

(** Modelled from the spec: the [struct Message] of the absent
    [Message.hpp], with the three fields the controller reads
    ([message->magic], [message->type], [message->data]). *)
Record Message : Type := { magic : Z; type : MessageType; data : Z }.

(** What the absent [Message.hpp] fixes and the controller only uses: the
    size of the record, how the bytes of a buffer read as a [Message]
    ([reinterpret_cast<Message*>(buffer)]), the bytes of a [Message] object
    (what [send(const Object&)] hands to the socket), the name of a tag, and
    the factories called by [Command]. *)
Class MessageHpp : Type := {
  sizeofMessage : nat;
  castMessage : list Z → Message;
  objectBytes : Message → list Z;
  Type2String : MessageType → string;
  changeSoilMoisture : Z → Message;
  changeWaterStatus : bool → Message;
  soilDryAlert : Message;
  soilWetAlert : Message;
}.

(** [enum SocketIndex: size_t] *)
Inductive SocketIndex : Type := kMonitor | kActuator | kGateway.

Definition SocketIndex2String (index : SocketIndex) : string :=
  match index with
  | kMonitor => "Monitor"
  | kActuator => "Actuator"
  | kGateway => "Gateway"
  end.

(** [struct Command] *)
Record Command : Type := { message : Message; index : SocketIndex }.

Module Command.
Section Factories.
Context `{MessageHpp}.

(** [UInt32 level] and [bool hasWater] are the parameter types; the
    callers pass an [int]. *)
Definition changeSoilMoisture (level : Z) : Command :=
  {| message := changeSoilMoisture level; index := kMonitor |}.
Definition changeWaterStatus (hasWater : bool) : Command :=
  {| message := changeWaterStatus hasWater; index := kActuator |}.
Definition relayMessageToSensorDevice (m : Message) : Command :=
  {| message := m; index := kMonitor |}.
Definition relayMessageToActuatorDevice (m : Message) : Command :=
  {| message := m; index := kActuator |}.
Definition sendDrySoilAlertToActuatorDevice : Command :=
  {| message := soilDryAlert; index := kActuator |}.
Definition sendWetSoilAlertToActuatorDevice : Command :=
  {| message := soilWetAlert; index := kActuator |}.
End Factories.
End Command.

(** [std::optional<StreamSocket> sockets[3]], indexed by [SocketIndex]. *)
Record Sockets : Type := {
  monitor : option StreamSocket;
  actuator : option StreamSocket;
  gateway : option StreamSocket;
}.

Definition socketAt (index : SocketIndex) (s : Sockets) : option StreamSocket :=
  match index with
  | kMonitor => monitor s
  | kActuator => actuator s
  | kGateway => gateway s
  end.

Definition withSocket (index : SocketIndex) (v : option StreamSocket) (s : Sockets) : Sockets :=
  match index with
  | kMonitor => {| monitor := v; actuator := actuator s; gateway := gateway s |}
  | kActuator => {| monitor := monitor s; actuator := v; gateway := gateway s |}
  | kGateway => {| monitor := monitor s; actuator := actuator s; gateway := v |}
  end.

(** What is written to standard output. A [Log] is one line of a [Debug.hpp]
    macro, ["<function> <severity>: " fmt "\n"]; [Status] is one call of
    [Controller::status] (a time stamp, then the formatted text); [Printf] is
    a plain [printf]. Floating-point arguments are kept as the samples they
    are computed from. *)
Inductive Arg : Type :=
| Str (s : string)
| Num (n : Z)
| Chars (bytes : list Z)
| Mean (samples : list N)
| Sd (samples : list N).

Inductive Severity : Type := DInfo | Error | Warning | AssertionFailed | FatalError.

Inductive Output : Type :=
| Log (severity : Severity) (format : string) (args : list Arg)
| Status (format : string) (args : list Arg)
| Printf (format : string) (args : list Arg).

(** [class Controller]: the two members, and around them the standard
    output written so far and the readings the clock will give. *)
Record Controller : Type := {
  sockets : Sockets;
  queue : LinkedBlockingQueue.t Command;
  console : list Output;
  clock : list Z;
}.

(** What the language leaves undefined and the code can run into: an empty
    [std::optional] dereferenced, an access outside an array, an [end()]
    iterator dereferenced. *)
Inductive Fault : Type := EmptyOptional | OutOfBounds | EndIterator.

(** How a call ends: it returns; the process is aborted ([abort()], also
    what an exception nobody catches leads to); the behaviour is undefined;
    or the calling thread sleeps for good. *)
Inductive Outcome (A : Type) : Type :=
| Returned (a : A)
| Aborted
| Undefined (what : Fault)
| Blocked.
Arguments Returned {A} a.
Arguments Aborted {A}.
Arguments Undefined {A} what.
Arguments Blocked {A}.

Definition M (A : Type) : Type := Controller → Outcome A * Controller.

Global Instance M_ret : MRet M := λ A a c, (Returned a, c).
Global Instance M_bind : MBind M := λ A B f m c,
  match m c with
  | (Returned a, c') => f a c'
  | (Aborted, c') => (Aborted, c')
  | (Undefined what, c') => (Undefined what, c')
  | (Blocked, c') => (Blocked, c')
  end.

Definition abort {A : Type} : M A := λ c, (Aborted, c).
Definition undefined {A : Type} (what : Fault) : M A := λ c, (Undefined what, c).
Definition blocked {A : Type} : M A := λ c, (Blocked, c).

Definition print (o : Output) : M unit := λ c,
  (Returned (),
   {| sockets := sockets c; queue := queue c; console := console c ++ [o];
      clock := clock c |}).

Definition getSocket (index : SocketIndex) : M (option StreamSocket) := λ c,
  (Returned (socketAt index (sockets c)), c).

Definition setSocket (index : SocketIndex) (s : StreamSocket) : M unit := λ c,
  (Returned (),
   {| sockets := withSocket index (Some s) (sockets c); queue := queue c;
      console := console c; clock := clock c |}).

(** [*this->sockets[index]] through [operator->], which does not check. *)
Definition socket (index : SocketIndex) : M StreamSocket :=
  o ← getSocket index;
  match o with
  | Some s => mret s
  | None => undefined EmptyOptional
  end.

(** [this->queue.offer(command)] *)
Definition offer (command : Command) : M unit := λ c,
  (Returned (),
   {| sockets := sockets c; queue := LinkedBlockingQueue.offer command (queue c);
      console := console c; clock := clock c |}).

(** [this->queue.poll()]; [arrivals] is what the other threads offer while
    the caller waits. *)
Definition poll (arrivals : list (list Command)) : M Command := λ c,
  match LinkedBlockingQueue.poll (queue c) arrivals with
  | Some (command, q') =>
      (Returned command,
       {| sockets := sockets c; queue := q'; console := console c; clock := clock c |})
  | None => (Blocked, c)
  end.

(** [std::chrono::high_resolution_clock::now()], in nanoseconds. *)
Definition now : M Z := λ c,
  (Returned (match clock c with [] => 0 | t :: _ => t end),
   {| sockets := sockets c; queue := queue c; console := console c;
      clock := tail (clock c) |}).

(* ===================================================================== *)
(** * Debug.hpp and the platform *)
(* ===================================================================== *)

(** What the build and the host fix: whether [DEBUG] is defined, the byte
    order of the host, and the library conversions [std::stoi] and
    [std::stoll] ([None]: the conversion throws). *)
Class Platform : Type := {
  DEBUG : bool;
  littleEndian : bool;
  stoi : string → option Z;
  stoll : string → option Z;
}.

Definition uint8 (x : Z) : Z := x mod 2 ^ 8.
Definition uint16 (x : Z) : Z := x mod 2 ^ 16.
Definition uint32 (x : Z) : Z := x mod 2 ^ 32.
Definition uint64 (x : Z) : Z := x mod 2 ^ 64.

Section Debug.
Context `{Platform}.

(** [pinfo] and [perr] expand to [{}] unless [DEBUG] is defined. *)
Definition pinfo (fmt : string) (args : list Arg) : M unit :=
  if DEBUG then print (Log DInfo fmt args) else mret ().

Definition perr (fmt : string) (args : list Arg) : M unit :=
  if DEBUG then print (Log Error fmt args) else mret ().

Definition pwarning (fmt : string) (args : list Arg) : M unit :=
  print (Log Warning fmt args).

(** [panic]: [vprintf], then [abort()]. *)
Definition panic (fmt : string) (args : list Arg) : M unit :=
  print (Printf fmt args);; abort.

Definition passert (cond : bool) (fmt : string) (args : list Arg) : M unit :=
  if negb cond then
    print (Log AssertionFailed fmt args);;
    panic "Assertion triggered in file %s at line %d\n" []
  else mret ().

Definition psoftassert (cond : bool) (fmt : string) (args : list Arg) : M unit :=
  if negb cond then
    print (Log AssertionFailed fmt args);;
    print (Printf "Assertion triggered in file %s at line %d\n" [])
  else mret ().

Definition pfatal (fmt : string) (args : list Arg) : M unit :=
  print (Log FatalError fmt args);; abort.

(** The bytes of an integer object of [n] bytes in the host's order. *)
Definition nativeBytes (n : nat) (v : Z) : list Z :=
  let little := map (λ i, (v / 2 ^ (8 * Z.of_nat i)) mod 256) (seq 0 n) in
  if littleEndian then little else reverse little.

(** The integer that [n] bytes in the host's order hold. *)
Definition nativeValue (bytes : list Z) : Z :=
  foldr (λ b acc, b + 256 * acc) 0 (if littleEndian then bytes else reverse bytes).

Definition htons (x : Z) : Z :=
  if littleEndian then (uint16 x mod 256) * 256 + uint16 x / 256 else uint16 x.

End Debug.

(** The characters of a string literal, and [strlen] of it. *)
Definition chars (s : string) : list Z :=
  map (λ a, Z.of_N (N_of_ascii a)) (list_ascii_of_string s).
Definition strlen (s : string) : nat := String.length s.

(** A write of [bytes] at [buffer + offset]; outside the array the
    behaviour is undefined. *)
Definition store (buffer : list Z) (offset : nat) (bytes : list Z) : M (list Z) :=
  if (offset + length bytes <=? length buffer)%nat
  then mret (take offset buffer ++ bytes ++ drop (offset + length bytes) buffer)
  else undefined OutOfBounds.

(* ===================================================================== *)
(** * CoAP.hpp *)
(* ===================================================================== *)

Module CoAP.
(** Modelled from the spec: [CoAP.hpp] is not among the sources. The
    header is 4 bytes, "fixed version/type/token-length fields, POST code,
    fixed message ID": the three bit-fields share the first byte, then the
    code byte, then the 16-bit message ID. *)
Record Header : Type := {
  version : Z;
  type : Z;
  tokenLength : Z;
  code : Z;
  msgID : Z;
}.
End CoAP.

(** What the absent [CoAP.hpp] fixes: the request code, the option numbers,
    and how the compiler packs the three bit-fields into the first byte. *)
Class CoAPHpp : Type := {
  kPost : Z;
  kURIHost : Z;
  kURIPort : Z;
  kURIPath : Z;
  bitFields : Z → Z → Z → Z;
}.

Section CoAPHeader.
Context `{Platform, CoAPHpp}.

Definition sizeofCoAPHeader : nat := 4.

(** The bytes of a header object whose five fields have been assigned. *)
Definition headerBytes (h : CoAP.Header) : list Z :=
  [uint8 (bitFields (CoAP.version h) (CoAP.type h) (CoAP.tokenLength h));
   uint8 (CoAP.code h)] ++ nativeBytes 2 (CoAP.msgID h).
End CoAPHeader.

(* ===================================================================== *)
(** * Controller.cpp *)
(* ===================================================================== *)

(** How one round of a [while (true)] ends: at its closing brace (also by
    [continue]), or by [break]. *)
Inductive LoopCtl : Type := Continue | Break.

(** Where a thread function is when its loop has been followed for the
    given number of rounds: it has returned, or it is still in the loop. *)
Inductive LoopEnd : Type := Exited | Running.

Section StringHelpers.

Definition isOneOf (c : ascii) (set : string) : bool :=
  existsb (Ascii.eqb c) (list_ascii_of_string set).

(** [find_first_not_of] and [find_last_not_of]; [None] is [npos]. *)
Fixpoint find_first_not_of (s set : string) (pos : nat) : option nat :=
  match s with
  | EmptyString => None
  | String c rest =>
      if isOneOf c set then find_first_not_of rest set (S pos) else Some pos
  end.

Fixpoint find_last_not_of (s set : string) (pos : nat) : option nat :=
  match s with
  | EmptyString => None
  | String c rest =>
      match find_last_not_of rest set (S pos) with
      | Some last => Some last
      | None => if isOneOf c set then None else Some pos
      end
  end.

(** [split]: [string.find(delimiter, start)] is [String.index], and
    [substr] clamps its count like [String.substring] does. The loop moves
    [start] forward by at least the delimiter's length each round, so for a
    non-empty delimiter one round per character and one more are enough. *)
Fixpoint split_loop (fuel : nat) (string delimiter : string) (start : nat)
    (tokens : list String.string) : list String.string :=
  match fuel with
  | O => tokens
  | S fuel' =>
      match String.index start delimiter string with
      | None => tokens ++ [String.substring start (String.length string) string]
      | Some end_ =>
          split_loop fuel' string delimiter (end_ + String.length delimiter)
            (tokens ++ [String.substring start (end_ - start) string])
      end
  end.

Definition split (string delimiter : string) : list String.string :=
  split_loop (S (String.length string)) string delimiter 0 [].

Definition whitespaces : string :=
  String " " (String "009" (String "013" (String "010" EmptyString))).

Definition trim (string whitespaces : string) : String.string :=
  match find_first_not_of string whitespaces 0 with
  | None => ""
  | Some start =>
      match find_last_not_of string whitespaces 0 with
      | None => ""
      | Some end_ => String.substring start (end_ - start + 1) string
      end
  end.

End StringHelpers.

Section Controller.
Context `{Platform, MessageHpp, CoAPHpp}.

(** [Controller::status]: one timestamped block on standard output. *)
Definition status (format : string) (args : list Arg) : M unit :=
  print (Status format args).

(** ** Background threads *)

(** One round of the sender's [while (true)]. *)
Definition sender_iteration (arrivals : list (list Command)) : M unit :=
  command ← poll arrivals;
  o ← getSocket (index command);
  match o with
  | Some s =>
      let '(ok, s') := StreamSocket.send s (objectBytes (message command)) sizeofMessage in
      setSocket (index command) s';;
      psoftassert ok "Failed to send the message to the %s device."
        [Str (SocketIndex2String (index command))]
  | None =>
      pwarning "Ignore messages sent to the %s device that is not connected."
        [Str (SocketIndex2String (index command))]
  end.

(** [Controller::sender], followed for one round per entry of [schedule]
    (what the other threads offer during that round's [poll]). *)
Fixpoint sender (schedule : list (list (list Command))) : M LoopEnd :=
  match schedule with
  | [] => mret Running
  | arrivals :: later => sender_iteration arrivals;; sender later
  end.

(** [Controller::receiveGarbageDataFromFastModels] *)
Definition receiveGarbageDataFromFastModels (index : SocketIndex) : M unit :=
  let name := SocketIndex2String index in
  pinfo "Receiving 15-byte garbage data from the %s device emulated by the ARM FastModels."
    [Str name];;
  o ← getSocket index;
  passert (bool_decide (is_Some o)) "The socket to the %s device does not exist." [Str name];;
  s ← socket index;
  let '(ok, _, s') := StreamSocket.receiveWithLength s 15 in
  setSocket index s';;
  if ok then pinfo "Received 15-byte garbage data from the %s device." [Str name]
  else
    pwarning "Failed to receive the garbage data from the %s device." [Str name];;
    pwarning "The controller may not function properly." [].

(** One round of the receiver's run loop. *)
Definition receiver_iteration (index : SocketIndex) : M LoopCtl :=
  let buffer := replicate 32 0 in
  s ← socket index;
  let '(ok, received, s') := StreamSocket.receiveWithLength s sizeofMessage in
  setSocket index s';;
  buffer ← store buffer 0 received;
  if negb ok then
    perr "Failed to receive the message from the %s device." [Str (SocketIndex2String index)];;
    mret Break
  else
    let message := castMessage buffer in
    if negb (magic message =? 0x4657) then
      perr "Received an invalid message from the %s device: Magic Mismatched."
        [Str (SocketIndex2String index)];;
      mret Continue
    else
      match type message with
      | kMoistureUserStack =>
          status "Moisture device reports that the shared user stack starts at 0x%08x."
            [Num (data message)];;
          mret Continue
      | kActuatorUserStack =>
          status "Actuator device reports that the shared user stack starts at 0x%08x."
            [Num (data message)];;
          mret Continue
      | kGateWayUserStack =>
          status "Gateway device reports that a thread stack starts at 0x%08x."
            [Num (data message)];;
          mret Continue
      | kSoilDryAlert =>
          status "The controller has received a Soil Dry Alert message from the sensor device.\n" [];;
          offer (Command.relayMessageToActuatorDevice message);;
          mret Continue
      | kSoilWetAlert =>
          status "The controller has received a Soil Wet Alert message from the sensor device.\n" [];;
          offer (Command.relayMessageToActuatorDevice message);;
          mret Continue
      | kAckSoilWet =>
          status "The controller has received a Ack Soil Wet message from the actuator device.\n" [];;
          offer (Command.relayMessageToSensorDevice message);;
          mret Continue
      | kRunOutOfWaterAlert =>
          status "The controller has received a Run Out Of Water Alert message from the actuator device.\n" [];;
          mret Continue
      | kOther _ =>
          perr "Message type is [%s]. Should never reach at here."
            [Str (Type2String (type message))];;
          mret Continue
      end.

Fixpoint receiver_loop (rounds : nat) (index : SocketIndex) : M LoopEnd :=
  match rounds with
  | O => mret Running
  | S rounds' =>
      ctl ← receiver_iteration index;
      match ctl with
      | Break => mret Exited
      | Continue => receiver_loop rounds' index
      end
  end.

(** [Controller::receiver], its run loop followed for [rounds] rounds. *)
Definition receiver (rounds : nat) (index : SocketIndex) : M LoopEnd :=
  o ← getSocket index;
  passert (bool_decide (is_Some o)) "The socket should be connected." [];;
  receiveGarbageDataFromFastModels index;;
  receiver_loop rounds index.

(** ** CoAP-HTTP gateway *)

(** [Controller::makeCoAPRequestMessage]; [ptr] is [ptr - buffer]. *)
Definition makeCoAPRequestMessage (buffer : list Z) (moisture : Z) : M (list Z) :=
  let ptr := 0%nat in
  let header :=
    {| CoAP.version := 0x01; CoAP.type := 0x01; CoAP.tokenLength := 0x00;
       CoAP.code := kPost; CoAP.msgID := 0x4657 |} in
  buffer ← store buffer ptr (headerBytes header);
  let ptr := (ptr + sizeofCoAPHeader)%nat in
  let address := "localhost"%string in
  let length := strlen address in
  buffer ← store buffer ptr [uint8 (Z.lor (Z.shiftl kURIHost 4) (Z.of_nat length))];
  buffer ← store buffer (ptr + 1) (take length (chars address));
  let ptr := (ptr + (1 + length))%nat in
  buffer ← store buffer ptr [uint8 (Z.lor (Z.shiftl (kURIPort - kURIHost) 4) 2)];
  buffer ← store buffer (ptr + 1) (nativeBytes 2 (htons 10086));
  let ptr := (ptr + (1 + 2))%nat in
  let path := "/moisture"%string in
  let length := strlen path in
  buffer ← store buffer ptr [uint8 (Z.lor (Z.shiftl (kURIPath - kURIPort) 4) (Z.of_nat length))];
  buffer ← store buffer (ptr + 1) (take length (chars path));
  let ptr := (ptr + (1 + length))%nat in
  buffer ← store buffer ptr [0xFF];
  let ptr := (ptr + 1)%nat in
  buffer ← store buffer ptr (nativeBytes 4 moisture);
  let ptr := (ptr + 4)%nat in
  passert (ptr =? 32)%nat "Check the request size." [];;
  mret buffer.

(** [Controller::sendRecvCoAPMessage]; returns the response buffer. *)
Definition sendRecvCoAPMessage (request response : list Z) (length : nat) : M (list Z) :=
  s ← socket kGateway;
  let '(ok, s') := StreamSocket.send s request 32 in
  setSocket kGateway s';;
  passert ok "Failed to send the CoAP request message." [];;
  s ← socket kGateway;
  let '(ok, received, s') := StreamSocket.receiveWithLength s length in
  setSocket kGateway s';;
  response ← store response 0 received;
  passert ok "Failed to receive the HTTP message." [];;
  mret response.

(** [printf("%s", buffer)]: the characters before the first zero byte;
    none in the array is a read past its end. *)
Fixpoint terminated (buffer : list Z) : option (list Z) :=
  match buffer with
  | [] => None
  | b :: rest => if b =? 0 then Some [] else cons b <$> terminated rest
  end.

Definition cstring (buffer : list Z) : M (list Z) :=
  match terminated buffer with
  | Some text => mret text
  | None => undefined OutOfBounds
  end.

(** [Controller::sendRecvCoAPMessageOnce] *)
Definition sendRecvCoAPMessageOnce : M unit :=
  let request := replicate 32 0 in
  let response := replicate 64 0 in
  request ← makeCoAPRequestMessage request 100;
  response ← sendRecvCoAPMessage request response 54;
  status "Received a HTTP request message:" [];;
  text ← cstring response;
  print (Printf "%s\n" [Chars text]).

(** [ExecutionTimeMeasurer::operator()]: [args] are the arguments the
    callable is invoked with, as it leaves them for the next trial. The
    [sleep_for(delay)] after each trial changes nothing that is modelled. *)
Fixpoint measure {A : Type} (trials : nat) (func : A → M A) (args : A)
    (result : ExecutionTimeMeasurer.Result) : M ExecutionTimeMeasurer.Result :=
  match trials with
  | O => mret result
  | S trials' =>
      start ← now;
      args ← func args;
      end_ ← now;
      let result :=
        {| ExecutionTimeMeasurer.durations :=
             ExecutionTimeMeasurer.durations result ++ [Z.to_N (uint64 (end_ - start))] |} in
      measure trials' func args result
  end.

(** [Controller::sendRecvCoAPMessages]. The two arrays are not
    initialised; nothing reads them before they are written. *)
Definition sendRecvCoAPMessages (trials delayMS : Z) : M ExecutionTimeMeasurer.Result :=
  let request := replicate 32 0 in
  let response := replicate 64 0 in
  request ← makeCoAPRequestMessage request 100;
  measure (Z.to_nat trials) (λ response, sendRecvCoAPMessage request response 54) response
    {| ExecutionTimeMeasurer.durations := [] |}.

Definition deref (what : Fault) (o : option N) : M Z :=
  match o with
  | Some v => mret (Z.of_N v)
  | None => undefined what
  end.

(** [Controller::runGatewayExperiment] *)
Definition runGatewayExperiment (trials delayMS : Z) : M unit :=
  print (Printf "Running the gateway experiment...\n" []);;
  print (Printf "\tTrials = %zu; Delay = %llu milliseconds.\n" [Num trials; Num delayMS]);;
  result ← sendRecvCoAPMessages trials delayMS;
  print (Printf "Execution time:\n" []);;
  v ← deref EndIterator (ExecutionTimeMeasurer.min result);
  print (Printf "- Min = %llu nanoseconds.\n" [Num v]);;
  v ← deref EndIterator (ExecutionTimeMeasurer.max result);
  print (Printf "- Max = %llu nanoseconds.\n" [Num v]);;
  v ← deref OutOfBounds (ExecutionTimeMeasurer.medium result);
  print (Printf "- Med = %llu nanoseconds.\n" [Num v]);;
  print (Printf "- Avg = %.2f nanoseconds.\n" [Mean (ExecutionTimeMeasurer.durations result)]);;
  print (Printf "- Std = %.2f nanoseconds.\n" [Sd (ExecutionTimeMeasurer.durations result)]).

(** ** Main controller *)

(** [args[i]] *)
Definition arg (args : list string) (i : nat) : M string :=
  match args !! i with
  | Some a => mret a
  | None => undefined OutOfBounds
  end.

(** A library conversion; when it throws nobody catches. *)
Definition convert (conversion : string → option Z) (text : string) : M Z :=
  match conversion text with
  | Some v => mret v
  | None => abort
  end.

(** One round of the shell's loop in [Controller::run], on the line that
    [std::getline] has read. *)
Definition run_iteration (input : string) : M LoopCtl :=
  print (Printf "Commander > " []);;
  let args := split (trim input whitespaces) " " in
  command ← arg args 0;
  if (command =? "")%string then mret Continue
  else if (command =? "exit")%string then
    print (Printf "Goodbye.\n" []);;
    mret Break
  else if (command =? "soil")%string then
    (if negb (length args =? 2)%nat then
       print (Printf "Usage: soil level\n" []);;
       print (Printf "e.g. `soil 30` to set the moisture level to 30%%.\n" [])
     else
       a ← arg args 1;
       level ← convert stoi a;
       offer (Command.changeSoilMoisture (uint32 level)));;
    mret Continue
  else if (command =? "water")%string then
    (if negb (length args =? 2)%nat then
       print (Printf "Usage: water status\n" []);;
       print (Printf "e.g. `water 1` to fill the bottle with water.\n" []);;
       print (Printf "     `water 0` to empty the bottle.\n" [])
     else
       a ← arg args 1;
       hasWater ← convert stoi a;
       offer (Command.changeWaterStatus (negb (hasWater =? 0))));;
    mret Continue
  else if (command =? "dry")%string then
    offer Command.sendDrySoilAlertToActuatorDevice;;
    mret Continue
  else if (command =? "wet")%string then
    offer Command.sendWetSoilAlertToActuatorDevice;;
    mret Continue
  else if (command =? "coap")%string then
    sendRecvCoAPMessageOnce;;
    mret Continue
  else if (command =? "gateway")%string then
    (if negb (length args =? 3)%nat then
       print (Printf "Usage: gateway trials delay\n" []);;
       print (Printf "where `trials` specify the number of trials;\n" []);;
       print (Printf "      `delay` specify the amount of time in milliseconds between each trial.\n" [])
     else
       a1 ← arg args 1;
       trials ← convert stoll a1;
       a2 ← arg args 2;
       delay ← convert stoll a2;
       runGatewayExperiment (uint64 trials) (uint64 delay));;
    mret Continue
  else
    print (Printf "Unknown command: [%s].\n" [Str command]);;
    mret Continue.

(** The shell's loop over the lines typed. With no line left the shell
    waits in [std::getline]. *)
Fixpoint run_loop (inputs : list string) : M unit :=
  match inputs with
  | [] => blocked
  | input :: later =>
      ctl ← run_iteration input;
      match ctl with
      | Break => mret ()
      | Continue => run_loop later
      end
  end.

(** [Controller::run], the part that runs on the calling thread. The
    sender and receiver threads it starts are [sender] and [receiver].
    When the loop is left by [exit] the three [std::thread] objects are
    destroyed, the sender's while still joinable: [std::terminate]. *)
Definition run (inputs : list string) : M Z :=
  o ← getSocket kGateway;
  (if bool_decide (is_Some o) then receiveGarbageDataFromFastModels kGateway else mret ());;
  run_loop inputs;;
  abort.

End Controller.

(* ===================================================================== *)
(** * StreamSocket.hpp: construction, move and destruction *)
(* ===================================================================== *)

(** The kernel's table of the process's descriptors: those that [::socket]
    has returned and [::close] has not been given yet, and every argument
    of [::close] so far, in call order. *)
Record Kernel : Type := {
  opened : list Z;
  closed : list Z;
}.

Module Kernel.

(** [::socket]: a result that is not negative is a descriptor, open from
    then on. *)
Definition socket (result : Z) (k : Kernel) : Kernel :=
  if 0 <=? result then {| opened := result :: opened k; closed := closed k |} else k.

Fixpoint release (fd : Z) (table : list Z) : list Z :=
  match table with
  | [] => []
  | d :: rest => if d =? fd then rest else d :: release fd rest
  end.

(** [::close]: the descriptor, if it is open, is open no more. *)
Definition close (fd : Z) (k : Kernel) : Kernel :=
  {| opened := release fd (opened k); closed := closed k ++ [fd] |}.

End Kernel.

(** What the kernel answers to the [::socket], [::bind] and [::connect] of
    one constructor call, the text that [strerror(errno)] gives when one of
    them fails, and what the connection carries once it is made. *)
Record Connection : Type := {
  socketResult : Z;
  bindResult : Z;
  connectResult : Z;
  reason : string;
  arrives : list (option (list Z));
  accepts : list Z;
}.

Module SocketException.
Record t : Type := { message : string }.
Definition what (e : t) : string := message e.
End SocketException.

(** An unsigned number as [fmt] and [inet_ntop] print it. *)
Definition number (n : Z) : string := NilZero.string_of_uint (N.to_uint (Z.to_N n)).

(** [SocketAddressPrinter] for a [SocketAddress4], an address in host byte
    order and a port: [inet_ntop] of the address, a colon, the port. *)
Definition SocketAddressPrinter (address : Z * Z) : string :=
  (number (address.1 / 2 ^ 24 mod 256) ++ "." ++ number (address.1 / 2 ^ 16 mod 256) ++ "."
   ++ number (address.1 / 2 ^ 8 mod 256) ++ "." ++ number (address.1 mod 256)
   ++ ":" ++ number address.2)%string.

Module StreamSocketObject.

(** [StreamSocket(SocketAddress4 local, SocketAddress4 remote)], that is
    the constructor for the domain [PF_INET]. *)
Definition create (local remote : Z * Z) (answer : Connection) (k : Kernel)
    : (SocketException.t + StreamSocket) * Kernel :=
  let descriptor := socketResult answer in
  let k := Kernel.socket descriptor k in
  if descriptor <? 0 then
    (inl {| SocketException.message := "Failed to create a socket descriptor." |}, k)
  else if negb (bindResult answer =? 0) then
    (inl {| SocketException.message :=
              ("Failed to bind the socket to " ++ SocketAddressPrinter local
               ++ ". Reason: " ++ reason answer ++ ".")%string |},
     Kernel.close descriptor k)
  else if negb (connectResult answer =? 0) then
    (inl {| SocketException.message :=
              ("Failed to connect the socket to " ++ SocketAddressPrinter remote
               ++ ". Reason: " ++ reason answer ++ ".")%string |},
     Kernel.close descriptor k)
  else
    (inr {| descriptor := descriptor; arriving := arrives answer;
            accepting := accepts answer; sent := [] |}, k).

(** An object whose descriptor has been set to -1. *)
Definition disowned (s : StreamSocket) : StreamSocket :=
  {| descriptor := -1; arriving := arriving s; accepting := accepting s; sent := sent s |}.

(** The move constructor: the new object, and [other] as it is left. *)
Definition move (other : StreamSocket) : StreamSocket * StreamSocket :=
  (other, disowned other).

(** The destructor. *)
Definition destroy (s : StreamSocket) (k : Kernel) : Kernel :=
  if 0 <=? descriptor s then Kernel.close (descriptor s) k else k.

(** Move assignment, [this = std::move(other)], where [same] is
    [this == &other]: the two objects as they are left. *)
Definition assign (same : bool) (this other : StreamSocket) : StreamSocket * StreamSocket :=
  if same then (this, other) else (other, disowned other).

(** [std::optional<StreamSocket>]: its move constructor, which moves the
    socket out of an engaged [other] and leaves [other] engaged, and its
    destructor. Move assignment to an optional that is empty is the same
    construction. *)
Definition moveOptional (other : option StreamSocket)
    : option StreamSocket * option StreamSocket :=
  match other with
  | Some s => let '(new, old) := move s in (Some new, Some old)
  | None => (None, None)
  end.

Definition destroyOptional (o : option StreamSocket) (k : Kernel) : Kernel :=
  match o with
  | Some s => destroy s k
  | None => k
  end.

End StreamSocketObject.

(* ===================================================================== *)
(** * main.cpp *)
(* ===================================================================== *)

(** The three port numbers, each a [uint16_t]. *)
Record Ports : Type := {
  pMonitor : Z;
  pActuator : Z;
  pGateway : Z;
}.

Definition INADDR_LOOPBACK : Z := 0x7f000001.

(** A character as an [int]. *)
Definition character (a : ascii) : Z := Z.of_N (N_of_ascii a).

Section Main.
Context `{Platform, MessageHpp, CoAPHpp}.

(** One round of the option loop, for what [getopt_long] returned: the
    option character and, in [optarg], the argument that came with it.
    [optarg] is taken to be a string; a long option written without
    [=value], for which it is a null pointer, is outside this model. *)
Definition option_iteration (option : Z) (optarg : string) (p : Ports) : M Ports :=
  if option =? character "m" then
    port ← convert stoi optarg;
    mret {| pMonitor := uint16 port; pActuator := pActuator p; pGateway := pGateway p |}
  else if option =? character "a" then
    port ← convert stoi optarg;
    mret {| pMonitor := pMonitor p; pActuator := uint16 port; pGateway := pGateway p |}
  else if option =? character "g" then
    port ← convert stoi optarg;
    mret {| pMonitor := pMonitor p; pActuator := pActuator p; pGateway := uint16 port |}
  else if option =? character "?" then
    mret p
  else
    perr "Unrecognized option: %c." [Num option];;
    mret p.

(** The option loop; [options] is what the calls of [getopt_long] return
    before the one that returns -1. *)
Fixpoint options_loop (options : list (Z * string)) (p : Ports) : M Ports :=
  match options with
  | [] => mret p
  | (option, optarg) :: later =>
      p ← option_iteration option optarg p;
      options_loop later p
  end.

(** [emplace] under its [if (port != 0)]: a socket from any port of the
    loopback address to the given port of the loopback address. *)
Definition emplace (port : Z) (answer : Connection) (k : Kernel)
    : (SocketException.t + option StreamSocket) * Kernel :=
  if negb (port =? 0) then
    match StreamSocketObject.create (INADDR_LOOPBACK, 0) (INADDR_LOOPBACK, port) answer k with
    | (inl exception, k) => (inl exception, k)
    | (inr s, k) => (inr (Some s), k)
    end
  else (inr None, k).

(** The handler and its [return -1], which destroys [gateway], [actuator]
    and [monitor], in this order. *)
Definition catch (exception : SocketException.t)
    (gateway actuator monitor : option StreamSocket) (k : Kernel) : M (Z * Kernel) :=
  perr "%s" [Str (SocketException.what exception)];;
  mret (-1, StreamSocketObject.destroyOptional monitor
              (StreamSocketObject.destroyOptional actuator
                 (StreamSocketObject.destroyOptional gateway k))).

(** [Controller::Controller]: the queue is empty and each slot, empty at
    first, is move-assigned from its parameter. Returns the parameters as
    they are left. *)
Definition construct (pm pa pg : option StreamSocket)
    : M (option StreamSocket * option StreamSocket * option StreamSocket) := λ c,
  let '(m, pm) := StreamSocketObject.moveOptional pm in
  let '(a, pa) := StreamSocketObject.moveOptional pa in
  let '(g, pg) := StreamSocketObject.moveOptional pg in
  (Returned (pm, pa, pg),
   {| sockets := {| monitor := m; actuator := a; gateway := g |};
      queue := []; console := console c; clock := clock c |}).

(** [main], with the kernel's table as it is when [main] returns. After
    [run] the temporary controller is destroyed, its slots from the last to
    the first, then the constructor's parameters (in an order the language
    leaves open; they hold no descriptor), then [gateway], [actuator] and
    [monitor]. *)
Definition main (options : list (Z * string)) (answers : SocketIndex → Connection)
    (inputs : list string) (k : Kernel) : M (Z * Kernel) :=
  p ← options_loop options {| pMonitor := 0; pActuator := 0; pGateway := 0 |};
  if Z.lor (Z.lor (pMonitor p) (pActuator p)) (pGateway p) =? 0 then
    perr "Must provide at least one port number." [];;
    mret (-1, k)
  else
    match emplace (pMonitor p) (answers kMonitor) k with
    | (inl exception, k) => catch exception None None None k
    | (inr m, k) =>
        match emplace (pActuator p) (answers kActuator) k with
        | (inl exception, k) => catch exception None None m k
        | (inr a, k) =>
            match emplace (pGateway p) (answers kGateway) k with
            | (inl exception, k) => catch exception None a m k
            | (inr g, k) =>
                let '(pm, m) := StreamSocketObject.moveOptional m in
                let '(pa, a) := StreamSocketObject.moveOptional a in
                let '(pg, g) := StreamSocketObject.moveOptional g in
                '(pm, pa, pg) ← construct pm pa pg;
                code ← run inputs;
                sg ← getSocket kGateway;
                sa ← getSocket kActuator;
                sm ← getSocket kMonitor;
                mret (code,
                      foldl (λ k o, StreamSocketObject.destroyOptional o k) k
                        [sg; sa; sm; pm; pa; pg; g; a; m])
            end
        end
    end.

End Main.

(* ===================================================================== *)
(** * Vocabulary of the statements *)
(* ===================================================================== *)

(** The receiver's 32-byte buffer after [bzero] and a read of [received]. *)
Definition inBuffer (received : list Z) : list Z :=
  received ++ replicate (32 - length received) 0.

(** The controller with one socket replaced, with commands appended to the
    queue, with the queue replaced, with more written on standard output. *)
Definition rebound (index : SocketIndex) (s : StreamSocket) (c : Controller) : Controller :=
  {| sockets := withSocket index (Some s) (sockets c); queue := queue c;
     console := console c; clock := clock c |}.

Definition enqueued (commands : list Command) (c : Controller) : Controller :=
  {| sockets := sockets c; queue := queue c ++ commands;
     console := console c; clock := clock c |}.

Definition dequeued (rest : list Command) (c : Controller) : Controller :=
  {| sockets := sockets c; queue := rest;
     console := console c; clock := clock c |}.

Definition printed (outputs : list Output) (c : Controller) : Controller :=
  {| sockets := sockets c; queue := queue c;
     console := console c ++ outputs; clock := clock c |}.

(** What a socket keeps through any number of reads: its descriptor, and
    nothing more handed to [::send]. *)
Definition sameConnection (s s' : StreamSocket) : Prop :=
  descriptor s' = descriptor s ∧ accepting s' = accepting s ∧ sent s' = sent s.

(** The socket has [chunks], none of them empty, waiting to be read, and
    then [later]. *)
Definition pending (s : StreamSocket) (chunks : list (list Z))
    (later : list (option (list Z))) : Prop :=
  arriving s = map Some chunks ++ later ∧ Forall (λ chunk, chunk ≠ []) chunks.

(** The fields of a line: what stands between its spaces. *)
Fixpoint fields (s : string) : list string :=
  match s with
  | EmptyString => [EmptyString]
  | String c rest =>
      if Ascii.eqb c " " then EmptyString :: fields rest
      else match fields rest with
           | f :: fs => String c f :: fs
           | [] => [String c EmptyString]
           end
  end.

(** A list of fields with [p] put in front of the first one. *)
Definition prepend (p : string) (fs : list string) : list string :=
  match fs with
  | f :: rest => (p ++ f)%string :: rest
  | [] => []
  end.

(** Every character of [s] is one of [set]. *)
Fixpoint allOf (set s : string) : bool :=
  match s with
  | EmptyString => true
  | String c rest => isOneOf c set && allOf set rest
  end.

(** [s] without the characters of [set] at its end. *)
Definition trimRight (s set : string) : string :=
  match find_last_not_of s set 0 with
  | Some e => String.substring 0 (S e) s
  | None => EmptyString
  end.

(** How much is still to come on a socket: one for every entry of
    [arriving] and one for every byte in it. *)
Definition backlog (s : StreamSocket) : nat :=
  foldr (λ o total, S (match o with Some bytes => length bytes | None => 0 end + total))
    0%nat (arriving s).

(** All that has been handed to [::send]: the [sent] records of the three
    slots. *)
Definition written (c : Controller) : list (list (list Z * Z)) :=
  map (λ index, match socketAt index (sockets c) with
                | Some s => sent s
                | None => []
                end) [kMonitor; kActuator; kGateway].

(** The line of a [perr], present in a [DEBUG] build only. *)
Definition errorLines `{Platform} (format : string) (args : list Arg) : list Output :=
  if DEBUG then [Log Error format args] else [].

(** The two lines a failed [passert] or [psoftassert] prints. *)
Definition assertionLines (format : string) (args : list Arg) : list Output :=
  [Log AssertionFailed format args;
   Printf "Assertion triggered in file %s at line %d\n" []].

Section Layout.
Context `{Platform, MessageHpp, CoAPHpp}.

(** The request as the specification lays it out: the 4-byte header, the
    URI-Host option carrying "localhost", the URI-Port option carrying 10086
    in network byte order, the URI-Path option carrying "/moisture", the
    end-of-options marker and the 4-byte payload in native byte order. Each
    option starts with its delta/length byte. *)
Definition coapRequest (moisture : Z) : list Z :=
  headerBytes {| CoAP.version := 1; CoAP.type := 1; CoAP.tokenLength := 0;
                 CoAP.code := kPost; CoAP.msgID := 0x4657 |}
  ++ [uint8 (Z.lor (Z.shiftl kURIHost 4) 9)] ++ chars "localhost"
  ++ [uint8 (Z.lor (Z.shiftl (kURIPort - kURIHost) 4) 2)] ++ [0x27; 0x66]
  ++ [uint8 (Z.lor (Z.shiftl (kURIPath - kURIPort) 4) 9)] ++ chars "/moisture"
  ++ [0xFF]
  ++ nativeBytes 4 moisture.

(** The table of message types: what the controller prints and which
    commands it enqueues for a record whose magic is right. *)
Definition switched (m : Message) : list Output * list Command :=
  match type m with
  | kMoistureUserStack =>
      ([Status "Moisture device reports that the shared user stack starts at 0x%08x."
          [Num (data m)]], [])
  | kActuatorUserStack =>
      ([Status "Actuator device reports that the shared user stack starts at 0x%08x."
          [Num (data m)]], [])
  | kGateWayUserStack =>
      ([Status "Gateway device reports that a thread stack starts at 0x%08x."
          [Num (data m)]], [])
  | kSoilDryAlert =>
      ([Status "The controller has received a Soil Dry Alert message from the sensor device.\n" []],
       [{| message := m; index := kActuator |}])
  | kSoilWetAlert =>
      ([Status "The controller has received a Soil Wet Alert message from the sensor device.\n" []],
       [{| message := m; index := kActuator |}])
  | kAckSoilWet =>
      ([Status "The controller has received a Ack Soil Wet message from the actuator device.\n" []],
       [{| message := m; index := kMonitor |}])
  | kRunOutOfWaterAlert =>
      ([Status "The controller has received a Run Out Of Water Alert message from the actuator device.\n" []],
       [])
  | kOther _ =>
      (errorLines "Message type is [%s]. Should never reach at here."
         [Str (Type2String (type m))], [])
  end.

End Layout.

(** The port read for a slot. *)
Definition portOf (index : SocketIndex) (p : Ports) : Z :=
  match index with
  | kMonitor => pMonitor p
  | kActuator => pActuator p
  | kGateway => pGateway p
  end.

(** The ports before the first option is read. *)
Definition noPorts : Ports := {| pMonitor := 0; pActuator := 0; pGateway := 0 |}.

(** One of the three calls of the constructor fails. *)
Definition refused (answer : Connection) : bool :=
  (socketResult answer <? 0) || negb (bindResult answer =? 0)
  || negb (connectResult answer =? 0).

(** The socket object of a connection that has been made, and the slot of
    a port: empty for port 0. *)
Definition established (answer : Connection) : StreamSocket :=
  {| descriptor := socketResult answer; arriving := arrives answer;
     accepting := accepts answer; sent := [] |}.

Definition slotFor (port : Z) (answer : Connection) : option StreamSocket :=
  if port =? 0 then None else Some (established answer).

(** Two calls end the same way, and not by returning. *)
Definition sameEnd {A B : Type} (o : Outcome A) (o' : Outcome B) : Prop :=
  match o, o' with
  | Aborted, Aborted => True
  | Undefined what, Undefined what' => what = what'
  | Blocked, Blocked => True
  | _, _ => False
  end.

(* ===================================================================== *)
(** * Sample values for what the absent headers and the platform fix *)
(* ===================================================================== *)

Module Sample.

(** A [DEBUG] build on a little-endian host; the conversions read an
    optional sign and decimal digits. *)
Definition decimal (text : string) : option Z :=
  Z.of_int <$> DecimalString.NilEmpty.int_of_string text.

Definition platform : Platform :=
  {| DEBUG := true; littleEndian := true; stoi := decimal; stoll := decimal |}.

(** The numbers of RFC 7252 and its layout of the first header byte. *)
Definition coap : CoAPHpp :=
  {| kPost := 2; kURIHost := 3; kURIPort := 7; kURIPath := 11;
     bitFields := λ version type tokenLength, version * 64 + type * 16 + tokenLength |}.

(** One possible [Message]: 8 bytes, little-endian, a 2-byte tag. *)
Definition tagType (tag : Z) : MessageType :=
  if tag =? 0 then kMoistureUserStack
  else if tag =? 1 then kActuatorUserStack
  else if tag =? 2 then kGateWayUserStack
  else if tag =? 3 then kSoilDryAlert
  else if tag =? 4 then kSoilWetAlert
  else if tag =? 5 then kAckSoilWet
  else if tag =? 6 then kRunOutOfWaterAlert
  else kOther tag.

Definition typeTag (t : MessageType) : Z :=
  match t with
  | kMoistureUserStack => 0
  | kActuatorUserStack => 1
  | kGateWayUserStack => 2
  | kSoilDryAlert => 3
  | kSoilWetAlert => 4
  | kAckSoilWet => 5
  | kRunOutOfWaterAlert => 6
  | kOther tag => tag
  end.

Definition little (bytes : list Z) : Z := foldr (λ b acc, b + 256 * acc) 0 bytes.

Definition messages : MessageHpp :=
  {| sizeofMessage := 8;
     castMessage := λ buffer,
       {| magic := little (take 2 buffer);
          type := tagType (little (take 2 (drop 2 buffer)));
          data := little (take 4 (drop 4 buffer)) |};
     objectBytes := λ m,
       [magic m mod 256; magic m / 256 mod 256;
        typeTag (type m) mod 256; typeTag (type m) / 256 mod 256;
        data m mod 256; data m / 256 mod 256; data m / 65536 mod 256;
        data m / 16777216 mod 256];
     Type2String := λ t, match t with kOther _ => "Unknown"%string | _ => "Known"%string end;
     changeSoilMoisture := λ level, {| magic := 0x4657; type := kOther 7; data := level |};
     changeWaterStatus := λ hasWater,
       {| magic := 0x4657; type := kOther 8; data := if hasWater then 1 else 0 |};
     soilDryAlert := {| magic := 0x4657; type := kSoilDryAlert; data := 0 |};
     soilWetAlert := {| magic := 0x4657; type := kSoilWetAlert; data := 0 |} |}.

(** A socket on which the given reads are waiting and whose kernel
    answers the [::send] calls as listed. *)
Definition holding (reads : list (option (list Z))) (results : list Z) : StreamSocket :=
  {| descriptor := 3; arriving := reads; accepting := results; sent := [] |}.

Definition controller (m a g : option StreamSocket) (q : list Command) : Controller :=
  {| sockets := {| monitor := m; actuator := a; gateway := g |};
     queue := q; console := []; clock := [] |}.

(** Records as they arrive on the wire in this layout: a Soil Dry Alert, an
    Ack Soil Wet, a stack report, a record whose magic is wrong, and a
    record whose tag (99) no [case] names. *)
Definition dryRecord : list Z := [0x57; 0x46; 3; 0; 0; 0; 0; 0].
Definition ackRecord : list Z := [0x57; 0x46; 5; 0; 0; 0; 0; 0].
Definition stackRecord : list Z := [0x57; 0x46; 0; 0; 0x00; 0x10; 0x00; 0x20].
Definition strayRecord : list Z := [0x00; 0x00; 3; 0; 0; 0; 0; 0].
Definition unknownRecord : list Z := [0x57; 0x46; 99; 0; 0; 0; 0; 0].

(** A controller whose monitor socket holds one record. *)
Definition monitoring (record : list Z) : Controller :=
  controller (Some (holding [Some record] [])) None None [].

(** A command for the gateway and one for the actuator. *)
Definition toGateway : Command :=
  {| message := {| magic := 0x4657; type := kSoilDryAlert; data := 0 |}; index := kGateway |}.
Definition toActuator : Command :=
  {| message := {| magic := 0x4657; type := kSoilDryAlert; data := 0 |}; index := kActuator |}.

(** Only the actuator is connected, and its kernel refuses the next
    [::send]; two commands are queued. *)
Definition refusing : Controller :=
  controller None (Some (holding [] [-1])) None [toGateway; toActuator].

(** The gateway is connected; its kernel refuses the request, or takes it
    and the read of the reply fails. *)
Definition deafGateway : Controller :=
  controller None None (Some (holding [] [-1])) [].
Definition muteGateway : Controller :=
  controller None None (Some (holding [None] [32])) [].

(** The monitor's read fails. *)
Definition brokenMonitor : Controller :=
  controller (Some (holding [None] [])) None None [].

(** Nothing is connected. *)
Definition alone : Controller := controller None None None [].

End Sample.

(** Situations the examples are run in. *)
Module Scenario.

(** Monitor and actuator are connected, a Soil Dry Alert is on its way from
    the monitor, and the actuator's kernel takes 8 bytes. *)
Definition relaying : Controller :=
  Sample.controller (Some (Sample.holding [Some Sample.dryRecord] []))
    (Some (Sample.holding [] [8])) None [].

(** The monitor's 15-byte preamble, a Soil Dry Alert and one byte more
    arrive cut in three pieces; then the connection is closed. *)
Definition pieces : list (list Z) :=
  [replicate 10 42; replicate 5 42 ++ [0x57; 0x46; 3]; [0; 0; 0; 0; 0; 0x57]].

Definition cut : Controller :=
  Sample.controller (Some (Sample.holding (map Some pieces ++ [None]) [])) None None [].

(** The gateway takes the request and answers with 54 bytes, the fifth of
    them zero. *)
Definition reply : list Z := chars "HTTP" ++ [0] ++ replicate 49 42.

Definition answering : Controller :=
  Sample.controller None None (Some (Sample.holding [Some reply] [32])) [].

(** The kernel makes the connection on the given descriptor, or gives the
    descriptor and then refuses to connect it. *)
Definition made (fd : Z) : Connection :=
  {| socketResult := fd; bindResult := 0; connectResult := 0; reason := "Success";
     arrives := []; accepts := [] |}.

Definition unmade (fd : Z) : Connection :=
  {| socketResult := fd; bindResult := 0; connectResult := -1;
     reason := "Connection refused"; arrives := []; accepts := [] |}.

(** The monitor's connection is made on descriptor 3; the actuator gets
    descriptor 4 and is refused. *)
Definition halfway (index : SocketIndex) : Connection :=
  match index with
  | kMonitor => made 3
  | kActuator => unmade 4
  | kGateway => made 5
  end.

Definition allMade (index : SocketIndex) : Connection :=
  match index with
  | kMonitor => made 3
  | kActuator => made 4
  | kGateway => made 5
  end.

(** The options [-m 5000 -a 5001], and [-m 65536]. *)
Definition twoPorts : list (Z * string) :=
  [(character "m", "5000"%string); (character "a", "5001"%string)].

Definition wrappedPort : list (Z * string) := [(character "m", "65536"%string)].

(** A kernel in which the three standard descriptors are open. *)
Definition fresh : Kernel := {| opened := [0; 1; 2]; closed := [] |}.

End Scenario.

(* ===================================================================== *)
(** * Properties of the queue *)
(* ===================================================================== *)

Module LinkedBlockingQueueFacts.
Import LinkedBlockingQueue.
Section Queue.
Context {Element : Type}.


Lemma predicate_app_cons (q : list Element) (x : Element) (r : list Element) : predicate (q ++ x :: r) = true.
Proof. destruct q; reflexivity. Qed.

Lemma wait_nonempty (x : Element) (q : list Element) (arrivals : list (list Element)) :
  wait (x :: q) arrivals = Some (x :: q).
Proof. destruct arrivals; reflexivity. Qed.

Lemma poll_nonempty (x : Element) (q : list Element) (arrivals : list (list Element)) :
  poll (x :: q) arrivals = Some (x, q).
Proof. unfold poll. rewrite wait_nonempty. reflexivity. Qed.

Lemma poll_empty_alone : poll (@nil Element) [] = None.
Proof. reflexivity. Qed.

(** Whatever [wait] returns is non-empty and is the old content followed
    by the arrivals of the wake-ups it went through. *)
Lemma wait_returns (q q' : list Element) (arrivals : list (list Element)) :
  wait q arrivals = Some q' →
  predicate q' = true ∧ ∃ k, q' = q ++ concat (take k arrivals).
Proof.
  revert q. induction arrivals as [|a later IH]; intros q; simpl.
  - destruct (predicate q) eqn:E; [|discriminate].
    intros [= <-]. split; [exact E|]. exists 0%nat. simpl. by rewrite app_nil_r.
  - destruct (predicate q) eqn:E.
    + intros [= <-]. split; [exact E|]. exists 0%nat. simpl. by rewrite app_nil_r.
    + intros H. destruct (IH _ H) as [Hp [k ->]]. split; [exact Hp|].
      exists (S k). simpl. by rewrite app_assoc.
Qed.

Lemma poll_head (q q' : list Element) (x : Element) (arrivals : list (list Element)) :
  poll q arrivals = Some (x, q') →
  ∃ k, x :: q' = q ++ concat (take k arrivals).
Proof.
  unfold poll. destruct (wait q arrivals) as [w|] eqn:W; [|discriminate].
  destruct (wait_returns _ _ _ W) as [_ [k Hk]].
  destruct w as [|y r]; simpl; [discriminate|].
  intros [= <- <-]. exists k. exact Hk.
Qed.

Lemma run_offers (xs : list Element) (q : list Element) (rest : list (call Element)) :
  run q (map Offer xs ++ rest) = run (q ++ xs) rest.
Proof.
  revert q. induction xs as [|x xs IH]; intros q; simpl.
  - by rewrite app_nil_r.
  - rewrite IH. unfold offer, push. by rewrite <- app_assoc.
Qed.

Lemma run_polls (xs q : list Element) :
  run (xs ++ q) (replicate (length xs) Poll) = Some (xs, q).
Proof.
  induction xs as [|x xs IH]; [reflexivity|].
  cbn [app length replicate run]. rewrite poll_nonempty, IH. reflexivity.
Qed.

Lemma run_conserves (calls : list (call Element)) :
  ∀ q polled final,
    run q calls = Some (polled, final) → q ++ offered calls = polled ++ final.
Proof.
  induction calls as [|c rest IH]; intros q polled final; cbn [run offered].
  - intros [= <- <-]. by rewrite app_nil_r.
  - destruct c as [x|].
    + intros H. apply IH in H. unfold offer, push in H.
      by rewrite <- app_assoc in H.
    + destruct q as [|y q]; [discriminate|].
      rewrite poll_nonempty.
      destruct (run q rest) as [[p f]|] eqn:R; [|discriminate].
      intros [= <- <-]. apply IH in R. simpl. by rewrite R.
Qed.

Lemma wait_for_stays_empty (arrivals : list (list Element)) :
  Forall (λ arrived, arrived = []) arrivals →
  wait_for (@nil Element) arrivals [] = (false, []).
Proof.
  induction 1 as [|a later -> _ IH]; simpl; [reflexivity|exact IH].
Qed.

End Queue.
End LinkedBlockingQueueFacts.

(* ===================================================================== *)
(** * Properties of the statistics *)
(* ===================================================================== *)

Module ExecutionTimeMeasurerFacts.
Import ExecutionTimeMeasurer.


Lemma min_element_from_spec (range before : list N) (smallest : nat) (value : N) :
  (before !! smallest = Some value) →
  Forall (λ x, (value <= x)%N) before →
  ∃ v, (before ++ range) !! min_element_from smallest value (length before) range = Some v
       ∧ Forall (λ x, (v <= x)%N) (before ++ range).
Proof.
  revert before smallest value.
  induction range as [|x rest IH]; intros before smallest value Hs Hall; simpl.
  - exists value. rewrite app_nil_r. auto.
  - destruct (N.ltb_spec x value) as [Hlt|Hge].
    + destruct (IH (before ++ [x]) (length before) x) as [v [Hv Hf]].
      * rewrite lookup_app_r by lia. by rewrite Nat.sub_diag.
      * apply Forall_app. split.
        -- eapply Forall_impl; [exact Hall|]. simpl. intros. lia.
        -- constructor; [lia|constructor].
      * exists v. rewrite length_app, Nat.add_1_r in Hv.
        rewrite <- app_assoc in Hv, Hf. simpl in Hv, Hf. auto.
    + destruct (IH (before ++ [x]) smallest value) as [v [Hv Hf]].
      * rewrite lookup_app_l; [exact Hs|]. by eapply lookup_lt_Some.
      * apply Forall_app. split; [exact Hall|]. constructor; [lia|constructor].
      * exists v. rewrite length_app, Nat.add_1_r in Hv.
        rewrite <- app_assoc in Hv, Hf. simpl in Hv, Hf. auto.
Qed.

Lemma max_element_from_spec (range before : list N) (largest : nat) (value : N) :
  (before !! largest = Some value) →
  Forall (λ x, (x <= value)%N) before →
  ∃ v, (before ++ range) !! max_element_from largest value (length before) range = Some v
       ∧ Forall (λ x, (x <= v)%N) (before ++ range).
Proof.
  revert before largest value.
  induction range as [|x rest IH]; intros before largest value Hs Hall; simpl.
  - exists value. rewrite app_nil_r. auto.
  - destruct (N.ltb_spec value x) as [Hlt|Hge].
    + destruct (IH (before ++ [x]) (length before) x) as [v [Hv Hf]].
      * rewrite lookup_app_r by lia. by rewrite Nat.sub_diag.
      * apply Forall_app. split.
        -- eapply Forall_impl; [exact Hall|]. simpl. intros. lia.
        -- constructor; [lia|constructor].
      * exists v. rewrite length_app, Nat.add_1_r in Hv.
        rewrite <- app_assoc in Hv, Hf. simpl in Hv, Hf. auto.
    + destruct (IH (before ++ [x]) largest value) as [v [Hv Hf]].
      * rewrite lookup_app_l; [exact Hs|]. by eapply lookup_lt_Some.
      * apply Forall_app. split; [exact Hall|]. constructor; [lia|constructor].
      * exists v. rewrite length_app, Nat.add_1_r in Hv.
        rewrite <- app_assoc in Hv, Hf. simpl in Hv, Hf. auto.
Qed.

Lemma min_spec (x : N) (rest : list N) :
  ∃ v, min {| durations := x :: rest |} = Some v
       ∧ Forall (λ y, (v <= y)%N) (x :: rest).
Proof.
  unfold min. cbn [durations min_element].
  apply (min_element_from_spec rest [x] 0%nat x); [reflexivity|].
  constructor; [lia|constructor].
Qed.

Lemma max_spec (x : N) (rest : list N) :
  ∃ v, max {| durations := x :: rest |} = Some v
       ∧ Forall (λ y, (y <= v)%N) (x :: rest).
Proof.
  unfold max. cbn [durations max_element].
  apply (max_element_from_spec rest [x] 0%nat x); [reflexivity|].
  constructor; [lia|constructor].
Qed.

Lemma medium_spec (x : N) (rest : list N) :
  ∃ v, medium {| durations := x :: rest |} = Some v ∧ v ∈ x :: rest.
Proof.
  unfold medium, sort. cbn [durations].
  set (l := x :: rest).
  assert (Hperm : merge_sort N.le l ≡ₚ l) by apply merge_sort_Permutation.
  assert (Hlt : (length l / 2 < length (merge_sort N.le l))%nat).
  { rewrite (Permutation_length Hperm). subst l. cbn [length].
    apply Nat.div_lt; lia. }
  destruct (lookup_lt_is_Some_2 _ _ Hlt) as [v Hv].
  exists v. split; [exact Hv|].
  rewrite <- Hperm. eapply list_elem_of_lookup_2. exact Hv.
Qed.

End ExecutionTimeMeasurerFacts.

(* ===================================================================== *)
(** * Properties of the transport *)
(* ===================================================================== *)

Module StreamSocketFacts.
Import StreamSocket.

Lemma recv_spec (s s' : StreamSocket) (n : nat) (result : Z) (bytes : list Z) :
  recv s n = (result, bytes, s') →
  sameConnection s s' ∧ (length bytes ≤ n)%nat ∧
  (0 < result → result = Z.of_nat (length bytes)).
Proof.
  unfold recv, sameConnection. destruct (arriving s) as [|[b|] later].
  - intros [= <- <- <-]. repeat split; simpl; lia.
  - intros [= <- <- <-]. repeat split; simpl; try lia.
    rewrite length_take. lia.
  - intros [= <- <- <-]. repeat split; simpl; lia.
Qed.

Lemma receiveWithLength_loop_spec (fuel : nat) :
  ∀ (s s' : StreamSocket) (n offset : nat) (data data' : list Z) (ok : bool),
    receiveWithLength_loop fuel s n offset data = (ok, data', s') →
    length data = offset → (offset ≤ n)%nat → (n ≤ offset + fuel)%nat →
    sameConnection s s' ∧ (length data' ≤ n)%nat ∧ (ok = true → length data' = n).
Proof.
  induction fuel as [|fuel IH]; intros s s' n offset data data' ok; simpl.
  - intros [= <- <- <-] Hd Hle Hfuel.
    repeat split; lia.
  - destruct (Nat.ltb_spec offset n) as [Hlt|Hge].
    + destruct (recv s (n - offset)) as [[result bytes] s1] eqn:R.
      destruct (recv_spec _ _ _ _ _ R) as [[Hd1 [Ha1 Hs1]] [Hb Hr]].
      destruct (Z.leb_spec result 0) as [Hneg|Hpos].
      * intros [= <- <- <-] Hd Hle Hfuel.
        repeat split; try assumption; try lia; try discriminate.
      * intros Hloop Hd Hle Hfuel.
        specialize (Hr Hpos).
        apply IH in Hloop; [| rewrite length_app; lia | lia | lia].
        destruct Hloop as [[Hd2 [Ha2 Hs2]] Hrest].
        split; [|exact Hrest]. repeat split; congruence.
    + intros [= <- <- <-] Hd Hle Hfuel.
      repeat split; lia.
Qed.

(** [receiveWithLength] reads on one and the same connection, never puts
    more than [length] bytes in the buffer, and exactly [length] when it
    returns [true]. *)
Lemma receiveWithLength_spec (s s' : StreamSocket) (n : nat) (data : list Z) (ok : bool) :
  receiveWithLength s n = (ok, data, s') →
  sameConnection s s' ∧ (length data ≤ n)%nat ∧ (ok = true → length data = n).
Proof.
  unfold receiveWithLength. intros Hloop.
  apply receiveWithLength_loop_spec in Hloop; [exact Hloop|reflexivity|lia|lia].
Qed.

(** More rounds than [length - offset] change nothing. *)
Lemma receiveWithLength_loop_fuel (fuel : nat) :
  ∀ (extra : nat) (s : StreamSocket) (n offset : nat) (data : list Z),
    (n ≤ offset + fuel)%nat →
    receiveWithLength_loop (fuel + extra) s n offset data
    = receiveWithLength_loop fuel s n offset data.
Proof.
  induction fuel as [|fuel IH]; intros extra s n offset data Hfuel.
  - simpl. destruct extra as [|extra]; simpl; [reflexivity|].
    destruct (Nat.ltb_spec offset n); [lia|].
    destruct (Nat.leb_spec n offset); [reflexivity|lia].
  - simpl. destruct (offset <? n)%nat; [|reflexivity].
    destruct (recv s (n - offset)) as [[result bytes] s1] eqn:R.
    destruct (Z.leb_spec result 0) as [Hneg|Hpos]; [reflexivity|].
    apply IH. lia.
Qed.

Lemma send_spec (s : StreamSocket) (bytes : list Z) (n : nat) :
  descriptor (send s bytes n).2 = descriptor s ∧
  arriving (send s bytes n).2 = arriving s ∧
  ∃ result, sent (send s bytes n).2 = sent s ++ [(take n bytes, result)].
Proof. unfold send. simpl. eauto. Qed.

End StreamSocketFacts.

(* ===================================================================== *)
(** * Properties of the controller *)
(* ===================================================================== *)

Section ControllerFacts.
Context `{Platform, MessageHpp, CoAPHpp}.

Lemma bind_run {A B : Type} (m : M A) (f : A → M B) (c : Controller) :
  (m ≫= f) c =
  match m c with
  | (Returned a, c') => f a c'
  | (Aborted, c') => (Aborted, c')
  | (Undefined what, c') => (Undefined what, c')
  | (Blocked, c') => (Blocked, c')
  end.
Proof. reflexivity. Qed.

Lemma socket_bound (index : SocketIndex) (s : StreamSocket) (c : Controller) :
  socketAt index (sockets c) = Some s → socket index c = (Returned s, c).
Proof.
  intros Hs. unfold socket. rewrite bind_run. unfold getSocket. rewrite Hs. reflexivity.
Qed.

Lemma socket_unbound (index : SocketIndex) (c : Controller) :
  socketAt index (sockets c) = None → socket index c = (Undefined EmptyOptional, c).
Proof.
  intros Hs. unfold socket. rewrite bind_run. unfold getSocket. rewrite Hs. reflexivity.
Qed.

Lemma socketAt_withSocket (index : SocketIndex) (v : option StreamSocket) (s : Sockets) :
  socketAt index (withSocket index v s) = v.
Proof. destruct index; reflexivity. Qed.

Lemma store_zeroed (received : list Z) (c : Controller) :
  (length received ≤ 32)%nat →
  store (replicate 32 0) 0 received c = (Returned (inBuffer received), c).
Proof.
  intros Hlen. unfold store, inBuffer. rewrite length_replicate.
  destruct (Nat.leb_spec (0 + length received) 32) as [_|Hgt]; [|simpl in Hgt; lia].
  rewrite take_0, drop_replicate. reflexivity.
Qed.

Lemma store_fits (buffer bytes : list Z) (c : Controller) :
  (length bytes ≤ length buffer)%nat →
  store buffer 0 bytes c = (Returned (bytes ++ drop (length bytes) buffer), c).
Proof.
  intros Hlen. unfold store.
  destruct (Nat.leb_spec (0 + length bytes) (length buffer)) as [_|Hgt]; [|simpl in Hgt; lia].
  reflexivity.
Qed.

Lemma printed_nil (c : Controller) : printed [] c = c.
Proof. unfold printed. rewrite app_nil_r. by destruct c. Qed.

Lemma perr_run (fmt : string) (args : list Arg) (c : Controller) :
  perr fmt args c = (Returned (), printed (errorLines fmt args) c).
Proof.
  unfold perr, errorLines. destruct DEBUG; [reflexivity|].
  rewrite printed_nil. reflexivity.
Qed.

Lemma passert_holds (fmt : string) (args : list Arg) (c : Controller) :
  passert true fmt args c = (Returned (), c).
Proof. reflexivity. Qed.

Lemma passert_fails (fmt : string) (args : list Arg) (c : Controller) :
  passert false fmt args c = (Aborted, printed (assertionLines fmt args) c).
Proof.
  unfold passert, panic, printed, assertionLines, mbind, M_bind, print, abort. cbn.
  by rewrite <- app_assoc.
Qed.

Lemma psoftassert_holds (fmt : string) (args : list Arg) (c : Controller) :
  psoftassert true fmt args c = (Returned (), c).
Proof. reflexivity. Qed.

Lemma psoftassert_fails (fmt : string) (args : list Arg) (c : Controller) :
  psoftassert false fmt args c = (Returned (), printed (assertionLines fmt args) c).
Proof.
  unfold psoftassert, printed, assertionLines, mbind, M_bind, print. cbn.
  by rewrite <- app_assoc.
Qed.

(** ** The loops *)

Lemma receiver_loop_continue (rounds : nat) (index : SocketIndex) (c c' : Controller) :
  receiver_iteration index c = (Returned Continue, c') →
  receiver_loop (S rounds) index c = receiver_loop rounds index c'.
Proof. intros Hround. cbn [receiver_loop]. rewrite bind_run, Hround. reflexivity. Qed.

Lemma receiver_loop_break (rounds : nat) (index : SocketIndex) (c c' : Controller) :
  receiver_iteration index c = (Returned Break, c') →
  receiver_loop (S rounds) index c = (Returned Exited, c').
Proof. intros Hround. cbn [receiver_loop]. rewrite bind_run, Hround. reflexivity. Qed.

Lemma sender_continue (arrivals : list (list Command)) (later : list (list (list Command)))
    (c c' : Controller) :
  sender_iteration arrivals c = (Returned (), c') →
  sender (arrivals :: later) c = sender later c'.
Proof. intros Hround. cbn [sender]. rewrite bind_run, Hround. reflexivity. Qed.

(** ** The sender's round *)

Lemma sender_iteration_unbound (arrivals : list (list Command)) (c : Controller)
    (command : Command) (rest : list Command) :
  LinkedBlockingQueue.poll (queue c) arrivals = Some (command, rest) →
  socketAt (index command) (sockets c) = None →
  sender_iteration arrivals c =
  (Returned (),
   printed [Log Warning "Ignore messages sent to the %s device that is not connected."
              [Str (SocketIndex2String (index command))]] (dequeued rest c)).
Proof.
  intros Hpoll Hs. unfold sender_iteration.
  rewrite bind_run. unfold poll at 1. rewrite Hpoll.
  rewrite bind_run. unfold getSocket at 1. cbn [sockets]. rewrite Hs. reflexivity.
Qed.

Lemma sender_iteration_bound (arrivals : list (list Command)) (c : Controller)
    (command : Command) (rest : list Command) (s : StreamSocket) :
  LinkedBlockingQueue.poll (queue c) arrivals = Some (command, rest) →
  socketAt (index command) (sockets c) = Some s →
  let attempt := StreamSocket.send s (objectBytes (message command)) sizeofMessage in
  sender_iteration arrivals c =
  psoftassert attempt.1 "Failed to send the message to the %s device."
    [Str (SocketIndex2String (index command))]
    (rebound (index command) attempt.2 (dequeued rest c)).
Proof.
  intros Hpoll Hs attempt. unfold sender_iteration.
  rewrite bind_run. unfold poll at 1. rewrite Hpoll.
  rewrite bind_run. unfold getSocket at 1. cbn [sockets]. rewrite Hs.
  subst attempt.
  destruct (StreamSocket.send s (objectBytes (message command)) sizeofMessage) as [ok s1].
  reflexivity.
Qed.

(** ** The receiver's round *)

Lemma receiver_iteration_failed (index : SocketIndex) (c : Controller)
    (s s' : StreamSocket) (received : list Z) :
  socketAt index (sockets c) = Some s →
  StreamSocket.receiveWithLength s sizeofMessage = (false, received, s') →
  (sizeofMessage ≤ 32)%nat →
  receiver_iteration index c =
  (Returned Break,
   printed (errorLines "Failed to receive the message from the %s device."
              [Str (SocketIndex2String index)]) (rebound index s' c)).
Proof.
  intros Hs Hr Hsz. unfold receiver_iteration.
  rewrite bind_run, (socket_bound _ _ _ Hs), Hr.
  rewrite bind_run. unfold setSocket at 1.
  rewrite bind_run, store_zeroed
    by (apply StreamSocketFacts.receiveWithLength_spec in Hr; lia).
  cbn [negb]. rewrite bind_run, perr_run. reflexivity.
Qed.

(** After a complete read the round is decided by the record in the
    buffer; [k] is the rest of the round. *)
Lemma receiver_iteration_read (index : SocketIndex) (c : Controller)
    (s s' : StreamSocket) (received : list Z) :
  socketAt index (sockets c) = Some s →
  StreamSocket.receiveWithLength s sizeofMessage = (true, received, s') →
  (sizeofMessage ≤ 32)%nat →
  ∀ k : list Z → M LoopCtl,
    (s0 ← socket index;
     let '(ok, received, s1) := StreamSocket.receiveWithLength s0 sizeofMessage in
     setSocket index s1;;
     buffer ← store (replicate 32 0) 0 received;
     if negb ok then
       perr "Failed to receive the message from the %s device."
         [Str (SocketIndex2String index)];;
       mret Break
     else k buffer) c
    = k (inBuffer received) (rebound index s' c).
Proof.
  intros Hs Hr Hsz k.
  rewrite bind_run, (socket_bound _ _ _ Hs), Hr.
  rewrite bind_run. unfold setSocket at 1.
  rewrite bind_run, store_zeroed
    by (apply StreamSocketFacts.receiveWithLength_spec in Hr; lia).
  reflexivity.
Qed.

Lemma receiver_iteration_mismatch (index : SocketIndex) (c : Controller)
    (s s' : StreamSocket) (received : list Z) :
  socketAt index (sockets c) = Some s →
  StreamSocket.receiveWithLength s sizeofMessage = (true, received, s') →
  (sizeofMessage ≤ 32)%nat →
  magic (castMessage (inBuffer received)) ≠ 0x4657 →
  receiver_iteration index c =
  (Returned Continue,
   printed (errorLines "Received an invalid message from the %s device: Magic Mismatched."
              [Str (SocketIndex2String index)]) (rebound index s' c)).
Proof.
  intros Hs Hr Hsz Hm. unfold receiver_iteration.
  rewrite (receiver_iteration_read _ _ _ _ _ Hs Hr Hsz).
  destruct (Z.eqb_spec (magic (castMessage (inBuffer received))) 0x4657) as [E|_];
    [contradiction|].
  cbn [negb]. rewrite bind_run, perr_run. reflexivity.
Qed.

Lemma receiver_iteration_switch (index : SocketIndex) (c : Controller)
    (s s' : StreamSocket) (received : list Z) :
  socketAt index (sockets c) = Some s →
  StreamSocket.receiveWithLength s sizeofMessage = (true, received, s') →
  (sizeofMessage ≤ 32)%nat →
  magic (castMessage (inBuffer received)) = 0x4657 →
  let m := castMessage (inBuffer received) in
  receiver_iteration index c =
  (Returned Continue,
   enqueued (switched m).2 (printed (switched m).1 (rebound index s' c))).
Proof.
  intros Hs Hr Hsz Hm m. unfold receiver_iteration.
  rewrite (receiver_iteration_read _ _ _ _ _ Hs Hr Hsz).
  fold m. fold m in Hm. rewrite Hm. cbn [Z.eqb Pos.eqb negb].
  unfold switched. destruct (type m) eqn:Ht;
    try (unfold enqueued; cbn; rewrite app_nil_r; reflexivity);
    try reflexivity.
  rewrite bind_run, perr_run. unfold enqueued. cbn. rewrite app_nil_r. reflexivity.
Qed.

(** ** The gateway round trip *)

Lemma makeCoAPRequestMessage_run (buffer : list Z) (moisture : Z) (c : Controller) :
  length buffer = 32%nat →
  makeCoAPRequestMessage buffer moisture c = (Returned (coapRequest moisture), c).
Proof.
  intros Hlen.
  do 32 (destruct buffer as [|? buffer]; [simpl in Hlen; lia|]).
  destruct buffer; [|simpl in Hlen; lia]. clear Hlen.
  unfold makeCoAPRequestMessage, coapRequest, headerBytes, nativeBytes, htons.
  destruct littleEndian; reflexivity.
Qed.

Lemma coapRequest_length (moisture : Z) : length (coapRequest moisture) = 32%nat.
Proof. unfold coapRequest, headerBytes, nativeBytes. destruct littleEndian; reflexivity. Qed.

Lemma nativeValue_nativeBytes (v : Z) :
  0 <= v < 2 ^ 32 → nativeValue (nativeBytes 4 v) = v.
Proof.
  intros Hv. unfold nativeValue, nativeBytes.
  destruct littleEndian; [|rewrite reverse_involutive]; cbn [seq map foldr Z.of_nat];
    change (8 * Z.of_nat 0) with 0; change (8 * Z.of_nat 1) with 8;
    change (8 * Z.of_nat 2) with 16; change (8 * Z.of_nat 3) with 24;
    change (2 ^ 0) with 1; change (2 ^ 8) with 256; change (2 ^ 16) with 65536;
    change (2 ^ 24) with 16777216; change (2 ^ 32) with 4294967296 in Hv;
    Z.div_mod_to_equations; lia.
Qed.

Lemma sendRecvCoAPMessage_unbound (request response : list Z) (n : nat) (c : Controller) :
  gateway (sockets c) = None →
  sendRecvCoAPMessage request response n c = (Undefined EmptyOptional, c).
Proof.
  intros Hs. unfold sendRecvCoAPMessage.
  rewrite bind_run, (socket_unbound kGateway c Hs). reflexivity.
Qed.

Lemma sendRecvCoAPMessage_send_failed (request response : list Z) (n : nat)
    (c : Controller) (s : StreamSocket) :
  gateway (sockets c) = Some s →
  (StreamSocket.send s request 32).1 = false →
  sendRecvCoAPMessage request response n c =
  (Aborted,
   printed (assertionLines "Failed to send the CoAP request message." [])
     (rebound kGateway (StreamSocket.send s request 32).2 c)).
Proof.
  intros Hs Hsend. unfold sendRecvCoAPMessage.
  rewrite bind_run, (socket_bound kGateway s c Hs).
  destruct (StreamSocket.send s request 32) as [ok s1]. simpl in Hsend. subst ok.
  rewrite bind_run. unfold setSocket at 1.
  rewrite bind_run, passert_fails. reflexivity.
Qed.

Lemma sendRecvCoAPMessage_receive_failed (request response : list Z) (n : nat)
    (c : Controller) (s s2 : StreamSocket) (received : list Z) :
  gateway (sockets c) = Some s →
  (StreamSocket.send s request 32).1 = true →
  StreamSocket.receiveWithLength (StreamSocket.send s request 32).2 n = (false, received, s2) →
  (n ≤ length response)%nat →
  sendRecvCoAPMessage request response n c =
  (Aborted,
   printed (assertionLines "Failed to receive the HTTP message." [])
     (rebound kGateway s2 (rebound kGateway (StreamSocket.send s request 32).2 c))).
Proof.
  intros Hs Hsend Hr Hn. unfold sendRecvCoAPMessage.
  rewrite bind_run, (socket_bound kGateway s c Hs).
  destruct (StreamSocket.send s request 32) as [ok s1]. simpl in Hsend, Hr. subst ok.
  rewrite bind_run. unfold setSocket at 1.
  rewrite bind_run, passert_holds.
  rewrite bind_run, (socket_bound kGateway s1) by reflexivity.
  cbn [snd]. rewrite Hr.
  rewrite bind_run. unfold setSocket at 1.
  rewrite bind_run, store_fits
    by (apply StreamSocketFacts.receiveWithLength_spec in Hr; lia).
  rewrite bind_run, passert_fails. reflexivity.
Qed.

Lemma sendRecvCoAPMessage_bound (request response : list Z) (n : nat)
    (c : Controller) (s : StreamSocket) :
  gateway (sockets c) = Some s →
  (sendRecvCoAPMessage request response n c).1 ≠ Undefined EmptyOptional.
Proof.
  intros Hs. unfold sendRecvCoAPMessage.
  rewrite bind_run, (socket_bound kGateway s c Hs).
  destruct (StreamSocket.send s request 32) as [ok s1].
  rewrite bind_run. unfold setSocket at 1.
  rewrite bind_run. destruct ok; [|rewrite passert_fails; discriminate].
  rewrite passert_holds.
  rewrite bind_run, (socket_bound kGateway s1) by reflexivity.
  destruct (StreamSocket.receiveWithLength s1 n) as [[ok received] s2].
  rewrite bind_run. unfold setSocket at 1.
  rewrite bind_run. unfold store at 1.
  destruct (0 + length received <=? length response)%nat; [|discriminate].
  unfold mret at 1, M_ret at 1.
  rewrite bind_run. destruct ok; [rewrite passert_holds|rewrite passert_fails]; discriminate.
Qed.

Lemma sendRecvCoAPMessageOnce_unbound (c : Controller) :
  gateway (sockets c) = None →
  sendRecvCoAPMessageOnce c = (Undefined EmptyOptional, c).
Proof.
  intros Hs. unfold sendRecvCoAPMessageOnce.
  rewrite bind_run, makeCoAPRequestMessage_run by apply length_replicate.
  rewrite bind_run, (sendRecvCoAPMessage_unbound _ _ _ _ Hs). reflexivity.
Qed.

(** The line [coap] takes the shell to the round trip without a look at
    the gateway slot. *)
Lemma run_iteration_coap (c : Controller) :
  run_iteration "coap" c =
  (sendRecvCoAPMessageOnce;; mret Continue) (printed [Printf "Commander > " []] c).
Proof. reflexivity. Qed.

End ControllerFacts.

(* ===================================================================== *)
(** * The specification's properties *)
(* ===================================================================== *)

Section QueueClaims.
Context {Element : Type}.
Import LinkedBlockingQueue LinkedBlockingQueueFacts.

(** C3. FIFO, nothing lost, nothing returned twice. Offering [xs] and then
    polling as many times returns exactly [xs] and leaves the queue empty;
    in every history of completed calls, in whatever order the offers of the
    threads and the polls were serialised, the elements offered are the
    elements polled, in the same order, followed by what is still queued;
    and a [poll] that had to wait returns the head of what was queued and
    then arrived. *)
Theorem poll_returns_offers_in_order :
  (∀ xs : list Element,
     run [] (map Offer xs ++ replicate (length xs) Poll) = Some (xs, []))
  ∧ (∀ (calls : list (call Element)) (polled final : list Element),
       run [] calls = Some (polled, final) → offered calls = polled ++ final)
  ∧ (∀ (q q' : list Element) (arrivals : list (list Element)) (x : Element),
       poll q arrivals = Some (x, q') →
       ∃ k, x :: q' = q ++ concat (take k arrivals)).
Proof.
  split; [|split].
  - intros xs. rewrite run_offers. cbn [app].
    pose proof (run_polls xs []) as Hpolls. rewrite app_nil_r in Hpolls. exact Hpolls.
  - intros calls polled final Hrun. apply run_conserves in Hrun. exact Hrun.
  - intros q q' arrivals x. apply poll_head.
Qed.

(** C7. A [pollWithTimeout] on a queue that is empty and stays empty up to
    the deadline, through any number of wake-ups, returns no element and
    leaves the queue as it was. *)
Theorem pollWithTimeout_times_out (arrivals : list (list Element)) :
  Forall (λ arrived, arrived = []) arrivals →
  pollWithTimeout (@nil Element) arrivals [] = (None, []).
Proof.
  intros Hquiet. unfold pollWithTimeout.
  rewrite (wait_for_stays_empty arrivals Hquiet). reflexivity.
Qed.

End QueueClaims.

Lemma poll_returns_offers_in_order_witness :
  LinkedBlockingQueue.run []
    [LinkedBlockingQueue.Offer 1%nat; LinkedBlockingQueue.Offer 2%nat;
     LinkedBlockingQueue.Poll; LinkedBlockingQueue.Offer 3%nat; LinkedBlockingQueue.Poll]
  = Some ([1%nat; 2%nat], [3%nat])
  ∧ LinkedBlockingQueue.offered
      [LinkedBlockingQueue.Offer 1%nat; LinkedBlockingQueue.Offer 2%nat;
       LinkedBlockingQueue.Poll; LinkedBlockingQueue.Offer 3%nat; LinkedBlockingQueue.Poll]
    = [1%nat; 2%nat] ++ [3%nat].
Proof.
  split; [reflexivity|].
  apply (proj1 (proj2 (@poll_returns_offers_in_order nat))). reflexivity.
Defined.

Lemma pollWithTimeout_times_out_witness :
  Forall (λ arrived : list nat, arrived = []) [[]; []; []]
  ∧ LinkedBlockingQueue.pollWithTimeout (@nil nat) [[]; []; []] [] = (None, []).
Proof.
  assert (Hquiet : Forall (λ arrived : list nat, arrived = []) [[]; []; []])
    by (repeat constructor).
  split; [exact Hquiet|]. apply (pollWithTimeout_times_out _ Hquiet).
Defined.

(** C8. On a non-empty vector of samples the three accessors have a value
    and [min() <= medium() <= max()]. *)
Theorem min_medium_max (r : ExecutionTimeMeasurer.Result) :
  ExecutionTimeMeasurer.durations r ≠ [] →
  ∃ lo med hi : N,
    ExecutionTimeMeasurer.min r = Some lo
    ∧ ExecutionTimeMeasurer.medium r = Some med
    ∧ ExecutionTimeMeasurer.max r = Some hi
    ∧ (lo <= med)%N ∧ (med <= hi)%N.
Proof.
  destruct r as [[|x rest]]; [intros Hne; contradiction Hne; reflexivity|]. intros _.
  destruct (ExecutionTimeMeasurerFacts.min_spec x rest) as [lo [Hlo Hmin]].
  destruct (ExecutionTimeMeasurerFacts.max_spec x rest) as [hi [Hhi Hmax]].
  destruct (ExecutionTimeMeasurerFacts.medium_spec x rest) as [med [Hmed Hin]].
  exists lo, med, hi. repeat split; try assumption.
  - rewrite Forall_forall in Hmin. apply Hmin. exact Hin.
  - rewrite Forall_forall in Hmax. apply Hmax. exact Hin.
Qed.

Lemma min_medium_max_witness :
  ∃ lo med hi : N,
    ExecutionTimeMeasurer.min {| ExecutionTimeMeasurer.durations := [5; 1; 9]%N |} = Some lo
    ∧ ExecutionTimeMeasurer.medium {| ExecutionTimeMeasurer.durations := [5; 1; 9]%N |} = Some med
    ∧ ExecutionTimeMeasurer.max {| ExecutionTimeMeasurer.durations := [5; 1; 9]%N |} = Some hi
    ∧ (lo <= med)%N ∧ (med <= hi)%N.
Proof.
  apply (min_medium_max {| ExecutionTimeMeasurer.durations := [5; 1; 9]%N |}).
  simpl. discriminate.
Defined.

Section ControllerClaims.
Context `{Platform, MessageHpp, CoAPHpp}.

(** C1, as the code has it. A record whose magic is [0x4657] and whose tag
    no [case] names does not abort anything: the round ends normally, the
    queue and the connection are as they were, a [DEBUG] build prints the
    "Should never reach at here" error line and any other build prints
    nothing, and the run loop goes on to the next read. *)
Theorem receiver_logs_unknown_type (index : SocketIndex) (c : Controller)
    (s s' : StreamSocket) (received : list Z) (tag : Z) (rounds : nat) :
  socketAt index (sockets c) = Some s →
  StreamSocket.receiveWithLength s sizeofMessage = (true, received, s') →
  (sizeofMessage ≤ 32)%nat →
  magic (castMessage (inBuffer received)) = 0x4657 →
  type (castMessage (inBuffer received)) = kOther tag →
  let c' :=
    printed (errorLines "Message type is [%s]. Should never reach at here."
               [Str (Type2String (kOther tag))]) (rebound index s' c) in
  receiver_iteration index c = (Returned Continue, c')
  ∧ queue c' = queue c
  ∧ receiver_loop (S rounds) index c = receiver_loop rounds index c'.
Proof.
  intros Hs Hr Hsz Hm Ht c'.
  assert (Hround : receiver_iteration index c = (Returned Continue, c')).
  { rewrite (receiver_iteration_switch _ _ _ _ _ Hs Hr Hsz Hm).
    unfold switched. rewrite Ht. cbn [fst snd].
    unfold enqueued. cbn [sockets queue console clock printed rebound].
    rewrite app_nil_r. reflexivity. }
  split; [exact Hround|]. split; [reflexivity|].
  apply receiver_loop_continue. exact Hround.
Qed.

(** C2. Whatever the 32-byte array held and for every [uint32] moisture,
    the encoder returns (the size assertion holds) with the array filled as
    the specification lays it out: 32 bytes, the header, the three options,
    the marker [0xFF] and the payload; its last four bytes are the moisture
    in native byte order, its first two are the fixed bit-field byte and the
    POST code, the next two the message ID [0x4657] in native byte order,
    and the port bytes are [0x27 0x66] on either kind of host. *)
Theorem makeCoAPRequestMessage_layout (buffer : list Z) (moisture : Z) (c : Controller) :
  length buffer = 32%nat →
  0 <= moisture < 2 ^ 32 →
  makeCoAPRequestMessage buffer moisture c = (Returned (coapRequest moisture), c)
  ∧ length (coapRequest moisture) = 32%nat
  ∧ drop 28 (coapRequest moisture) = nativeBytes 4 moisture
  ∧ nativeValue (drop 28 (coapRequest moisture)) = moisture
  ∧ take 2 (coapRequest moisture) = [uint8 (bitFields 1 1 0); uint8 kPost]
  ∧ take 2 (drop 2 (coapRequest moisture)) = nativeBytes 2 0x4657
  ∧ nativeBytes 2 (htons 10086) = [0x27; 0x66].
Proof.
  intros Hlen Hrange.
  split; [apply makeCoAPRequestMessage_run; exact Hlen|].
  split; [apply coapRequest_length|].
  assert (Hlast : drop 28 (coapRequest moisture) = nativeBytes 4 moisture).
  { unfold coapRequest, headerBytes, nativeBytes. destruct littleEndian; reflexivity. }
  split; [exact Hlast|].
  split; [rewrite Hlast; apply nativeValue_nativeBytes; exact Hrange|].
  split; [reflexivity|].
  split.
  - unfold coapRequest, headerBytes, nativeBytes. destruct littleEndian; reflexivity.
  - unfold nativeBytes, htons. destruct littleEndian; reflexivity.
Qed.

(** C4. A record with the right magic is relayed by its type: a Soil Dry
    or Soil Wet Alert puts exactly one command, that message for the
    Actuator, at the tail of the queue; an Ack Soil Wet exactly one, that
    message for the Monitor; the three stack reports and the Run Out Of
    Water Alert leave the queue as it was. *)
Theorem receiver_relays_by_type (index : SocketIndex) (c : Controller)
    (s s' : StreamSocket) (received : list Z) :
  socketAt index (sockets c) = Some s →
  StreamSocket.receiveWithLength s sizeofMessage = (true, received, s') →
  (sizeofMessage ≤ 32)%nat →
  magic (castMessage (inBuffer received)) = 0x4657 →
  let m := castMessage (inBuffer received) in
  ∃ c', receiver_iteration index c = (Returned Continue, c')
    ∧ (type m = kSoilDryAlert ∨ type m = kSoilWetAlert →
       queue c' = queue c ++ [{| message := m; index := kActuator |}])
    ∧ (type m = kAckSoilWet →
       queue c' = queue c ++ [{| message := m; index := kMonitor |}])
    ∧ (type m = kMoistureUserStack ∨ type m = kActuatorUserStack
       ∨ type m = kGateWayUserStack ∨ type m = kRunOutOfWaterAlert →
       queue c' = queue c).
Proof.
  intros Hs Hr Hsz Hm m.
  eexists. split; [apply (receiver_iteration_switch _ _ _ _ _ Hs Hr Hsz Hm)|].
  fold m. unfold switched, enqueued. cbn [queue].
  repeat split.
  - intros [Ht|Ht]; rewrite Ht; reflexivity.
  - intros Ht; rewrite Ht; reflexivity.
  - intros [Ht|[Ht|[Ht|Ht]]]; rewrite Ht; cbn; apply app_nil_r.
Qed.

(** C5. A record whose magic is not [0x4657] is rejected: the round ends
    normally with nothing offered, nothing printed but the "Magic
    Mismatched" error line of a [DEBUG] build (no status line of any message
    type), the slot still bound to the same descriptor with nothing sent on
    it, and the run loop goes on to the next read. *)
Theorem receiver_rejects_magic_mismatch (index : SocketIndex) (c : Controller)
    (s s' : StreamSocket) (received : list Z) (rounds : nat) :
  socketAt index (sockets c) = Some s →
  StreamSocket.receiveWithLength s sizeofMessage = (true, received, s') →
  (sizeofMessage ≤ 32)%nat →
  magic (castMessage (inBuffer received)) ≠ 0x4657 →
  let c' :=
    printed (errorLines "Received an invalid message from the %s device: Magic Mismatched."
               [Str (SocketIndex2String index)]) (rebound index s' c) in
  receiver_iteration index c = (Returned Continue, c')
  ∧ queue c' = queue c
  ∧ socketAt index (sockets c') = Some s'
  ∧ sameConnection s s'
  ∧ receiver_loop (S rounds) index c = receiver_loop rounds index c'.
Proof.
  intros Hs Hr Hsz Hm c'.
  assert (Hround : receiver_iteration index c = (Returned Continue, c'))
    by exact (receiver_iteration_mismatch _ _ _ _ _ Hs Hr Hsz Hm).
  split; [exact Hround|]. split; [reflexivity|].
  split; [apply socketAt_withSocket|].
  split; [apply StreamSocketFacts.receiveWithLength_spec in Hr; apply Hr|].
  apply receiver_loop_continue. exact Hround.
Qed.

(** C6. A command the sender dequeues for a slot that is not bound is
    consumed: the round ends normally, the command is gone from the queue,
    no socket is touched, one warning line is printed, and the loop goes on.
    A command whose socket write fails is consumed as well: the round ends
    normally, the two lines of the soft assertion are printed, and the loop
    goes on. *)
Theorem sender_survives_unbound_and_failed_send (arrivals : list (list Command))
    (later : list (list (list Command))) (c : Controller)
    (command : Command) (rest : list Command) :
  LinkedBlockingQueue.poll (queue c) arrivals = Some (command, rest) →
  (socketAt (index command) (sockets c) = None →
   let c' :=
     printed [Log Warning "Ignore messages sent to the %s device that is not connected."
                [Str (SocketIndex2String (index command))]] (dequeued rest c) in
   sender_iteration arrivals c = (Returned (), c')
   ∧ queue c' = rest
   ∧ sockets c' = sockets c
   ∧ written c' = written c
   ∧ sender (arrivals :: later) c = sender later c')
  ∧ (∀ s : StreamSocket,
       socketAt (index command) (sockets c) = Some s →
       (StreamSocket.send s (objectBytes (message command)) sizeofMessage).1 = false →
       let c' :=
         printed (assertionLines "Failed to send the message to the %s device."
                    [Str (SocketIndex2String (index command))])
           (rebound (index command)
              (StreamSocket.send s (objectBytes (message command)) sizeofMessage).2
              (dequeued rest c)) in
       sender_iteration arrivals c = (Returned (), c')
       ∧ queue c' = rest
       ∧ sender (arrivals :: later) c = sender later c').
Proof.
  intros Hpoll. split.
  - intros Hs c'.
    assert (Hround : sender_iteration arrivals c = (Returned (), c'))
      by exact (sender_iteration_unbound _ _ _ _ Hpoll Hs).
    repeat split; try reflexivity; [exact Hround|].
    apply sender_continue. exact Hround.
  - intros s Hs Hsend c'.
    assert (Hround : sender_iteration arrivals c = (Returned (), c')).
    { rewrite (sender_iteration_bound _ _ _ _ _ Hpoll Hs). cbn zeta.
      rewrite Hsend. apply psoftassert_fails. }
    repeat split; try reflexivity; [exact Hround|].
    apply sender_continue. exact Hround.
Qed.

(** C9. With the gateway bound, a failed send of the request aborts the
    process, and so does a failed read of the reply after a good send, each
    after the two lines of its assertion. A failed send on the sender thread
    ends the round normally, and a failed read on a receiver thread leaves
    the run loop, which ends that thread and nothing else. *)
Theorem gateway_failure_aborts :
  (∀ (request response : list Z) (n : nat) (c : Controller) (s : StreamSocket),
     gateway (sockets c) = Some s →
     (StreamSocket.send s request 32).1 = false →
     ∃ c', sendRecvCoAPMessage request response n c = (Aborted, c')
       ∧ console c' = console c
                      ++ assertionLines "Failed to send the CoAP request message." [])
  ∧ (∀ (request response : list Z) (n : nat) (c : Controller) (s : StreamSocket),
       gateway (sockets c) = Some s →
       (n ≤ length response)%nat →
       (StreamSocket.send s request 32).1 = true →
       (StreamSocket.receiveWithLength (StreamSocket.send s request 32).2 n).1.1 = false →
       ∃ c', sendRecvCoAPMessage request response n c = (Aborted, c')
         ∧ console c' = console c
                        ++ assertionLines "Failed to receive the HTTP message." [])
  ∧ (∀ (arrivals : list (list Command)) (c : Controller) (command : Command)
       (rest : list Command) (s : StreamSocket),
       LinkedBlockingQueue.poll (queue c) arrivals = Some (command, rest) →
       socketAt (index command) (sockets c) = Some s →
       (StreamSocket.send s (objectBytes (message command)) sizeofMessage).1 = false →
       (sender_iteration arrivals c).1 = Returned ())
  ∧ (∀ (index : SocketIndex) (c : Controller) (s : StreamSocket) (rounds : nat),
       socketAt index (sockets c) = Some s →
       (sizeofMessage ≤ 32)%nat →
       (StreamSocket.receiveWithLength s sizeofMessage).1.1 = false →
       (receiver_iteration index c).1 = Returned Break
       ∧ (receiver_loop (S rounds) index c).1 = Returned Exited).
Proof.
  split; [|split; [|split]].
  - intros request response n c s Hs Hsend. eexists.
    split; [apply (sendRecvCoAPMessage_send_failed _ _ _ _ _ Hs Hsend)|]. reflexivity.
  - intros request response n c s Hs Hn Hsend Hrecv.
    destruct (StreamSocket.receiveWithLength (StreamSocket.send s request 32).2 n)
      as [[ok received] s2] eqn:Hr.
    simpl in Hrecv. subst ok. eexists.
    split; [apply (sendRecvCoAPMessage_receive_failed _ _ _ _ _ _ _ Hs Hsend Hr Hn)|].
    reflexivity.
  - intros arrivals c command rest s Hpoll Hs Hsend.
    rewrite (sender_iteration_bound _ _ _ _ _ Hpoll Hs). cbn zeta.
    rewrite Hsend, psoftassert_fails. reflexivity.
  - intros index c s rounds Hs Hsz Hrecv.
    destruct (StreamSocket.receiveWithLength s sizeofMessage) as [[ok received] s'] eqn:Hr.
    simpl in Hrecv. subst ok.
    pose proof (receiver_iteration_failed _ _ _ _ _ Hs Hr Hsz) as Hround.
    split; [rewrite Hround; reflexivity|].
    rewrite (receiver_loop_break _ _ _ _ Hround). reflexivity.
Qed.

(** C10. [sendRecvCoAPMessage] does not look at the gateway slot before it
    dereferences it: with the slot empty the call is the dereference of an
    empty optional. The shell's [coap] line reaches that call with the slot
    empty, in one round and from [run]. With the slot bound the call never
    ends in that dereference. *)
Theorem coap_needs_bound_gateway :
  (∀ (request response : list Z) (n : nat) (c : Controller),
     gateway (sockets c) = None →
     sendRecvCoAPMessage request response n c = (Undefined EmptyOptional, c))
  ∧ (∀ (c : Controller) (later : list string),
       gateway (sockets c) = None →
       (run_iteration "coap" c).1 = Undefined EmptyOptional
       ∧ (run ("coap"%string :: later) c).1 = Undefined EmptyOptional)
  ∧ (∀ (request response : list Z) (n : nat) (c : Controller) (s : StreamSocket),
       gateway (sockets c) = Some s →
       (sendRecvCoAPMessage request response n c).1 ≠ Undefined EmptyOptional).
Proof.
  split; [|split].
  - intros request response n c Hs. apply sendRecvCoAPMessage_unbound. exact Hs.
  - intros c later Hs.
    assert (Hround : run_iteration "coap" c
                     = (Undefined EmptyOptional, printed [Printf "Commander > " []] c)).
    { rewrite run_iteration_coap, bind_run.
      rewrite sendRecvCoAPMessageOnce_unbound by exact Hs. reflexivity. }
    split; [rewrite Hround; reflexivity|].
    unfold run. rewrite bind_run. unfold getSocket at 1. cbn [socketAt]. rewrite Hs.
    cbn [bool_decide decide_rel]. rewrite bind_run.
    replace ((if bool_decide (is_Some None)
              then receiveGarbageDataFromFastModels kGateway else mret ()) c)
      with (Returned (), c) by reflexivity.
    rewrite bind_run. cbn [run_loop]. rewrite bind_run, Hround. reflexivity.
  - intros request response n c s Hs. apply (sendRecvCoAPMessage_bound _ _ _ _ _ Hs).
Qed.

End ControllerClaims.

Section Witnesses.
Local Existing Instance Sample.platform.
Local Existing Instance Sample.messages.
Local Existing Instance Sample.coap.

(** C1, against the claim as stated. The monitor sends a record with the
    right magic and tag 99, which no [case] names; the round does not end
    in an abort, it ends normally and the loop continues. *)
Lemma unknown_type_is_not_fatal :
  magic (castMessage (inBuffer Sample.unknownRecord)) = 0x4657
  ∧ type (castMessage (inBuffer Sample.unknownRecord)) = kOther 99
  ∧ (receiver_iteration kMonitor (Sample.monitoring Sample.unknownRecord)).1 ≠ Aborted
  ∧ (receiver_iteration kMonitor (Sample.monitoring Sample.unknownRecord)).1
    = Returned Continue.
Proof.
  split; [reflexivity|]. split; [reflexivity|].
  split; [vm_compute; discriminate|reflexivity].
Qed.

Lemma receiver_logs_unknown_type_witness :
  receiver_iteration kMonitor (Sample.monitoring Sample.unknownRecord)
  = (Returned Continue,
     printed [Log Error "Message type is [%s]. Should never reach at here." [Str "Unknown"]]
       (rebound kMonitor (Sample.holding [] []) (Sample.monitoring Sample.unknownRecord))).
Proof.
  refine (proj1 (receiver_logs_unknown_type kMonitor (Sample.monitoring Sample.unknownRecord)
                   (Sample.holding [Some Sample.unknownRecord] []) (Sample.holding [] [])
                   Sample.unknownRecord 99 0 _ _ _ _ _));
    try reflexivity.
  vm_compute. lia.
Defined.

Lemma makeCoAPRequestMessage_layout_witness :
  makeCoAPRequestMessage (replicate 32 0) 100 Sample.alone
  = (Returned
       [80; 2; 87; 70; 57; 108; 111; 99; 97; 108; 104; 111; 115; 116; 66;
        39; 102; 73; 47; 109; 111; 105; 115; 116; 117; 114; 101; 255; 100;
        0; 0; 0], Sample.alone).
Proof.
  refine (proj1 (makeCoAPRequestMessage_layout (replicate 32 0) 100 Sample.alone _ _)).
  - reflexivity.
  - lia.
Defined.

Lemma receiver_relays_by_type_witness :
  ∃ c', receiver_iteration kMonitor (Sample.monitoring Sample.dryRecord)
        = (Returned Continue, c')
    ∧ queue c' = [{| message := {| magic := 0x4657; type := kSoilDryAlert; data := 0 |};
                     index := kActuator |}].
Proof.
  destruct (receiver_relays_by_type kMonitor (Sample.monitoring Sample.dryRecord)
              (Sample.holding [Some Sample.dryRecord] []) (Sample.holding [] [])
              Sample.dryRecord ltac:(reflexivity) ltac:(reflexivity) ltac:(vm_compute; lia) ltac:(reflexivity))
    as [c' [Hround [Hdry _]]].
  exists c'. split; [exact Hround|]. apply Hdry. left. reflexivity.
Defined.

Lemma receiver_rejects_magic_mismatch_witness :
  receiver_iteration kMonitor (Sample.monitoring Sample.strayRecord)
  = (Returned Continue,
     printed [Log Error "Received an invalid message from the %s device: Magic Mismatched."
                [Str "Monitor"]]
       (rebound kMonitor (Sample.holding [] []) (Sample.monitoring Sample.strayRecord))).
Proof.
  refine (proj1 (receiver_rejects_magic_mismatch kMonitor (Sample.monitoring Sample.strayRecord)
                   (Sample.holding [Some Sample.strayRecord] []) (Sample.holding [] [])
                   Sample.strayRecord 0 _ _ _ _)); try reflexivity.
  - vm_compute. lia.
  - vm_compute. discriminate.
Defined.

Lemma sender_survives_unbound_and_failed_send_witness :
  (sender [[]; []] Sample.refusing).1 = Returned Running
  ∧ queue (sender [[]; []] Sample.refusing).2 = []
  ∧ console (sender [[]; []] Sample.refusing).2
    = [Log Warning "Ignore messages sent to the %s device that is not connected."
         [Str "Gateway"];
       Log AssertionFailed "Failed to send the message to the %s device." [Str "Actuator"];
       Printf "Assertion triggered in file %s at line %d\n" []].
Proof.
  destruct (sender_survives_unbound_and_failed_send [] [[]] Sample.refusing
              Sample.toGateway [Sample.toActuator] ltac:(reflexivity)) as [Hunbound _].
  destruct (Hunbound ltac:(reflexivity)) as [_ [_ [_ [_ Hfirst]]]].
  destruct (sender_survives_unbound_and_failed_send [] []
              (printed [Log Warning "Ignore messages sent to the %s device that is not connected."
                          [Str "Gateway"]] (dequeued [Sample.toActuator] Sample.refusing))
              Sample.toActuator [] ltac:(reflexivity)) as [_ Hfailed].
  destruct (Hfailed (Sample.holding [] [-1]) ltac:(reflexivity) ltac:(reflexivity)) as [_ [_ Hsecond]].
  cbn zeta in Hfirst, Hsecond.
  rewrite (eq_trans Hfirst Hsecond). repeat split.
Defined.

Lemma gateway_failure_aborts_witness :
  (sendRecvCoAPMessage (coapRequest 100) (replicate 64 0) 54 Sample.deafGateway).1 = Aborted
  ∧ (sendRecvCoAPMessage (coapRequest 100) (replicate 64 0) 54 Sample.muteGateway).1 = Aborted
  ∧ (sender_iteration []
       (Sample.controller None (Some (Sample.holding [] [-1])) None [Sample.toActuator])).1
    = Returned ()
  ∧ (receiver_loop 1 kMonitor Sample.brokenMonitor).1 = Returned Exited.
Proof.
  destruct gateway_failure_aborts as [Hsend [Hrecv [Hsender Hreceiver]]].
  split; [|split; [|split]].
  - destruct (Hsend (coapRequest 100) (replicate 64 0) 54%nat Sample.deafGateway
                (Sample.holding [] [-1]) ltac:(reflexivity) ltac:(reflexivity)) as [c' [Hcall _]].
    rewrite Hcall. reflexivity.
  - destruct (Hrecv (coapRequest 100) (replicate 64 0) 54%nat Sample.muteGateway
                (Sample.holding [None] [32]) ltac:(reflexivity) ltac:(vm_compute; lia) ltac:(reflexivity) ltac:(reflexivity))
      as [c' [Hcall _]].
    rewrite Hcall. reflexivity.
  - exact (Hsender [] (Sample.controller None (Some (Sample.holding [] [-1])) None
                         [Sample.toActuator])
             Sample.toActuator [] (Sample.holding [] [-1])
             ltac:(reflexivity) ltac:(reflexivity) ltac:(reflexivity)).
  - exact (proj2 (Hreceiver kMonitor Sample.brokenMonitor (Sample.holding [None] []) 0%nat
                    ltac:(reflexivity) ltac:(vm_compute; lia) ltac:(reflexivity))).
Defined.

Lemma coap_needs_bound_gateway_witness :
  (run ["coap"%string] Sample.alone).1 = Undefined EmptyOptional
  ∧ (sendRecvCoAPMessage (coapRequest 100) (replicate 64 0) 54 Sample.muteGateway).1
    ≠ Undefined EmptyOptional.
Proof.
  destruct coap_needs_bound_gateway as [_ [Hshell Hbound]].
  split.
  - exact (proj2 (Hshell Sample.alone [] ltac:(reflexivity))).
  - exact (Hbound (coapRequest 100) (replicate 64 0) 54%nat Sample.muteGateway
             (Sample.holding [None] [32]) ltac:(reflexivity)).
Defined.

End Witnesses.

(* ===================================================================== *)
(** * Further properties of the queue *)
(* ===================================================================== *)

Section QueueWaits.
Context {Element : Type}.
Import LinkedBlockingQueue LinkedBlockingQueueFacts.

Lemma wait_none_iff (arrivals : list (list Element)) :
  ∀ q : list Element,
    wait q arrivals = None ↔ q = [] ∧ Forall (λ arrived, arrived = []) arrivals.
Proof.
  induction arrivals as [|a later IH]; intros q; simpl.
  - destruct q as [|x q]; simpl.
    + split; [intros _; split; [reflexivity|constructor]|reflexivity].
    + split; [discriminate|intros [Hq _]; discriminate Hq].
  - destruct q as [|x q]; simpl.
    + rewrite IH. split.
      * intros [-> Hlater]. split; [reflexivity|]. constructor; [reflexivity|exact Hlater].
      * intros [_ Hall]. inversion Hall; subst. split; [reflexivity|assumption].
    + split; [discriminate|intros [Hq _]; discriminate Hq].
Qed.

(** What [wait_for] leaves in the queue is what was there followed by the
    arrivals it went through, the last sleep included when it got that far. *)
Lemma wait_for_conserves (arrivals : list (list Element)) (last : list Element) :
  ∀ q : list Element,
    ∃ k, (wait_for q arrivals last).2 = q ++ concat (take k (arrivals ++ [last])).
Proof.
  induction arrivals as [|a later IH]; intros q; simpl.
  - destruct (predicate q).
    + exists 0%nat. simpl. by rewrite app_nil_r.
    + exists 1%nat. simpl. by rewrite app_nil_r.
  - destruct (predicate q).
    + exists 0%nat. simpl. by rewrite app_nil_r.
    + destruct (IH (q ++ a)) as [k Hk]. exists (S k). simpl.
      rewrite Hk. by rewrite app_assoc.
Qed.

Lemma wait_for_verdict (arrivals : list (list Element)) (last : list Element) :
  ∀ q : list Element,
    (wait_for q arrivals last).1 = predicate (wait_for q arrivals last).2.
Proof.
  induction arrivals as [|a later IH]; intros q; simpl.
  - destruct (predicate q) eqn:E; simpl; [by rewrite E|reflexivity].
  - destruct (predicate q) eqn:E; simpl; [by rewrite E|apply IH].
Qed.

Lemma wait_for_false_iff (arrivals : list (list Element)) (last : list Element) :
  ∀ q : list Element,
    (wait_for q arrivals last).1 = false
    ↔ q = [] ∧ Forall (λ arrived, arrived = []) arrivals ∧ last = [].
Proof.
  induction arrivals as [|a later IH]; intros q; simpl.
  - destruct q as [|x q]; simpl.
    + destruct last as [|y last]; simpl.
      * split; [intros _; repeat split; constructor|reflexivity].
      * split; [discriminate|intros [_ [_ Hl]]; discriminate Hl].
    + split; [discriminate|intros [Hq _]; discriminate Hq].
  - destruct q as [|x q]; simpl.
    + rewrite IH. split.
      * intros [-> [Hlater Hlast]]. repeat split; [|exact Hlast].
        constructor; [reflexivity|exact Hlater].
      * intros [_ [Hall Hlast]]. inversion Hall; subst. repeat split; assumption.
    + split; [discriminate|intros [Hq _]; discriminate Hq].
Qed.

(** X1. [poll] fails to return only by sleeping for good, and that happens
    exactly when the queue is empty and no producer ever offers anything;
    in every other case it returns an element. *)
Theorem poll_blocks_iff_nothing_arrives (q : list Element) (arrivals : list (list Element)) :
  poll q arrivals = None ↔ q = [] ∧ Forall (λ arrived, arrived = []) arrivals.
Proof.
  rewrite <- wait_none_iff. unfold poll.
  destruct (wait q arrivals) as [q'|] eqn:W; [|tauto].
  destruct (wait_returns _ _ _ W) as [Hne _].
  destruct q' as [|x q']; [discriminate Hne|]. simpl.
  split; discriminate.
Qed.

(** X2. [pollWithTimeout] gives the empty result exactly when the queue is
    empty at the call and stays empty through every wake-up and the last
    sleep; otherwise it returns the head. Either way nothing is lost: the
    element returned, if any, followed by what is left in the queue is what
    was queued followed by the arrivals up to the moment of return. *)
Theorem pollWithTimeout_empty_iff_nothing_arrives (q : list Element)
    (arrivals : list (list Element)) (last : list Element) :
  ((pollWithTimeout q arrivals last).1 = None
   ↔ q = [] ∧ Forall (λ arrived, arrived = []) arrivals ∧ last = [])
  ∧ ∃ k, option_list (pollWithTimeout q arrivals last).1 ++ (pollWithTimeout q arrivals last).2
         = q ++ concat (take k (arrivals ++ [last])).
Proof.
  rewrite <- wait_for_false_iff.
  pose proof (wait_for_verdict arrivals last q) as Hverdict.
  destruct (wait_for_conserves arrivals last q) as [k Hk].
  unfold pollWithTimeout.
  destruct (wait_for q arrivals last) as [ok q'] eqn:W. simpl in Hverdict, Hk.
  destruct ok.
  - destruct q' as [|x q']; [discriminate Hverdict|]. simpl.
    split; [split; discriminate|]. exists k. exact Hk.
  - simpl. split; [tauto|]. exists k. exact Hk.
Qed.

End QueueWaits.

(* ===================================================================== *)
(** * Further properties of the statistics *)
(* ===================================================================== *)

Module ExecutionTimeMeasurerMore.
Import ExecutionTimeMeasurer ExecutionTimeMeasurerFacts.

Lemma sort_sorted (v : list N) : StronglySorted N.le (sort v).
Proof. apply StronglySorted_merge_sort; apply _. Qed.

Lemma sort_permutation (v : list N) : sort v ≡ₚ v.
Proof. apply merge_sort_Permutation. Qed.

Lemma sort_proper (v w : list N) : v ≡ₚ w → sort v = sort w.
Proof.
  intros Hperm. apply (StronglySorted_unique N.le); try apply sort_sorted.
  by rewrite !sort_permutation.
Qed.

End ExecutionTimeMeasurerMore.

Import ExecutionTimeMeasurer.

(** X3. On a non-empty vector [min()] and [max()] are samples of the
    vector, and no sample is below the one or above the other. *)
Theorem min_max_are_extreme_samples (r : Result) :
  durations r ≠ [] →
  ∃ lo hi : N,
    min r = Some lo ∧ max r = Some hi
    ∧ lo ∈ durations r ∧ hi ∈ durations r
    ∧ ∀ x, x ∈ durations r → (lo <= x)%N ∧ (x <= hi)%N.
Proof.
  destruct r as [[|x rest]]; [intros Hne; contradiction Hne; reflexivity|]. intros _.
  destruct (ExecutionTimeMeasurerFacts.min_spec x rest) as [lo [Hlo Hmin]].
  destruct (ExecutionTimeMeasurerFacts.max_spec x rest) as [hi [Hhi Hmax]].
  exists lo, hi. cbn [durations].
  repeat split; try assumption.
  - eapply list_elem_of_lookup_2. exact Hlo.
  - eapply list_elem_of_lookup_2. exact Hhi.
  - rewrite Forall_forall in Hmin. by apply Hmin.
  - rewrite Forall_forall in Hmax. by apply Hmax.
Qed.

Lemma min_max_are_extreme_samples_witness :
  ∃ lo hi : N,
    min {| durations := [5; 1; 9; 1]%N |} = Some lo
    ∧ max {| durations := [5; 1; 9; 1]%N |} = Some hi
    ∧ lo ∈ [5; 1; 9; 1]%N ∧ hi ∈ [5; 1; 9; 1]%N
    ∧ ∀ x, x ∈ [5; 1; 9; 1]%N → (lo <= x)%N ∧ (x <= hi)%N.
Proof.
  apply (min_max_are_extreme_samples {| durations := [5; 1; 9; 1]%N |}).
  simpl. discriminate.
Defined.

(** X4. The three statistics depend on the samples only, not on the order
    of the trials: two vectors that are rearrangements of each other have
    the same [min()], [max()] and [medium()]. *)
Theorem statistics_ignore_trial_order (r1 r2 : Result) :
  durations r1 ≡ₚ durations r2 →
  min r1 = min r2 ∧ max r1 = max r2 ∧ medium r1 = medium r2.
Proof.
  destruct r1 as [l1], r2 as [l2]. cbn [durations]. intros Hperm.
  assert (Hmedium : medium {| durations := l1 |} = medium {| durations := l2 |}).
  { unfold medium. cbn [durations].
    rewrite (ExecutionTimeMeasurerMore.sort_proper l1 l2 Hperm).
    by rewrite (Permutation_length Hperm). }
  destruct l1 as [|x1 rest1].
  { apply Permutation_nil_l in Hperm. subst l2. repeat split. }
  destruct l2 as [|x2 rest2].
  { apply Permutation_nil_r in Hperm. discriminate Hperm. }
  destruct (ExecutionTimeMeasurerFacts.min_spec x1 rest1) as [lo1 [Hlo1 Hmin1]].
  destruct (ExecutionTimeMeasurerFacts.min_spec x2 rest2) as [lo2 [Hlo2 Hmin2]].
  destruct (ExecutionTimeMeasurerFacts.max_spec x1 rest1) as [hi1 [Hhi1 Hmax1]].
  destruct (ExecutionTimeMeasurerFacts.max_spec x2 rest2) as [hi2 [Hhi2 Hmax2]].
  rewrite Forall_forall in Hmin1, Hmin2, Hmax1, Hmax2.
  assert (Hin_lo1 : lo1 ∈ x2 :: rest2)
    by (rewrite <- Hperm; eapply list_elem_of_lookup_2; exact Hlo1).
  assert (Hin_lo2 : lo2 ∈ x1 :: rest1)
    by (rewrite Hperm; eapply list_elem_of_lookup_2; exact Hlo2).
  assert (Hin_hi1 : hi1 ∈ x2 :: rest2)
    by (rewrite <- Hperm; eapply list_elem_of_lookup_2; exact Hhi1).
  assert (Hin_hi2 : hi2 ∈ x1 :: rest1)
    by (rewrite Hperm; eapply list_elem_of_lookup_2; exact Hhi2).
  pose proof (Hmin1 _ Hin_lo2). pose proof (Hmin2 _ Hin_lo1).
  pose proof (Hmax1 _ Hin_hi2). pose proof (Hmax2 _ Hin_hi1).
  rewrite Hlo1, Hlo2, Hhi1, Hhi2.
  repeat split; [f_equal; lia|f_equal; lia|exact Hmedium].
Qed.

Lemma statistics_ignore_trial_order_witness :
  min {| durations := [5; 1; 9]%N |} = min {| durations := [9; 5; 1]%N |}
  ∧ max {| durations := [5; 1; 9]%N |} = max {| durations := [9; 5; 1]%N |}
  ∧ medium {| durations := [5; 1; 9]%N |} = medium {| durations := [9; 5; 1]%N |}.
Proof.
  apply (statistics_ignore_trial_order
           {| durations := [5; 1; 9]%N |} {| durations := [9; 5; 1]%N |}).
  cbn [durations].
  apply (Permutation_trans (l' := [5; 9; 1]%N)).
  - apply perm_skip. apply perm_swap.
  - apply perm_swap.
Defined.

(** X5. On a non-empty vector of [n] samples [medium()] is a sample [m]
    that splits the others into [n / 2] samples that are at most [m] and the
    remaining ones that are at least [m]: the middle one for an odd [n], the
    upper of the two middle ones for an even [n]. *)
Theorem medium_is_upper_median (r : Result) :
  durations r ≠ [] →
  ∃ (m : N) (lower upper : list N),
    medium r = Some m
    ∧ durations r ≡ₚ lower ++ m :: upper
    ∧ length lower = (length (durations r) / 2)%nat
    ∧ Forall (λ x, (x <= m)%N) lower
    ∧ Forall (λ x, (m <= x)%N) upper.
Proof.
  destruct r as [l]. cbn [durations]. intros Hne.
  unfold medium. cbn [durations].
  pose proof (ExecutionTimeMeasurerMore.sort_permutation l) as Hperm.
  pose proof (ExecutionTimeMeasurerMore.sort_sorted l) as Hsorted.
  assert (Hlt : (length l / 2 < length (sort l))%nat).
  { rewrite (Permutation_length Hperm). destruct l; [contradiction Hne; reflexivity|].
    cbn [length]. apply Nat.div_lt; lia. }
  destruct (lookup_lt_is_Some_2 _ _ Hlt) as [m Hm].
  exists m, (take (length l / 2) (sort l)), (drop (S (length l / 2)) (sort l)).
  pose proof (take_drop_middle _ _ _ Hm) as Hsplit.
  rewrite <- Hsplit in Hsorted.
  apply StronglySorted_app in Hsorted. destruct Hsorted as [Hcross [_ Hupper]].
  split; [exact Hm|]. split; [rewrite Hsplit; symmetry; exact Hperm|].
  split; [rewrite length_take; lia|]. split.
  - rewrite Forall_forall. intros x Hx. apply (Hcross x m Hx). left.
  - apply StronglySorted_inv in Hupper. apply Hupper.
Qed.

Lemma medium_is_upper_median_witness :
  ∃ (m : N) (lower upper : list N),
    medium {| durations := [7; 3; 9; 5]%N |} = Some m
    ∧ [7; 3; 9; 5]%N ≡ₚ lower ++ m :: upper
    ∧ length lower = 2%nat
    ∧ Forall (λ x, (x <= m)%N) lower
    ∧ Forall (λ x, (m <= x)%N) upper.
Proof.
  apply (medium_is_upper_median {| durations := [7; 3; 9; 5]%N |}).
  simpl. discriminate.
Defined.

(* ===================================================================== *)
(** * Further properties of the transport *)
(* ===================================================================== *)

Module StreamSocketMore.
Import StreamSocket.

Lemma recv_pending (s : StreamSocket) (chunk : list Z) (chunks : list (list Z))
    (later : list (option (list Z))) (m : nat) :
  pending s (chunk :: chunks) later → (0 < m)%nat →
  ∃ (k : nat) (s1 : StreamSocket) (chunks1 : list (list Z)),
    recv s m = (Z.of_nat k, take k (concat (chunk :: chunks)), s1)
    ∧ (0 < k ≤ m ∧ k ≤ length (concat (chunk :: chunks)))%nat
    ∧ pending s1 chunks1 later
    ∧ concat chunks1 = drop k (concat (chunk :: chunks))
    ∧ sameConnection s s1.
Proof.
  intros [Harr Hne] Hm. inversion Hne as [|? ? Hchunk Hrest]; subst.
  unfold recv. rewrite Harr. cbn [map app concat].
  exists (length (take m chunk)).
  destruct (drop m chunk) as [|b left] eqn:Hleft.
  - assert (Hall : take m chunk = chunk).
    { rewrite <- (take_drop m chunk) at 2. rewrite Hleft. by rewrite app_nil_r. }
    eexists. exists chunks. rewrite Hall.
    rewrite take_app_length, drop_app_length.
    split; [reflexivity|]. split.
    { destruct chunk; [contradiction Hchunk; reflexivity|].
      rewrite length_app. pose proof (length_take (z :: chunk) m) as Htake.
      rewrite Hall in Htake. cbn [length] in *. lia. }
    split; [split; [reflexivity|exact Hrest]|]. split; [reflexivity|].
    repeat split.
  - assert (Hlen : (m < length chunk)%nat).
    { destruct (Nat.lt_ge_cases m (length chunk)) as [Hlt|Hge]; [exact Hlt|].
      rewrite drop_ge in Hleft by exact Hge. discriminate Hleft. }
    rewrite length_take_le by lia.
    eexists. exists ((b :: left) :: chunks).
    rewrite take_app_le, drop_app_le by lia.
    split; [reflexivity|]. split; [rewrite length_app; lia|].
    split; [split; [reflexivity|constructor; [discriminate|exact Hrest]]|].
    split; [cbn [concat]; by rewrite Hleft|].
    repeat split.
Qed.

Lemma sameConnection_trans (s1 s2 s3 : StreamSocket) :
  sameConnection s1 s2 → sameConnection s2 s3 → sameConnection s1 s3.
Proof. unfold sameConnection. intros [? [? ?]] [? [? ?]]. repeat split; congruence. Qed.

Lemma receiveWithLength_loop_reassembles (fuel : nat) :
  ∀ (s : StreamSocket) (chunks : list (list Z)) (later : list (option (list Z)))
    (n offset : nat) (data : list Z),
    pending s chunks later →
    (offset ≤ n)%nat → (n - offset ≤ length (concat chunks))%nat →
    (n ≤ offset + fuel)%nat →
    ∃ (s' : StreamSocket) (rest : list (list Z)),
      receiveWithLength_loop fuel s n offset data
      = (true, data ++ take (n - offset) (concat chunks), s')
      ∧ pending s' rest later
      ∧ concat rest = drop (n - offset) (concat chunks)
      ∧ sameConnection s s'.
Proof.
  induction fuel as [|fuel IH]; intros s chunks later n offset data Hp Hle Havail Hfuel.
  - assert (n - offset = 0)%nat as -> by lia. simpl.
    destruct (Nat.leb_spec n offset); [|lia].
    exists s, chunks. rewrite app_nil_r. repeat split; apply Hp.
  - cbn [receiveWithLength_loop].
    destruct (Nat.ltb_spec offset n) as [Hlt|Hge].
    + destruct chunks as [|chunk chunks]; [simpl in Havail; lia|].
      destruct (recv_pending s chunk chunks later (n - offset) Hp ltac:(lia))
        as [k [s1 [chunks1 [Hrecv [Hk [Hp1 [Hconcat1 Hsame1]]]]]]].
      rewrite Hrecv.
      destruct (Z.leb_spec (Z.of_nat k) 0) as [Hbad|_]; [lia|].
      rewrite Nat2Z.id.
      destruct (IH s1 chunks1 later n (offset + k)%nat
                  (data ++ take k (concat (chunk :: chunks))) Hp1)
        as [s' [rest [Hloop [Hp' [Hconcat' Hsame']]]]]; [lia| |lia|].
      { rewrite Hconcat1, length_drop. lia. }
      exists s', rest. rewrite Hloop.
      split.
      { f_equal. f_equal. rewrite <- app_assoc. f_equal.
        rewrite Hconcat1.
        replace (n - (offset + k))%nat with (n - offset - k)%nat by lia.
        rewrite take_take_drop. f_equal. lia. }
      split; [exact Hp'|]. split.
      { rewrite Hconcat', Hconcat1, drop_drop. f_equal. lia. }
      exact (sameConnection_trans _ _ _ Hsame1 Hsame').
    + assert (n - offset = 0)%nat as -> by lia. simpl.
      exists s, chunks. rewrite app_nil_r. repeat split; apply Hp.
Qed.

Lemma receiveWithLength_loop_short (fuel : nat) :
  ∀ (s : StreamSocket) (chunks : list (list Z)) (later : list (option (list Z)))
    (n offset : nat) (data : list Z),
    pending s chunks (match later with [] => [] | _ :: _ => None :: tail later end) →
    (offset ≤ n)%nat → (length (concat chunks) < n - offset)%nat →
    (n ≤ offset + fuel)%nat →
    ∃ s' : StreamSocket,
      receiveWithLength_loop fuel s n offset data = (false, data ++ concat chunks, s')
      ∧ arriving s' = tail later
      ∧ sameConnection s s'.
Proof.
  induction fuel as [|fuel IH]; intros s chunks later n offset data Hp Hle Hshort Hfuel.
  - lia.
  - cbn [receiveWithLength_loop].
    destruct (Nat.ltb_spec offset n) as [Hlt|Hge]; [|lia].
    destruct chunks as [|chunk chunks].
    + destruct Hp as [Harr _]. cbn [map app] in Harr.
      unfold recv. rewrite Harr. destruct later as [|o later]; cbn.
      * exists s. rewrite app_nil_r. repeat split. exact Harr.
      * eexists. rewrite app_nil_r. split; [reflexivity|]. repeat split.
    + destruct (recv_pending s chunk chunks _ (n - offset) Hp ltac:(lia))
        as [k [s1 [chunks1 [Hrecv [Hk [Hp1 [Hconcat1 Hsame1]]]]]]].
      rewrite Hrecv.
      destruct (Z.leb_spec (Z.of_nat k) 0) as [Hbad|_]; [lia|].
      rewrite Nat2Z.id.
      destruct (IH s1 chunks1 later n (offset + k)%nat
                  (data ++ take k (concat (chunk :: chunks))) Hp1)
        as [s' [Hloop [Harr' Hsame']]]; [lia| |lia|].
      { rewrite Hconcat1, length_drop. lia. }
      exists s'. rewrite Hloop. split.
      { f_equal. f_equal. rewrite <- app_assoc. f_equal.
        rewrite Hconcat1. apply take_drop. }
      split; [exact Harr'|].
      exact (sameConnection_trans _ _ _ Hsame1 Hsame').
Qed.

Lemma receiveWithLength_pending (s : StreamSocket) (chunks : list (list Z))
    (later : list (option (list Z))) (n : nat) :
  pending s chunks later →
  (n ≤ length (concat chunks))%nat →
  ∃ (s' : StreamSocket) (rest : list (list Z)),
    receiveWithLength s n = (true, take n (concat chunks), s')
    ∧ pending s' rest later
    ∧ concat rest = drop n (concat chunks)
    ∧ sameConnection s s'.
Proof.
  intros Hp Hn. unfold receiveWithLength.
  destruct (receiveWithLength_loop_reassembles n s chunks later n 0 []
              Hp ltac:(lia) ltac:(lia) ltac:(lia))
    as [s' [rest [Hloop [Hp' [Hconcat Hsame]]]]].
  rewrite Nat.sub_0_r in Hloop, Hconcat.
  exists s', rest. repeat split; try assumption; try apply Hp'; apply Hsame.
Qed.

Lemma backlog_unfold (s : StreamSocket) :
  backlog s = foldr (λ o total, S (match o with Some bytes => length bytes | None => 0 end + total))
                0%nat (arriving s).
Proof. reflexivity. Qed.

Lemma recv_backlog (s s' : StreamSocket) (m : nat) (result : Z) (bytes : list Z) :
  recv s m = (result, bytes, s') →
  (backlog s' ≤ backlog s)%nat ∧ (0 < result → (backlog s' < backlog s)%nat).
Proof.
  unfold recv. rewrite !backlog_unfold.
  destruct (arriving s) as [|[chunk|] later] eqn:Harr.
  - intros [= <- <- <-]. rewrite Harr. simpl. lia.
  - destruct (drop m chunk) as [|b left] eqn:Hleft;
      intros [= <- <- <-]; cbn [arriving foldr].
    + lia.
    + pose proof (length_drop chunk m) as Hd. rewrite Hleft in Hd. cbn [length] in Hd.
      rewrite length_take. cbn [length]. lia.
  - intros [= <- <- <-]. cbn [arriving foldr]. lia.
Qed.

Lemma receiveWithLength_loop_backlog (fuel : nat) :
  ∀ (s s' : StreamSocket) (n offset : nat) (data data' : list Z) (ok : bool),
    receiveWithLength_loop fuel s n offset data = (ok, data', s') →
    (backlog s' ≤ backlog s)%nat
    ∧ (ok = true → (offset < n)%nat → (backlog s' < backlog s)%nat).
Proof.
  induction fuel as [|fuel IH]; intros s s' n offset data data' ok; simpl.
  - intros [= <- <- <-]. split; [lia|].
    destruct (Nat.leb_spec n offset); [lia|discriminate].
  - destruct (Nat.ltb_spec offset n) as [Hlt|Hge].
    + destruct (recv s (n - offset)) as [[result bytes] s1] eqn:R.
      destruct (recv_backlog _ _ _ _ _ R) as [Hle Hdec].
      destruct (Z.leb_spec result 0) as [Hneg|Hpos].
      * intros [= <- <- <-]. split; [exact Hle|discriminate].
      * intros Hloop. apply IH in Hloop. destruct Hloop as [Hle' _].
        specialize (Hdec Hpos). split; lia.
    + intros [= <- <- <-]. split; lia.
Qed.

Lemma receiveWithLength_backlog (s s' : StreamSocket) (n : nat) (data : list Z) :
  receiveWithLength s n = (true, data, s') → (0 < n)%nat → (backlog s' < backlog s)%nat.
Proof.
  unfold receiveWithLength. intros Hloop Hn.
  apply receiveWithLength_loop_backlog in Hloop. destruct Hloop as [_ Hdec]. auto.
Qed.

End StreamSocketMore.

(** X6. [receiveWithLength] puts a message together from however the
    bytes arrive: when at least [n] bytes are waiting, in chunks of any
    sizes, it returns [true] with exactly the first [n] of them, on the same
    connection, and the bytes after them stay waiting, in order, for the
    next read. *)
Theorem receiveWithLength_reassembles (s : StreamSocket) (chunks : list (list Z))
    (later : list (option (list Z))) (n : nat) :
  arriving s = map Some chunks ++ later →
  Forall (λ chunk, chunk ≠ []) chunks →
  (n ≤ length (concat chunks))%nat →
  ∃ (s' : StreamSocket) (rest : list (list Z)),
    StreamSocket.receiveWithLength s n = (true, take n (concat chunks), s')
    ∧ arriving s' = map Some rest ++ later
    ∧ concat rest = drop n (concat chunks)
    ∧ sameConnection s s'.
Proof.
  intros Harr Hne Hn. unfold StreamSocket.receiveWithLength.
  destruct (StreamSocketMore.receiveWithLength_loop_reassembles n s chunks later n 0 []
              (conj Harr Hne) ltac:(lia) ltac:(lia) ltac:(lia))
    as [s' [rest [Hloop [[Harr' _] [Hconcat Hsame]]]]].
  rewrite Nat.sub_0_r in Hloop, Hconcat.
  exists s', rest. repeat split; try assumption; apply Hsame.
Qed.

Lemma receiveWithLength_reassembles_witness :
  ∃ (s' : StreamSocket) (rest : list (list Z)),
    StreamSocket.receiveWithLength
      {| descriptor := 3; arriving := [Some [1; 2]; Some [3]; Some [4; 5; 6]; None];
         accepting := []; sent := [] |} 4
    = (true, take 4 (concat [[1; 2]; [3]; [4; 5; 6]]), s')
    ∧ arriving s' = map Some rest ++ [None]
    ∧ concat rest = drop 4 (concat [[1; 2]; [3]; [4; 5; 6]])
    ∧ sameConnection
        {| descriptor := 3; arriving := [Some [1; 2]; Some [3]; Some [4; 5; 6]; None];
           accepting := []; sent := [] |} s'.
Proof.
  apply (receiveWithLength_reassembles
           {| descriptor := 3; arriving := [Some [1; 2]; Some [3]; Some [4; 5; 6]; None];
              accepting := []; sent := [] |} [[1; 2]; [3]; [4; 5; 6]] [None] 4).
  - reflexivity.
  - repeat constructor; discriminate.
  - simpl. lia.
Defined.

(** X7. A short read is a failure that eats what had arrived: when fewer
    than [n] bytes are waiting and then the peer has closed or the read
    fails, [receiveWithLength] returns [false], the bytes that were waiting
    have been taken off the connection, and so has the failed read. *)
Theorem receiveWithLength_short_read (s : StreamSocket) (chunks : list (list Z))
    (ending : list (option (list Z))) (n : nat) :
  arriving s = map Some chunks ++ ending →
  ending = [] ∨ head ending = Some None →
  Forall (λ chunk, chunk ≠ []) chunks →
  (length (concat chunks) < n)%nat →
  ∃ s' : StreamSocket,
    StreamSocket.receiveWithLength s n = (false, concat chunks, s')
    ∧ arriving s' = tail ending
    ∧ sameConnection s s'.
Proof.
  intros Harr Hending Hne Hn. unfold StreamSocket.receiveWithLength.
  assert (Hshape : ending = match ending with [] => [] | _ :: _ => None :: tail ending end).
  { destruct Hending as [->|Hhead]; [reflexivity|].
    destruct ending as [|o ending]; [reflexivity|]. simpl in Hhead. by injection Hhead as ->. }
  rewrite Hshape in Harr.
  destruct (StreamSocketMore.receiveWithLength_loop_short n s chunks ending n 0 []
              (conj Harr Hne) ltac:(lia) ltac:(lia) ltac:(lia))
    as [s' [Hloop [Harr' Hsame]]].
  exists s'. repeat split; try assumption; apply Hsame.
Qed.

Lemma receiveWithLength_short_read_witness :
  ∃ s' : StreamSocket,
    StreamSocket.receiveWithLength
      {| descriptor := 3; arriving := [Some [1; 2]; Some [3]];
         accepting := []; sent := [] |} 8
    = (false, concat [[1; 2]; [3]], s')
    ∧ arriving s' = tail []
    ∧ sameConnection
        {| descriptor := 3; arriving := [Some [1; 2]; Some [3]];
           accepting := []; sent := [] |} s'.
Proof.
  apply (receiveWithLength_short_read
           {| descriptor := 3; arriving := [Some [1; 2]; Some [3]];
              accepting := []; sent := [] |} [[1; 2]; [3]] [] 8).
  - reflexivity.
  - left. reflexivity.
  - repeat constructor; discriminate.
  - simpl. lia.
Defined.

(* ===================================================================== *)
(** * Further properties of the controller *)
(* ===================================================================== *)

Section ControllerMore.
Context `{Platform, MessageHpp, CoAPHpp}.

Lemma socketAt_withSocket_ne (index other : SocketIndex) (v : option StreamSocket)
    (s : Sockets) :
  other ≠ index → socketAt other (withSocket index v s) = socketAt other s.
Proof. destruct index, other; intros Hne; try reflexivity; contradiction Hne; reflexivity. Qed.

Lemma psoftassert_run (ok : bool) (fmt : string) (args : list Arg) (c : Controller) :
  psoftassert ok fmt args c
  = (Returned (), printed (if ok then [] else assertionLines fmt args) c).
Proof.
  destruct ok; [rewrite printed_nil; reflexivity|apply psoftassert_fails].
Qed.

Lemma pinfo_run (fmt : string) (args : list Arg) (c : Controller) :
  pinfo fmt args c = (Returned (), printed (if DEBUG then [Log DInfo fmt args] else []) c).
Proof.
  unfold pinfo. destruct DEBUG; [reflexivity|]. rewrite printed_nil. reflexivity.
Qed.

(** X8. The sender hands a dequeued command to the socket of its
    destination and to no other: whether the write succeeds or not the
    round returns, the command is gone from the queue, exactly one [::send]
    of the message's bytes has been added to that socket's record, and the
    other two slots are as they were. *)
Theorem sender_writes_to_destination_only (arrivals : list (list Command))
    (c : Controller) (command : Command) (rest : list Command) (s : StreamSocket) :
  LinkedBlockingQueue.poll (queue c) arrivals = Some (command, rest) →
  socketAt (index command) (sockets c) = Some s →
  ∃ (c' : Controller) (s' : StreamSocket) (result : Z),
    sender_iteration arrivals c = (Returned (), c')
    ∧ queue c' = rest
    ∧ socketAt (index command) (sockets c') = Some s'
    ∧ sent s' = sent s ++ [(take sizeofMessage (objectBytes (message command)), result)]
    ∧ ∀ other, other ≠ index command →
        socketAt other (sockets c') = socketAt other (sockets c).
Proof.
  intros Hpoll Hs.
  rewrite (sender_iteration_bound _ _ _ _ _ Hpoll Hs). cbn zeta.
  rewrite psoftassert_run.
  eexists. eexists. eexists. split; [reflexivity|].
  cbn [printed rebound dequeued sockets queue].
  split; [reflexivity|]. split; [apply socketAt_withSocket|].
  split; [reflexivity|].
  intros other Hother. apply socketAt_withSocket_ne. exact Hother.
Qed.

(** The receiver's round always returns on a bound slot, reads on the same
    connection without sending, leaves the other slots alone and only ever
    adds to the queue. *)
Lemma receiver_iteration_safe (index : SocketIndex) (c : Controller) (s : StreamSocket) :
  socketAt index (sockets c) = Some s →
  (sizeofMessage ≤ 32)%nat →
  ∃ (ctl : LoopCtl) (c' : Controller) (s' : StreamSocket) (relayed : list Command),
    receiver_iteration index c = (Returned ctl, c')
    ∧ socketAt index (sockets c') = Some s'
    ∧ sameConnection s s'
    ∧ (∀ other, other ≠ index → socketAt other (sockets c') = socketAt other (sockets c))
    ∧ queue c' = queue c ++ relayed.
Proof.
  intros Hs Hsz.
  destruct (StreamSocket.receiveWithLength s sizeofMessage) as [[ok received] s'] eqn:Hr.
  pose proof (StreamSocketFacts.receiveWithLength_spec _ _ _ _ _ Hr) as [Hsame _].
  destruct ok.
  - destruct (Z.eq_dec (magic (castMessage (inBuffer received))) 0x4657) as [Hm|Hm].
    + exists Continue. eexists. exists s'. eexists.
      split; [apply (receiver_iteration_switch _ _ _ _ _ Hs Hr Hsz Hm)|].
      cbn [enqueued printed rebound sockets queue].
      split; [apply socketAt_withSocket|]. split; [exact Hsame|].
      split; [|reflexivity].
      intros other Hother. apply socketAt_withSocket_ne. exact Hother.
    + exists Continue. eexists. exists s', [].
      split; [apply (receiver_iteration_mismatch _ _ _ _ _ Hs Hr Hsz Hm)|].
      cbn [printed rebound sockets queue].
      split; [apply socketAt_withSocket|]. split; [exact Hsame|].
      split; [|by rewrite app_nil_r].
      intros other Hother. apply socketAt_withSocket_ne. exact Hother.
  - exists Break. eexists. exists s', [].
    split; [apply (receiver_iteration_failed _ _ _ _ _ Hs Hr Hsz)|].
    cbn [printed rebound sockets queue].
    split; [apply socketAt_withSocket|]. split; [exact Hsame|].
    split; [|by rewrite app_nil_r].
    intros other Hother. apply socketAt_withSocket_ne. exact Hother.
Qed.

(** X9. Whatever the device sends, the receiver's run loop never aborts
    the process and never runs into undefined behaviour: followed for any number of rounds on a bound slot it has
    either returned or is still in the loop, its slot is bound to the same
    connection on which nothing has been sent, the other slots are
    untouched, and the queue has only grown at its tail. *)
Theorem receiver_loop_is_safe (rounds : nat) :
  ∀ (index : SocketIndex) (c : Controller) (s : StreamSocket),
    socketAt index (sockets c) = Some s →
    (sizeofMessage ≤ 32)%nat →
    ∃ (e : LoopEnd) (c' : Controller) (s' : StreamSocket) (relayed : list Command),
      receiver_loop rounds index c = (Returned e, c')
      ∧ socketAt index (sockets c') = Some s'
      ∧ sameConnection s s'
      ∧ (∀ other, other ≠ index → socketAt other (sockets c') = socketAt other (sockets c))
      ∧ queue c' = queue c ++ relayed.
Proof.
  induction rounds as [|rounds IH]; intros index c s Hs Hsz.
  - exists Running, c, s, []. cbn [receiver_loop].
    repeat split; try reflexivity; [exact Hs|by rewrite app_nil_r].
  - destruct (receiver_iteration_safe index c s Hs Hsz)
      as [ctl [c1 [s1 [relayed1 [Hround [Hs1 [Hsame1 [Hothers1 Hq1]]]]]]]].
    destruct ctl.
    + rewrite (receiver_loop_continue _ _ _ _ Hround).
      destruct (IH index c1 s1 Hs1 Hsz)
        as [e [c2 [s2 [relayed2 [Hloop [Hs2 [Hsame2 [Hothers2 Hq2]]]]]]]].
      exists e, c2, s2, (relayed1 ++ relayed2).
      split; [exact Hloop|]. split; [exact Hs2|].
      split; [exact (StreamSocketMore.sameConnection_trans _ _ _ Hsame1 Hsame2)|].
      split; [intros other Hother; rewrite Hothers2, Hothers1; auto|].
      rewrite Hq2, Hq1. by rewrite app_assoc.
    + rewrite (receiver_loop_break _ _ _ _ Hround).
      exists Exited, c1, s1, relayed1. repeat split; try assumption; apply Hsame1.
Qed.

(** X10. End to end, a Soil Dry or Soil Wet Alert read from the monitor
    while the queue is empty is written by the sender's next round to the
    actuator: one [::send] of the bytes of that very message on the actuator
    socket, nothing sent on the monitor socket, the gateway slot untouched,
    and the queue empty again. *)
Theorem alert_from_monitor_reaches_actuator (c : Controller)
    (sm sm' sa : StreamSocket) (received : list Z) :
  queue c = [] →
  monitor (sockets c) = Some sm →
  actuator (sockets c) = Some sa →
  StreamSocket.receiveWithLength sm sizeofMessage = (true, received, sm') →
  (sizeofMessage ≤ 32)%nat →
  let m := castMessage (inBuffer received) in
  magic m = 0x4657 →
  type m = kSoilDryAlert ∨ type m = kSoilWetAlert →
  ∃ (c1 c2 : Controller) (sa' : StreamSocket) (result : Z),
    receiver_iteration kMonitor c = (Returned Continue, c1)
    ∧ sender_iteration [] c1 = (Returned (), c2)
    ∧ queue c2 = []
    ∧ actuator (sockets c2) = Some sa'
    ∧ sent sa' = sent sa ++ [(take sizeofMessage (objectBytes m), result)]
    ∧ monitor (sockets c2) = Some sm'
    ∧ sent sm' = sent sm
    ∧ gateway (sockets c2) = gateway (sockets c).
Proof.
  intros Hq Hsm Hsa Hr Hsz m Hm Ht.
  pose proof (receiver_iteration_switch kMonitor c sm sm' received Hsm Hr Hsz Hm) as Hround.
  cbn zeta in Hround. fold m in Hround.
  assert (Hswitched : (switched m).2 = [{| message := m; index := kActuator |}]).
  { unfold switched. destruct Ht as [Ht|Ht]; rewrite Ht; reflexivity. }
  rewrite Hswitched in Hround.
  set (c1 := enqueued [{| message := m; index := kActuator |}]
               (printed (switched m).1 (rebound kMonitor sm' c))) in *.
  assert (Hpoll : LinkedBlockingQueue.poll (queue c1) []
                  = Some ({| message := m; index := kActuator |}, [])).
  { subst c1. cbn [enqueued printed rebound queue]. rewrite Hq. reflexivity. }
  assert (Hsa1 : socketAt kActuator (sockets c1) = Some sa) by exact Hsa.
  pose proof (sender_iteration_bound [] c1 _ _ sa Hpoll Hsa1) as Hsend.
  cbn zeta in Hsend. rewrite psoftassert_run in Hsend.
  pose proof (StreamSocketFacts.receiveWithLength_spec _ _ _ _ _ Hr) as [[_ [_ Hsent]] _].
  eexists. eexists. eexists. eexists.
  split; [exact Hround|]. split; [exact Hsend|].
  repeat split; try reflexivity. exact Hsent.
Qed.

Lemma receiveGarbageDataFromFastModels_run (index : SocketIndex) (c : Controller)
    (s : StreamSocket) :
  socketAt index (sockets c) = Some s →
  ∃ lines : list Output,
    receiveGarbageDataFromFastModels index c
    = (Returned (),
       printed lines
         (rebound index (StreamSocket.receiveWithLength s 15).2 c)).
Proof.
  intros Hs. unfold receiveGarbageDataFromFastModels.
  rewrite bind_run, pinfo_run.
  rewrite bind_run. unfold getSocket at 1. cbn [printed sockets]. rewrite Hs.
  rewrite bind_run.
  replace (bool_decide (is_Some (Some s))) with true by reflexivity.
  rewrite passert_holds.
  rewrite bind_run, (socket_bound index s) by exact Hs.
  destruct (StreamSocket.receiveWithLength s 15) as [[ok garbage] s1].
  rewrite bind_run. unfold setSocket at 1. cbn [snd].
  destruct ok.
  - rewrite pinfo_run. eexists. unfold printed, rebound. cbn.
    rewrite <- app_assoc. reflexivity.
  - rewrite bind_run. unfold pwarning, print. cbn. eexists.
    unfold printed, rebound. cbn. rewrite <- !app_assoc. reflexivity.
Qed.

(** X11. How the receiver starts: on a slot that is not bound its first
    assertion aborts the process before anything is read; on a bound slot
    the 15-byte preamble is read and, whether that read succeeded or failed,
    the run loop is entered on the same connection with the queue as it was
    and the other slots untouched. *)
Theorem receiver_start (rounds : nat) (index : SocketIndex) (c : Controller) :
  (socketAt index (sockets c) = None →
   receiver rounds index c
   = (Aborted, printed (assertionLines "The socket should be connected." []) c))
  ∧ (∀ s : StreamSocket,
       socketAt index (sockets c) = Some s →
       ∃ (c1 : Controller) (s1 : StreamSocket),
         receiver rounds index c = receiver_loop rounds index c1
         ∧ socketAt index (sockets c1) = Some s1
         ∧ sameConnection s s1
         ∧ queue c1 = queue c
         ∧ ∀ other, other ≠ index →
             socketAt other (sockets c1) = socketAt other (sockets c)).
Proof.
  split.
  - intros Hs. unfold receiver.
    rewrite bind_run. unfold getSocket at 1. rewrite Hs.
    rewrite bind_run.
    replace (bool_decide (is_Some None)) with false by reflexivity.
    rewrite passert_fails. reflexivity.
  - intros s Hs. unfold receiver.
    rewrite bind_run. unfold getSocket at 1. rewrite Hs.
    rewrite bind_run.
    replace (bool_decide (is_Some (Some s))) with true by reflexivity.
    rewrite passert_holds.
    destruct (receiveGarbageDataFromFastModels_run index c s Hs) as [lines Hgarbage].
    rewrite bind_run, Hgarbage.
    destruct (StreamSocket.receiveWithLength s 15) as [[ok garbage] s1] eqn:Hr.
    pose proof (StreamSocketFacts.receiveWithLength_spec _ _ _ _ _ Hr) as [Hsame _].
    eexists. exists s1. split; [reflexivity|].
    cbn [printed rebound sockets queue snd].
    split; [apply socketAt_withSocket|]. split; [exact Hsame|]. split; [reflexivity|].
    intros other Hother. apply socketAt_withSocket_ne. exact Hother.
Qed.

Lemma receiver_loop_exits (bound : nat) :
  ∀ (index : SocketIndex) (c : Controller) (s : StreamSocket),
    socketAt index (sockets c) = Some s →
    (0 < sizeofMessage ≤ 32)%nat →
    (backlog s ≤ bound)%nat →
    ∃ c' : Controller, receiver_loop (S bound) index c = (Returned Exited, c').
Proof.
  induction bound as [|bound IH]; intros index c s Hs Hsz Hbacklog.
  - destruct (StreamSocket.receiveWithLength s sizeofMessage) as [[ok received] s'] eqn:Hr.
    destruct ok.
    + apply StreamSocketMore.receiveWithLength_backlog in Hr; lia.
    + eexists. apply receiver_loop_break.
      apply (receiver_iteration_failed _ _ _ _ _ Hs Hr). lia.
  - destruct (StreamSocket.receiveWithLength s sizeofMessage) as [[ok received] s'] eqn:Hr.
    destruct ok.
    + pose proof (StreamSocketMore.receiveWithLength_backlog _ _ _ _ Hr ltac:(lia)) as Hless.
      assert (Hround : ∃ c1, receiver_iteration index c = (Returned Continue, c1)
                             ∧ socketAt index (sockets c1) = Some s').
      { destruct (Z.eq_dec (magic (castMessage (inBuffer received))) 0x4657) as [Hm|Hm].
        - eexists. split;
            [apply (receiver_iteration_switch _ _ _ _ _ Hs Hr ltac:(lia) Hm)|].
          apply socketAt_withSocket.
        - eexists. split;
            [apply (receiver_iteration_mismatch _ _ _ _ _ Hs Hr ltac:(lia) Hm)|].
          apply socketAt_withSocket. }
      destruct Hround as [c1 [Hround Hs1]].
      rewrite (receiver_loop_continue _ _ _ _ Hround).
      apply (IH index c1 s' Hs1 Hsz). lia.
    + eexists. apply receiver_loop_break.
      apply (receiver_iteration_failed _ _ _ _ _ Hs Hr). lia.
Qed.

(** X12. The receiver does not outlive its connection: once what the
    device still sends has been read and the connection has closed or
    failed, the run loop is left and the thread function returns, after at
    most one round per entry and byte still to come and one more. *)
Theorem receiver_returns_when_connection_ends (index : SocketIndex) (c : Controller)
    (s : StreamSocket) :
  socketAt index (sockets c) = Some s →
  (0 < sizeofMessage ≤ 32)%nat →
  ∃ c' : Controller,
    receiver_loop (S (backlog s)) index c = (Returned Exited, c').
Proof.
  intros Hs Hsz. apply (receiver_loop_exits (backlog s) index c s Hs Hsz). lia.
Qed.

(** X13. The receiver finds the first record whatever way the bytes are
    cut: when the device's bytes, arriving in chunks of any sizes, are the
    15-byte preamble, then one record with the right magic, then anything,
    the thread skips the preamble and its first round acts on exactly that
    record, offering the commands its type calls for. *)
Theorem receiver_frames_first_record (index : SocketIndex) (c : Controller)
    (s : StreamSocket) (chunks : list (list Z)) (later : list (option (list Z)))
    (preamble record more : list Z) :
  socketAt index (sockets c) = Some s →
  arriving s = map Some chunks ++ later →
  Forall (λ chunk, chunk ≠ []) chunks →
  concat chunks = preamble ++ record ++ more →
  length preamble = 15%nat →
  length record = sizeofMessage →
  (sizeofMessage ≤ 32)%nat →
  magic (castMessage (inBuffer record)) = 0x4657 →
  ∃ c' : Controller,
    receiver 1 index c = (Returned Running, c')
    ∧ queue c' = queue c ++ (switched (castMessage (inBuffer record))).2.
Proof.
  intros Hs Harr Hne Hconcat Hpre Hrec Hsz Hm.
  destruct (StreamSocketMore.receiveWithLength_pending s chunks later 15 (conj Harr Hne))
    as [s1 [rest1 [Hr1 [Hp1 [Hconcat1 _]]]]].
  { rewrite Hconcat, length_app. lia. }
  destruct (StreamSocketMore.receiveWithLength_pending s1 rest1 later sizeofMessage Hp1)
    as [s2 [rest2 [Hr2 _]]].
  { rewrite Hconcat1, Hconcat, length_drop, !length_app. lia. }
  assert (Hrecord : take sizeofMessage (concat rest1) = record).
  { rewrite Hconcat1, Hconcat, <- Hpre, drop_app_length, <- Hrec. apply take_app_length. }
  rewrite Hrecord in Hr2.
  unfold receiver.
  rewrite bind_run. unfold getSocket at 1. rewrite Hs.
  rewrite bind_run.
  replace (bool_decide (is_Some (Some s))) with true by reflexivity.
  rewrite passert_holds.
  destruct (receiveGarbageDataFromFastModels_run index c s Hs) as [lines Hgarbage].
  rewrite bind_run, Hgarbage, Hr1. cbn [snd].
  set (c1 := printed lines (rebound index s1 c)).
  assert (Hs1 : socketAt index (sockets c1) = Some s1) by apply socketAt_withSocket.
  pose proof (receiver_iteration_switch index c1 s1 s2 record Hs1 Hr2 Hsz Hm) as Hround.
  cbn zeta in Hround.
  rewrite (receiver_loop_continue 0 _ _ _ Hround). cbn [receiver_loop].
  eexists. split; [reflexivity|]. reflexivity.
Qed.

End ControllerMore.

(* ===================================================================== *)
(** * Properties of [split] and [trim] *)
(* ===================================================================== *)

Module StringFacts.

Lemma append_nil_r (s : string) : (s ++ "")%string = s.
Proof. induction s as [|c s IH]; simpl; [reflexivity|by rewrite IH]. Qed.

Lemma append_assoc (a b c : string) : ((a ++ b) ++ c)%string = (a ++ (b ++ c))%string.
Proof. induction a as [|x a IH]; simpl; [reflexivity|by rewrite IH]. Qed.

Lemma length_append (a b : string) :
  String.length (a ++ b) = (String.length a + String.length b)%nat.
Proof. induction a as [|x a IH]; simpl; [reflexivity|by rewrite IH]. Qed.

Lemma index_cons_S (n : nat) (d : string) (c : ascii) (r : string) :
  String.index (S n) d (String c r) = S <$> String.index n d r.
Proof. simpl. destruct (String.index n d r); reflexivity. Qed.

Lemma prefix_space (c : ascii) (r : string) :
  String.prefix " " (String c r) = Ascii.eqb c " ".
Proof.
  assert (Hsub : String.substring 0 1 (String c r) = String c "")
    by (simpl; destruct r; reflexivity).
  destruct (String.prefix " " (String c r)) eqn:E.
  - apply String.prefix_correct in E. cbn [String.length] in E.
    rewrite Hsub in E. injection E as ->. reflexivity.
  - destruct (Ascii.eqb_spec c " ") as [->|Hne]; [|reflexivity].
    assert (Htrue : String.prefix " " (String " " r) = true).
    { apply String.prefix_correct. cbn [String.length]. rewrite Hsub. reflexivity. }
    congruence.
Qed.

Lemma index0_space (c : ascii) (r : string) :
  String.index 0 " " (String c r)
  = if Ascii.eqb c " " then Some 0%nat else S <$> String.index 0 " " r.
Proof.
  cbn [String.index]. rewrite prefix_space.
  destruct (Ascii.eqb c " "); [reflexivity|].
  destruct (String.index 0 " " r); reflexivity.
Qed.

Lemma substring_clamp (n : nat) :
  ∀ (s : string) (m m' : nat),
    (String.length s ≤ n + m)%nat → (String.length s ≤ n + m')%nat →
    String.substring n m s = String.substring n m' s.
Proof.
  induction n as [|n IH]; intros s.
  - induction s as [|c s IHs]; intros m m' Hm Hm'.
    + destruct m, m'; reflexivity.
    + destruct m as [|m]; [simpl in Hm; lia|]. destruct m' as [|m']; [simpl in Hm'; lia|].
      simpl. f_equal. apply IHs; simpl in *; lia.
  - intros m m' Hm Hm'. destruct s as [|c s]; [reflexivity|].
    simpl. apply IH; simpl in *; lia.
Qed.

Lemma substring_prefix (p s : string) :
  String.substring 0 (String.length p) (p ++ s) = p.
Proof.
  induction p as [|c p IH]; simpl.
  - destruct s; reflexivity.
  - by rewrite IH.
Qed.

Lemma substring_whole (s : string) : String.substring 0 (String.length s) s = s.
Proof. induction s as [|c s IH]; simpl; [reflexivity|by rewrite IH]. Qed.

Lemma split_loop_shift (fuel : nat) :
  ∀ (c : ascii) (r d : string) (start : nat) (tokens : list string),
    split_loop fuel (String c r) d (S start) tokens = split_loop fuel r d start tokens.
Proof.
  induction fuel as [|fuel IH]; intros c r d start tokens; [reflexivity|].
  cbn [split_loop]. rewrite index_cons_S.
  destruct (String.index start d r) as [e|]; cbn [fmap option_fmap option_map].
  - change (S e + String.length d)%nat with (S (e + String.length d)).
    rewrite IH. reflexivity.
  - f_equal. f_equal. cbn [String.substring String.length].
    apply substring_clamp; lia.
Qed.

Lemma split_loop_skip (p : string) :
  ∀ (fuel : nat) (r d : string) (start : nat) (tokens : list string),
    split_loop fuel (p ++ r) d (String.length p + start) tokens
    = split_loop fuel r d start tokens.
Proof.
  induction p as [|c p IH]; intros fuel r d start tokens; [reflexivity|].
  cbn [String.append String.length Nat.add]. rewrite split_loop_shift. apply IH.
Qed.

Lemma index_after_spaceless (p : string) :
  ∀ s : string,
    String.index 0 " " p = None →
    String.index 0 " " (p ++ s) = (λ e, String.length p + e)%nat <$> String.index 0 " " s.
Proof.
  induction p as [|c p IH]; intros s Hp.
  - simpl. destruct (String.index 0 " " s); reflexivity.
  - rewrite index0_space in Hp. cbn [String.append]. rewrite index0_space.
    destruct (Ascii.eqb c " "); [discriminate Hp|].
    destruct (String.index 0 " " p) eqn:E; [discriminate Hp|].
    rewrite (IH s eq_refl). destruct (String.index 0 " " s); reflexivity.
Qed.

Lemma fields_nonempty (s : string) : fields s ≠ [].
Proof.
  induction s as [|c s IH]; simpl; [discriminate|].
  destruct (Ascii.eqb c " "); [discriminate|]. destruct (fields s); discriminate.
Qed.

Lemma split_loop_fields (s : string) :
  ∀ (p : string) (fuel : nat) (tokens : list string),
    String.index 0 " " p = None →
    (String.length s < fuel)%nat →
    split_loop fuel (p ++ s) " " 0 tokens = tokens ++ prepend p (fields s).
Proof.
  induction s as [|c s IH]; intros p fuel tokens Hp Hfuel.
  - destruct fuel as [|fuel]; [simpl in Hfuel; lia|].
    cbn [split_loop]. rewrite (index_after_spaceless p EmptyString Hp). cbn.
    rewrite substring_whole. reflexivity.
  - destruct (Ascii.eqb c " ") eqn:Hc.
    + apply Ascii.eqb_eq in Hc. subst c.
      destruct fuel as [|fuel]; [simpl in Hfuel; lia|].
      cbn [split_loop]. rewrite (index_after_spaceless p _ Hp), index0_space.
      cbn [Ascii.eqb Bool.eqb fmap option_fmap option_map String.length].
      rewrite Nat.add_0_r, Nat.sub_0_r, substring_prefix.
      change (p ++ String " " s)%string with (p ++ (String " " "" ++ s))%string.
      rewrite <- append_assoc.
      replace (String.length p + 1)%nat with (String.length (p ++ " ")%string + 0)%nat
        by (rewrite length_append; simpl; lia).
      rewrite split_loop_skip.
      pose proof (IH EmptyString fuel (tokens ++ [p])%list eq_refl
                    ltac:(simpl in Hfuel; lia)) as Hrest.
      cbn [String.append] in Hrest. rewrite Hrest.
      cbn [fields]. rewrite Ascii.eqb_refl. cbn [prepend].
      rewrite append_nil_r, <- app_assoc. f_equal. cbn [app]. f_equal.
      destruct (fields s); reflexivity.
    + change (p ++ String c s)%string with (p ++ (String c "" ++ s))%string.
      rewrite <- append_assoc.
      rewrite (IH (p ++ String c "")%string fuel tokens).
      * f_equal. cbn [fields]. rewrite Hc.
        pose proof (fields_nonempty s) as Hne.
        destruct (fields s) as [|f fs]; [contradiction Hne; reflexivity|].
        cbn [prepend]. rewrite append_assoc. reflexivity.
      * rewrite (index_after_spaceless p _ Hp), index0_space, Hc. reflexivity.
      * simpl in Hfuel. lia.
Qed.

Lemma split_fields (s : string) : split s " " = fields s.
Proof.
  unfold split.
  pose proof (split_loop_fields s EmptyString (S (String.length s)) [] eq_refl
                ltac:(lia)) as Hloop.
  cbn [String.append] in Hloop. rewrite Hloop.
  cbn [app prepend]. destruct (fields s); reflexivity.
Qed.

End StringFacts.

Module TrimFacts.
Import StringFacts.

Lemma find_first_not_of_shift (s set : string) :
  ∀ pos, find_first_not_of s set (S pos) = S <$> find_first_not_of s set pos.
Proof.
  induction s as [|c s IH]; intros pos; simpl; [reflexivity|].
  destruct (isOneOf c set); [apply IH|reflexivity].
Qed.

Lemma find_last_not_of_shift (s set : string) :
  ∀ pos, find_last_not_of s set (S pos) = S <$> find_last_not_of s set pos.
Proof.
  induction s as [|c s IH]; intros pos; simpl; [reflexivity|].
  rewrite (IH (S pos)), (IH pos).
  destruct (find_last_not_of s set pos); simpl; [reflexivity|].
  destruct (isOneOf c set); reflexivity.
Qed.

Lemma substring_0_0 (s : string) : String.substring 0 0 s = EmptyString.
Proof. destruct s; reflexivity. Qed.

Lemma trim_cons_in (c : ascii) (r set : string) :
  isOneOf c set = true → trim (String c r) set = trim r set.
Proof.
  intros Hc. unfold trim. cbn [find_first_not_of find_last_not_of]. rewrite Hc.
  rewrite find_first_not_of_shift, find_last_not_of_shift.
  destruct (find_first_not_of r set 0) as [a|]; simpl; [|reflexivity].
  destruct (find_last_not_of r set 0) as [b|]; simpl; reflexivity.
Qed.

Lemma trimRight_cons (c : ascii) (r set : string) :
  trimRight (String c r) set
  = match find_last_not_of r set 0 with
    | Some _ => String c (trimRight r set)
    | None => if isOneOf c set then EmptyString else String c EmptyString
    end.
Proof.
  unfold trimRight. cbn [find_last_not_of]. rewrite find_last_not_of_shift.
  destruct (find_last_not_of r set 0) as [b|]; simpl; [reflexivity|].
  destruct (isOneOf c set); [reflexivity|]. simpl. by rewrite substring_0_0.
Qed.

Lemma trim_cons_out (c : ascii) (r set : string) :
  isOneOf c set = false → trim (String c r) set = String c (trimRight r set).
Proof.
  intros Hc. unfold trim, trimRight. cbn [find_first_not_of find_last_not_of]. rewrite Hc.
  rewrite find_last_not_of_shift.
  destruct (find_last_not_of r set 0) as [b|]; simpl.
  - rewrite Nat.add_1_r. reflexivity.
  - by rewrite substring_0_0.
Qed.

Lemma find_last_not_of_none (s set : string) :
  find_last_not_of s set 0 = None ↔ allOf set s = true.
Proof.
  induction s as [|c s IH]; simpl; [tauto|].
  rewrite find_last_not_of_shift.
  destruct (find_last_not_of s set 0) as [b|]; simpl.
  - split; [discriminate|]. intros Hall. apply andb_true_iff in Hall.
    destruct Hall as [_ Hall]. apply IH in Hall. discriminate Hall.
  - destruct (isOneOf c set); simpl; [|split; discriminate].
    split; [intros _; by apply IH|reflexivity].
Qed.

Lemma trimRight_spec (s set : string) :
  ∃ post : string,
    s = (trimRight s set ++ post)%string
    ∧ allOf set post = true
    ∧ (trimRight s set = EmptyString
       ∨ ∃ (t : string) (c : ascii),
           trimRight s set = (t ++ String c EmptyString)%string ∧ isOneOf c set = false).
Proof.
  induction s as [|c s IH].
  - exists EmptyString. repeat split. left. reflexivity.
  - rewrite trimRight_cons.
    destruct (find_last_not_of s set 0) as [b|] eqn:Hlast.
    + destruct IH as [post [Hs [Hpost Hedge]]]. exists post.
      split; [simpl; by rewrite <- Hs|]. split; [exact Hpost|]. right.
      destruct Hedge as [Hempty|[t [x [Ht Hx]]]].
      * exfalso. unfold trimRight in Hempty. rewrite Hlast in Hempty.
        destruct s; [discriminate Hlast|discriminate Hempty].
      * exists (String c t), x. split; [simpl; by rewrite Ht|exact Hx].
    + apply find_last_not_of_none in Hlast.
      destruct (isOneOf c set) eqn:Hc.
      * exists (String c s). split; [reflexivity|]. split; [simpl; by rewrite Hc|].
        left. reflexivity.
      * exists s. split; [reflexivity|]. split; [exact Hlast|]. right.
        exists EmptyString, c. split; [reflexivity|exact Hc].
Qed.

Lemma trim_spec (s set : string) :
  ∃ pre post : string,
    s = (pre ++ trim s set ++ post)%string
    ∧ allOf set pre = true ∧ allOf set post = true
    ∧ (trim s set = EmptyString
       ∨ (∃ (c : ascii) (t : string), trim s set = String c t ∧ isOneOf c set = false)
         ∧ (∃ (t : string) (c : ascii),
              trim s set = (t ++ String c EmptyString)%string ∧ isOneOf c set = false)).
Proof.
  induction s as [|c s IH].
  - exists EmptyString, EmptyString. repeat split. left. reflexivity.
  - destruct (isOneOf c set) eqn:Hc.
    + rewrite (trim_cons_in c s set Hc).
      destruct IH as [pre [post [Hs [Hpre [Hpost Hedge]]]]].
      exists (String c pre), post.
      split; [simpl; by rewrite <- Hs|]. split; [simpl; by rewrite Hc|].
      split; [exact Hpost|exact Hedge].
    + rewrite (trim_cons_out c s set Hc).
      destruct (trimRight_spec s set) as [post [Hs [Hpost Hedge]]].
      exists EmptyString, post.
      split; [simpl; by rewrite <- Hs|]. split; [reflexivity|]. split; [exact Hpost|].
      right. split; [exists c, (trimRight s set); split; [reflexivity|exact Hc]|].
      destruct Hedge as [->|[t [x [Ht Hx]]]].
      * exists EmptyString, c. split; [reflexivity|exact Hc].
      * exists (String c t), x. split; [simpl; by rewrite Ht|exact Hx].
Qed.

Lemma trim_blank (s set : string) : allOf set s = true → trim s set = EmptyString.
Proof.
  induction s as [|c s IH]; [reflexivity|]. simpl. intros Hall.
  apply andb_true_iff in Hall. destruct Hall as [Hc Hall].
  rewrite (trim_cons_in c s set Hc). by apply IH.
Qed.

End TrimFacts.

Module FieldsFacts.
Import StringFacts.

Lemma concat_fields (s : string) : String.concat " " (fields s) = s.
Proof.
  induction s as [|c s IH]; [reflexivity|].
  cbn [fields]. pose proof (fields_nonempty s) as Hne.
  destruct (fields s) as [|f fs]; [contradiction Hne; reflexivity|].
  destruct (Ascii.eqb_spec c " ") as [->|Hc].
  - change (String.concat " " (EmptyString :: f :: fs))
      with (String " " (String.concat " " (f :: fs))).
    by rewrite IH.
  - destruct fs as [|g fs].
    + simpl in IH. simpl. by rewrite IH.
    + change (String.concat " " (String c f :: g :: fs))
        with (String c (String.concat " " (f :: g :: fs))).
      by rewrite IH.
Qed.

Lemma fields_spaceless (s : string) :
  Forall (λ token, String.index 0 " " token = None) (fields s).
Proof.
  induction s as [|c s IH]; [repeat constructor|].
  cbn [fields]. pose proof (fields_nonempty s) as Hne.
  destruct (Ascii.eqb c " ") eqn:Hc.
  - constructor; [reflexivity|exact IH].
  - destruct (fields s) as [|f fs]; [contradiction Hne; reflexivity|].
    inversion IH as [|? ? Hf Hfs]; subst. constructor; [|exact Hfs].
    rewrite index0_space, Hc, Hf. reflexivity.
Qed.

End FieldsFacts.

(** X14. [split] on the space: a line always gives at least one token (so
    [args[0]] exists), no token holds a space, and the tokens put back
    together with one space between them are the line, empty tokens for
    doubled spaces included. *)
Theorem split_on_space (line : string) :
  split line " " ≠ []
  ∧ Forall (λ token, String.index 0 " " token = None) (split line " ")
  ∧ String.concat " " (split line " ") = line.
Proof.
  rewrite StringFacts.split_fields.
  split; [apply StringFacts.fields_nonempty|].
  split; [apply FieldsFacts.fields_spaceless|apply FieldsFacts.concat_fields].
Qed.

(** X15. [trim] takes characters of the set off both ends and nothing
    else: the string is what was taken off in front, the result, and what
    was taken off behind; and the result is empty or begins and ends with a
    character that is not in the set. *)
Theorem trim_strips_both_ends (s set : string) :
  ∃ pre post : string,
    s = (pre ++ trim s set ++ post)%string
    ∧ allOf set pre = true ∧ allOf set post = true
    ∧ (trim s set = EmptyString
       ∨ (∃ (c : ascii) (t : string), trim s set = String c t ∧ isOneOf c set = false)
         ∧ (∃ (t : string) (c : ascii),
              trim s set = (t ++ String c EmptyString)%string ∧ isOneOf c set = false)).
Proof. apply TrimFacts.trim_spec. Qed.

Section ShellMore.
Context `{Platform, MessageHpp, CoAPHpp}.

Lemma run_iteration_parsed (input : string) (c : Controller) :
  run_iteration input c
  = (let args := split (trim input whitespaces) " " in
     command ← arg args 0;
     if (command =? "")%string then mret Continue
     else if (command =? "exit")%string then
       print (Printf "Goodbye.\n" []);;
       mret Break
     else if (command =? "soil")%string then
       (if negb (length args =? 2)%nat then
          print (Printf "Usage: soil level\n" []);;
          print (Printf "e.g. `soil 30` to set the moisture level to 30%%.\n" [])
        else
          a ← arg args 1;
          level ← convert stoi a;
          offer (Command.changeSoilMoisture (uint32 level)));;
       mret Continue
     else if (command =? "water")%string then
       (if negb (length args =? 2)%nat then
          print (Printf "Usage: water status\n" []);;
          print (Printf "e.g. `water 1` to fill the bottle with water.\n" []);;
          print (Printf "     `water 0` to empty the bottle.\n" [])
        else
          a ← arg args 1;
          hasWater ← convert stoi a;
          offer (Command.changeWaterStatus (negb (hasWater =? 0))));;
       mret Continue
     else if (command =? "dry")%string then
       offer Command.sendDrySoilAlertToActuatorDevice;;
       mret Continue
     else if (command =? "wet")%string then
       offer Command.sendWetSoilAlertToActuatorDevice;;
       mret Continue
     else if (command =? "coap")%string then
       sendRecvCoAPMessageOnce;;
       mret Continue
     else if (command =? "gateway")%string then
       (if negb (length args =? 3)%nat then
          print (Printf "Usage: gateway trials delay\n" []);;
          print (Printf "where `trials` specify the number of trials;\n" []);;
          print (Printf "      `delay` specify the amount of time in milliseconds between each trial.\n" [])
        else
          a1 ← arg args 1;
          trials ← convert stoll a1;
          a2 ← arg args 2;
          delay ← convert stoll a2;
          runGatewayExperiment (uint64 trials) (uint64 delay));;
       mret Continue
     else
       print (Printf "Unknown command: [%s].\n" [Str command]);;
       mret Continue) (printed [Printf "Commander > " []] c).
Proof. reflexivity. Qed.

(** X16. A line that is empty or holds nothing but blanks, tabs, carriage
    returns and line feeds does nothing: the round prints the prompt and
    goes on, with the queue, the sockets and the clock as they were. *)
Theorem blank_line_does_nothing (input : string) (c : Controller) :
  allOf whitespaces input = true →
  run_iteration input c = (Returned Continue, printed [Printf "Commander > " []] c).
Proof.
  intros Hblank. rewrite run_iteration_parsed.
  rewrite (TrimFacts.trim_blank input whitespaces Hblank). reflexivity.
Qed.

(** X17. The [soil] line. With any number of arguments other than one it
    prints the two usage lines and offers nothing. With one argument that
    [std::stoi] converts, it offers exactly one command, the moisture change
    for the Monitor with the value taken modulo 2^32; with one that
    [std::stoi] rejects, the exception is caught nowhere and the process
    ends, nothing offered. *)
Theorem soil_line (input : string) (rest : list string) (c : Controller) :
  split (trim input whitespaces) " " = "soil"%string :: rest →
  (length rest ≠ 1%nat →
   run_iteration input c
   = (Returned Continue,
      printed [Printf "Commander > " []; Printf "Usage: soil level\n" [];
               Printf "e.g. `soil 30` to set the moisture level to 30%%.\n" []] c))
  ∧ (∀ a : string, rest = [a] →
       run_iteration input c
       = match stoi a with
         | Some level =>
             (Returned Continue,
              enqueued [Command.changeSoilMoisture (uint32 level)]
                (printed [Printf "Commander > " []] c))
         | None => (Aborted, printed [Printf "Commander > " []] c)
         end).
Proof.
  intros Hsplit. split.
  - intros Hrest. rewrite run_iteration_parsed, Hsplit. cbn zeta.
    rewrite bind_run. cbn [arg lookup list_lookup mret M_ret].
    cbn [String.eqb Ascii.eqb Bool.eqb].
    cbn [length]. destruct (Nat.eqb_spec (S (length rest)) 2) as [Heq|_]; [lia|].
    cbn [negb]. unfold printed, print, mbind, M_bind, mret, M_ret. cbn.
    rewrite <- !app_assoc. reflexivity.
  - intros a ->. rewrite run_iteration_parsed, Hsplit. cbn zeta.
    rewrite bind_run. cbn [arg lookup list_lookup mret M_ret].
    cbn [String.eqb Ascii.eqb Bool.eqb length Nat.eqb negb].
    rewrite bind_run, bind_run. cbn [arg lookup list_lookup mret M_ret].
    rewrite bind_run. unfold convert. destruct (stoi a) as [level|]; reflexivity.
Qed.

End ShellMore.

Section GatewayMore.
Context `{Platform, MessageHpp, CoAPHpp}.

Lemma sendRecvCoAPMessage_received (request response received : list Z) (n : nat)
    (c : Controller) (s s2 : StreamSocket) :
  gateway (sockets c) = Some s →
  (StreamSocket.send s request 32).1 = true →
  StreamSocket.receiveWithLength (StreamSocket.send s request 32).2 n = (true, received, s2) →
  (n ≤ length response)%nat →
  sendRecvCoAPMessage request response n c
  = (Returned (received ++ drop n response),
     rebound kGateway s2 (rebound kGateway (StreamSocket.send s request 32).2 c)).
Proof.
  intros Hs Hsend Hr Hn.
  pose proof (StreamSocketFacts.receiveWithLength_spec _ _ _ _ _ Hr) as [_ [_ Hlen]].
  specialize (Hlen eq_refl).
  unfold sendRecvCoAPMessage.
  rewrite bind_run, (socket_bound kGateway s c Hs).
  destruct (StreamSocket.send s request 32) as [ok s1]. simpl in Hsend, Hr. subst ok.
  rewrite bind_run. unfold setSocket at 1.
  rewrite bind_run, passert_holds.
  rewrite bind_run, (socket_bound kGateway s1) by reflexivity.
  cbn [snd]. rewrite Hr.
  rewrite bind_run. unfold setSocket at 1.
  rewrite bind_run, store_fits by lia.
  rewrite bind_run, passert_holds. rewrite Hlen. reflexivity.
Qed.

Lemma terminated_padded (received pad : list Z) :
  ∃ text rest : list Z,
    received = text ++ rest
    ∧ Forall (λ b, b ≠ 0) text
    ∧ (rest = [] ∨ head rest = Some 0)
    ∧ terminated (received ++ 0 :: pad) = Some text.
Proof.
  induction received as [|b received IH].
  - exists [], []. repeat split; [constructor|by left].
  - cbn [app terminated]. destruct (b =? 0) eqn:Hb.
    + apply Z.eqb_eq in Hb. subst b. exists [], (0 :: received).
      repeat split; [constructor|by right].
    + apply Z.eqb_neq in Hb. destruct IH as [text [rest [Hsplit [Hall [Hrest Hterm]]]]].
      exists (b :: text), rest. rewrite Hterm, Hsplit.
      repeat split; [constructor; assumption|exact Hrest].
Qed.

(** X18. A successful round trip: with the gateway bound, the request
    accepted whole by the kernel and [n] bytes of reply received, the call
    returns; exactly one [::send], of the first 32 bytes of the request, has
    been added to the gateway socket's record, and the response buffer
    holds the reply in its first [n] bytes and its old content after them. *)
Theorem sendRecvCoAPMessage_round_trip (request response received : list Z) (n : nat)
    (c : Controller) (s s2 : StreamSocket) :
  gateway (sockets c) = Some s →
  (StreamSocket.send s request 32).1 = true →
  StreamSocket.receiveWithLength (StreamSocket.send s request 32).2 n = (true, received, s2) →
  (n ≤ length response)%nat →
  sendRecvCoAPMessage request response n c
  = (Returned (received ++ drop n response),
     rebound kGateway s2 (rebound kGateway (StreamSocket.send s request 32).2 c))
  ∧ length (received ++ drop n response) = length response
  ∧ sent s2 = sent s ++ [(take 32 request, 32)].
Proof.
  intros Hs Hsend Hr Hn.
  pose proof (StreamSocketFacts.receiveWithLength_spec _ _ _ _ _ Hr)
    as [[_ [_ Hsent]] [_ Hlen]].
  specialize (Hlen eq_refl).
  split; [|split].
  - exact (sendRecvCoAPMessage_received _ _ _ _ _ _ _ Hs Hsend Hr Hn).
  - rewrite length_app, length_drop. lia.
  - rewrite Hsent. unfold StreamSocket.send in *. cbn [snd sent fst] in *.
    apply andb_true_iff in Hsend. destruct Hsend as [_ Hresult].
    apply Z.eqb_eq in Hresult. rewrite Hresult. reflexivity.
Qed.



(** X20. The [gateway] line with a trial count of zero (or any count that
    is zero modulo 2^64) runs into undefined behaviour: no round trip is
    made, the vector of samples stays empty, and [min()] dereferences its
    [end()]. This happens whether or not a gateway is connected, after the
    headings have been printed and with the queue and the sockets as they
    were. *)
Theorem gateway_line_zero_trials (input a1 a2 : string) (trials delay : Z) (c : Controller) :
  split (trim input whitespaces) " " = ["gateway"%string; a1; a2] →
  stoll a1 = Some trials →
  stoll a2 = Some delay →
  uint64 trials = 0 →
  ∃ c' : Controller,
    run_iteration input c = (Undefined EndIterator, c')
    ∧ queue c' = queue c ∧ sockets c' = sockets c ∧ clock c' = clock c
    ∧ console c'
      = console c
        ++ [Printf "Commander > " [];
            Printf "Running the gateway experiment...\n" [];
            Printf "\tTrials = %zu; Delay = %llu milliseconds.\n" [Num 0; Num (uint64 delay)];
            Printf "Execution time:\n" []].
Proof.
  intros Hsplit Ha1 Ha2 Hzero. rewrite run_iteration_parsed, Hsplit. cbn zeta.
  rewrite bind_run. cbn [arg lookup list_lookup mret M_ret].
  cbn [String.eqb Ascii.eqb Bool.eqb length Nat.eqb negb].
  rewrite bind_run, bind_run. cbn [arg lookup list_lookup mret M_ret].
  rewrite bind_run. unfold convert at 1. rewrite Ha1. cbn [mret M_ret].
  rewrite bind_run. cbn [arg lookup list_lookup mret M_ret].
  rewrite bind_run. unfold convert at 1. rewrite Ha2. cbn [mret M_ret].
  rewrite Hzero. unfold runGatewayExperiment.
  rewrite bind_run. unfold print at 1.
  rewrite bind_run. unfold print at 1.
  rewrite bind_run. unfold sendRecvCoAPMessages.
  rewrite bind_run, makeCoAPRequestMessage_run by apply length_replicate.
  change (Z.to_nat 0) with 0%nat. cbn [measure mret M_ret].
  eexists. split; [reflexivity|]. cbn [printed queue sockets clock console].
  repeat split. rewrite <- !app_assoc. reflexivity.
Qed.

Lemma run_iteration_exit (c : Controller) :
  run_iteration "exit" c
  = (Returned Break, printed [Printf "Commander > " []; Printf "Goodbye.\n" []] c).
Proof.
  rewrite run_iteration_parsed.
  assert (split (trim "exit" whitespaces) " " = ["exit"%string]) as ->
    by (vm_compute; reflexivity).
  cbn zeta. rewrite bind_run. cbn [arg lookup list_lookup mret M_ret].
  cbn [String.eqb Ascii.eqb Bool.eqb].
  rewrite bind_run. unfold print at 1. cbn [mret M_ret].
  unfold printed. cbn [console sockets queue clock].
  rewrite <- app_assoc. reflexivity.
Qed.

Lemma never_returned_after_abort {A B : Type} (m : M A) (c : Controller) (b : B) :
  ((m;; abort) c).1 ≠ Returned b.
Proof.
  rewrite bind_run. destruct (m c) as [[a| | |] c']; discriminate.
Qed.

Lemma run_not_returned (inputs : list string) (c : Controller) (z : Z) :
  (run inputs c).1 ≠ Returned z.
Proof.
  unfold run. rewrite bind_run. unfold getSocket at 1.
  rewrite bind_run.
  destruct ((if bool_decide (is_Some (socketAt kGateway (sockets c)))
             then receiveGarbageDataFromFastModels kGateway else mret ()) c)
    as [[[]| | |] c1]; try discriminate.
  apply never_returned_after_abort.
Qed.

(** X21. [Controller::run] never returns its [0]. Whatever is typed, the
    call ends in an abort, in undefined behaviour or waiting for input; and
    the line [exit], typed first with no gateway connected, prints the
    prompt and the goodbye and then ends the process through
    [std::terminate], the sender's [std::thread] being destroyed while still
    joinable. Lines after [exit] are not looked at. *)
Theorem run_never_returns (inputs : list string) (c : Controller) :
  (∀ z : Z, (run inputs c).1 ≠ Returned z)
  ∧ (gateway (sockets c) = None →
     ∀ later : list string,
       run ("exit"%string :: later) c
       = (Aborted, printed [Printf "Commander > " []; Printf "Goodbye.\n" []] c)).
Proof.
  split.
  - intros z. apply run_not_returned.
  - intros Hs later. unfold run. rewrite bind_run. unfold getSocket at 1.
    cbn [socketAt]. rewrite Hs.
    replace (bool_decide (is_Some None)) with false by reflexivity.
    rewrite bind_run. cbn [mret M_ret].
    rewrite bind_run. cbn [run_loop]. rewrite bind_run, run_iteration_exit.
    reflexivity.
Qed.

(** X22. The [coap] one-shot prints the reply as a C string and never
    reads past its array: with the gateway bound, the request taken whole
    and the 54 bytes of the reply received, the call returns after printing
    the status line and the bytes of the reply that come before its first
    zero byte, all 54 if none is zero, the ten bytes of the array that the
    reply does not reach being zero. *)
Theorem coap_reply_is_printed (c : Controller) (s s2 : StreamSocket) (received : list Z) :
  gateway (sockets c) = Some s →
  (StreamSocket.send s (coapRequest 100) 32).1 = true →
  StreamSocket.receiveWithLength (StreamSocket.send s (coapRequest 100) 32).2 54
  = (true, received, s2) →
  ∃ text rest : list Z,
    received = text ++ rest
    ∧ Forall (λ b, b ≠ 0) text
    ∧ (rest = [] ∨ head rest = Some 0)
    ∧ sendRecvCoAPMessageOnce c
      = (Returned (),
         printed [Status "Received a HTTP request message:" []; Printf "%s\n" [Chars text]]
           (rebound kGateway s2
              (rebound kGateway (StreamSocket.send s (coapRequest 100) 32).2 c))).
Proof.
  intros Hs Hsend Hr.
  destruct (terminated_padded received (replicate 9 0))
    as [text [rest [Hsplit [Hall [Hrest Hterm]]]]].
  exists text, rest. split; [exact Hsplit|]. split; [exact Hall|]. split; [exact Hrest|].
  unfold sendRecvCoAPMessageOnce. cbn zeta.
  rewrite bind_run, makeCoAPRequestMessage_run by apply length_replicate.
  rewrite bind_run.
  rewrite (sendRecvCoAPMessage_received _ _ _ _ _ _ _ Hs Hsend Hr)
    by (rewrite length_replicate; lia).
  change (drop 54 (replicate 64 0)) with (0 :: replicate 9 0).
  rewrite bind_run. unfold status, print at 1.
  rewrite bind_run. unfold cstring. rewrite Hterm. cbn [mret M_ret].
  unfold print, printed. cbn [console sockets queue clock].
  rewrite <- app_assoc. reflexivity.
Qed.

End GatewayMore.

Module OwnershipFacts.

Lemma release_head (fd : Z) (table : list Z) : Kernel.release fd (fd :: table) = table.
Proof. cbn [Kernel.release]. by rewrite Z.eqb_refl. Qed.

Lemma release_keeps (fd other : Z) (table : list Z) :
  other ≠ fd → In other table → In other (Kernel.release fd table).
Proof.
  intros Hne. induction table as [|d table IH]; [intros []|].
  cbn [Kernel.release]. destruct (d =? fd) eqn:E.
  - apply Z.eqb_eq in E. subst d. intros [->|Hin]; [contradiction|exact Hin].
  - intros [->|Hin]; [left; reflexivity|right; exact (IH Hin)].
Qed.

Lemma create_spec (local remote : Z * Z) (answer : Connection) (k : Kernel) :
  match StreamSocketObject.create local remote answer k with
  | (inl _, k') =>
      refused answer = true
      ∧ opened k' = opened k
      ∧ closed k' = closed k
                    ++ (if 0 <=? socketResult answer then [socketResult answer] else [])
  | (inr s, k') =>
      refused answer = false
      ∧ s = established answer
      ∧ 0 ≤ descriptor s
      ∧ opened k' = descriptor s :: opened k
      ∧ closed k' = closed k
  end.
Proof.
  unfold StreamSocketObject.create, refused, established, Kernel.socket. cbn zeta.
  destruct (socketResult answer <? 0) eqn:Hs.
  - apply Z.ltb_lt in Hs.
    replace (0 <=? socketResult answer) with false by (symmetry; apply Z.leb_gt; lia).
    repeat split. by rewrite app_nil_r.
  - apply Z.ltb_ge in Hs.
    replace (0 <=? socketResult answer) with true by (symmetry; apply Z.leb_le; lia).
    destruct (bindResult answer =? 0); cbn [negb orb].
    + destruct (connectResult answer =? 0); cbn [negb orb].
      * repeat split. exact Hs.
      * cbn [Kernel.close opened closed]. rewrite release_head. repeat split.
    + cbn [Kernel.close opened closed]. rewrite release_head. repeat split.
Qed.

End OwnershipFacts.

(** X23. The constructor owns or closes: when it throws, which it does
    exactly when one of its three calls fails, the descriptor it got, if
    any, has been closed and the table of open descriptors is as it was;
    when it returns, the object holds the descriptor that [::socket] gave,
    which is open, and nothing has been closed or sent. *)
Theorem constructor_owns_or_closes (local remote : Z * Z) (answer : Connection)
    (k : Kernel) :
  match StreamSocketObject.create local remote answer k with
  | (inl _, k') =>
      refused answer = true
      ∧ opened k' = opened k
      ∧ closed k' = closed k
                    ++ (if 0 <=? socketResult answer then [socketResult answer] else [])
  | (inr s, k') =>
      refused answer = false
      ∧ s = established answer
      ∧ 0 ≤ descriptor s
      ∧ opened k' = descriptor s :: opened k
      ∧ closed k' = closed k
  end.
Proof. apply OwnershipFacts.create_spec. Qed.

(** X24. Moving a socket. After the move constructor the object moved from
    owns nothing: its destructor closes nothing, and destroying the two
    objects, in either order, closes the descriptor once, as destroying the
    original would. Move assignment is different: it overwrites the
    descriptor the target held without closing it, so when the target held
    an open descriptor of its own, that descriptor is still open, and has
    not been handed to [::close], after both objects are destroyed. *)
Theorem move_transfers_and_assignment_leaks (this other : StreamSocket) (k : Kernel) :
  (let '(new, old) := StreamSocketObject.move other in
   descriptor new = descriptor other
   ∧ StreamSocketObject.destroy old k = k
   ∧ StreamSocketObject.destroy new (StreamSocketObject.destroy old k)
     = StreamSocketObject.destroy other k
   ∧ StreamSocketObject.destroy old (StreamSocketObject.destroy new k)
     = StreamSocketObject.destroy other k)
  ∧ (descriptor this ≠ descriptor other →
     In (descriptor this) (opened k) →
     ¬ In (descriptor this) (closed k) →
     let '(this', other') := StreamSocketObject.assign false this other in
     let k' := StreamSocketObject.destroy other' (StreamSocketObject.destroy this' k) in
     descriptor this' = descriptor other
     ∧ In (descriptor this) (opened k')
     ∧ ¬ In (descriptor this) (closed k')).
Proof.
  split.
  - cbn. repeat split.
  - intros Hne Hopen Hclosed. cbn.
    unfold StreamSocketObject.destroy.
    destruct (0 <=? descriptor other); [|repeat split; assumption].
    cbn [Kernel.close opened closed]. split; [reflexivity|].
    split; [apply OwnershipFacts.release_keeps; assumption|].
    rewrite in_app_iff. intros [Hin|[Heq|[]]]; [exact (Hclosed Hin)|].
    apply Hne. symmetry. exact Heq.
Qed.

Section MainFacts.
Context `{Platform, MessageHpp, CoAPHpp}.

Lemma emplace_spec (port : Z) (answer : Connection) (k : Kernel) :
  match emplace port answer k with
  | (inl _, k') => port ≠ 0 ∧ refused answer = true ∧ opened k' = opened k
  | (inr slot, k') =>
      (port = 0 ∨ refused answer = false)
      ∧ slot = slotFor port answer
      ∧ opened (StreamSocketObject.destroyOptional slot k') = opened k
      ∧ ∀ k'', opened k'' = opened k' →
          opened (StreamSocketObject.destroyOptional slot k'') = opened k
  end.
Proof.
  unfold emplace, slotFor. destruct (port =? 0) eqn:Hport; cbn [negb].
  - apply Z.eqb_eq in Hport. repeat split; [by left|]. intros k'' Hk. exact Hk.
  - apply Z.eqb_neq in Hport.
    pose proof (OwnershipFacts.create_spec (INADDR_LOOPBACK, 0) (INADDR_LOOPBACK, port)
                  answer k) as Hcreate.
    destruct (StreamSocketObject.create _ _ answer k) as [[e|s] k'].
    + destruct Hcreate as [Hr [Ho _]]. repeat split; assumption.
    + destruct Hcreate as [Hr [Hs [Hd [Ho _]]]]. subst s.
      assert (∀ k'', opened k'' = opened k' →
                opened (StreamSocketObject.destroyOptional (Some (established answer)) k'')
                = opened k) as Hdestroy.
      { intros k'' Hk. cbn [StreamSocketObject.destroyOptional].
        unfold StreamSocketObject.destroy.
        replace (0 <=? descriptor (established answer)) with true
          by (symmetry; apply Z.leb_le; exact Hd).
        cbn [Kernel.close opened]. rewrite Hk, Ho. apply OwnershipFacts.release_head. }
      split; [by right|]. split; [reflexivity|]. split; [by apply Hdestroy|exact Hdestroy].
Qed.

Lemma lor_ports (p : Ports) :
  Z.lor (Z.lor (pMonitor p) (pActuator p)) (pGateway p) = 0
  ↔ ∀ index, portOf index p = 0.
Proof.
  rewrite !Z.lor_eq_0_iff. split.
  - intros [[Hm Ha] Hg] []; assumption.
  - intros Hall. exact (conj (conj (Hall kMonitor) (Hall kActuator)) (Hall kGateway)).
Qed.

Lemma catch_run (exception : SocketException.t) (g a m : option StreamSocket)
    (k : Kernel) (c : Controller) :
  catch exception g a m k c
  = (Returned (-1, StreamSocketObject.destroyOptional m
                     (StreamSocketObject.destroyOptional a
                        (StreamSocketObject.destroyOptional g k))),
     printed (errorLines "%s" [Str (SocketException.what exception)]) c).
Proof. unfold catch. rewrite bind_run, perr_run. reflexivity. Qed.

Lemma moveOptional_run (o : option StreamSocket) :
  StreamSocketObject.moveOptional o = (o, StreamSocketObject.disowned <$> o).
Proof. by destruct o. Qed.

Lemma construct_run (pm pa pg : option StreamSocket) (c : Controller) :
  construct pm pa pg c
  = (Returned (StreamSocketObject.disowned <$> pm, StreamSocketObject.disowned <$> pa,
               StreamSocketObject.disowned <$> pg),
     {| sockets := {| monitor := pm; actuator := pa; gateway := pg |};
        queue := []; console := console c; clock := clock c |}).
Proof. unfold construct. rewrite !moveOptional_run. reflexivity. Qed.

End MainFacts.

Section MainMore.
Context `{Platform, MessageHpp, CoAPHpp}.

(** X25. Without a usable port [main] returns -1 and touches nothing: when
    the options have been read and the three ports are zero, which is also
    what a port that is a multiple of 65536 becomes in its [uint16_t], the
    error is reported, no descriptor is asked for and no controller is
    made. *)
Theorem main_needs_a_port (options : list (Z * string)) (answers : SocketIndex → Connection)
    (inputs : list string) (k : Kernel) (c c1 : Controller) (p : Ports) :
  options_loop options noPorts c = (Returned p, c1) →
  (∀ index, portOf index p = 0) →
  main options answers inputs k c
  = (Returned (-1, k), printed (errorLines "Must provide at least one port number." []) c1).
Proof.
  intros Hloop Hzero. unfold main. fold noPorts. rewrite bind_run, Hloop.
  replace (Z.lor (Z.lor (pMonitor p) (pActuator p)) (pGateway p) =? 0) with true
    by (symmetry; apply Z.eqb_eq, lor_ports; exact Hzero).
  rewrite bind_run, perr_run. reflexivity.
Qed.

(** X26. A connection that cannot be made ends [main] with -1 and leaves
    no descriptor behind: when a port was given whose socket the kernel
    refuses (at [::socket], [::bind] or [::connect]), the exception's text
    is reported, [main] returns -1 without making a controller, and every
    descriptor opened on the way, for this socket and for those made before
    it, has been closed: the table of open descriptors is as it was. *)
Theorem main_closes_what_it_opened (options : list (Z * string))
    (answers : SocketIndex → Connection) (inputs : list string) (k : Kernel)
    (c c1 : Controller) (p : Ports) :
  options_loop options noPorts c = (Returned p, c1) →
  (∃ index, portOf index p ≠ 0 ∧ refused (answers index) = true) →
  ∃ (text : string) (k' : Kernel),
    main options answers inputs k c
    = (Returned (-1, k'), printed (errorLines "%s" [Str text]) c1)
    ∧ opened k' = opened k.
Proof.
  intros Hloop [index [Hport Hrefused]]. unfold main. fold noPorts.
  rewrite bind_run, Hloop.
  replace (Z.lor (Z.lor (pMonitor p) (pActuator p)) (pGateway p) =? 0) with false.
  2:{ symmetry. apply Z.eqb_neq. rewrite lor_ports. intros Hall. exact (Hport (Hall index)). }
  pose proof (emplace_spec (pMonitor p) (answers kMonitor) k) as Hm.
  destruct (emplace (pMonitor p) (answers kMonitor) k) as [[e|m] k1].
  { destruct Hm as [_ [_ Hk1]]. rewrite catch_run. eexists _, _.
    split; [reflexivity|exact Hk1]. }
  destruct Hm as [Hm [_ [_ Hdm]]].
  pose proof (emplace_spec (pActuator p) (answers kActuator) k1) as Ha.
  destruct (emplace (pActuator p) (answers kActuator) k1) as [[e|a] k2].
  { destruct Ha as [_ [_ Hk2]]. rewrite catch_run. eexists _, _.
    split; [reflexivity|]. cbn [StreamSocketObject.destroyOptional].
    apply Hdm. exact Hk2. }
  destruct Ha as [Ha [_ [_ Hda]]].
  pose proof (emplace_spec (pGateway p) (answers kGateway) k2) as Hg.
  destruct (emplace (pGateway p) (answers kGateway) k2) as [[e|g] k3].
  { destruct Hg as [_ [_ Hk3]]. rewrite catch_run. eexists _, _.
    split; [reflexivity|]. cbn [StreamSocketObject.destroyOptional].
    apply Hdm. apply Hda. exact Hk3. }
  destruct Hg as [Hg _].
  destruct index; cbn [portOf] in Hport;
    [destruct Hm as [?|?]|destruct Ha as [?|?]|destruct Hg as [?|?]]; congruence.
Qed.

(** X27. With every connection made, [main] runs the controller: it ends
    as [Controller::run] ends when started on a controller whose queue is
    empty and whose slots are bound exactly for the ports that are not zero,
    each to the descriptor that [::socket] gave for it; so it does not
    return. *)
Theorem main_runs_the_controller (options : list (Z * string))
    (answers : SocketIndex → Connection) (inputs : list string) (k : Kernel)
    (c c1 : Controller) (p : Ports) :
  options_loop options noPorts c = (Returned p, c1) →
  (∃ index, portOf index p ≠ 0) →
  (∀ index, portOf index p ≠ 0 → refused (answers index) = false) →
  let start :=
    {| sockets := {| monitor := slotFor (pMonitor p) (answers kMonitor);
                     actuator := slotFor (pActuator p) (answers kActuator);
                     gateway := slotFor (pGateway p) (answers kGateway) |};
       queue := []; console := console c1; clock := clock c1 |} in
  sameEnd (main options answers inputs k c).1 (run inputs start).1
  ∧ (main options answers inputs k c).2 = (run inputs start).2.
Proof.
  intros Hloop [index Hport] Hmade start. unfold main. fold noPorts.
  rewrite bind_run, Hloop.
  replace (Z.lor (Z.lor (pMonitor p) (pActuator p)) (pGateway p) =? 0) with false.
  2:{ symmetry. apply Z.eqb_neq. rewrite lor_ports. intros Hall. exact (Hport (Hall index)). }
  pose proof (emplace_spec (pMonitor p) (answers kMonitor) k) as Hm.
  destruct (emplace (pMonitor p) (answers kMonitor) k) as [[e|m] k1].
  { destruct Hm as [Hp [Hr _]]. rewrite (Hmade kMonitor Hp) in Hr. discriminate. }
  destruct Hm as [_ [-> _]].
  pose proof (emplace_spec (pActuator p) (answers kActuator) k1) as Ha.
  destruct (emplace (pActuator p) (answers kActuator) k1) as [[e|a] k2].
  { destruct Ha as [Hp [Hr _]]. rewrite (Hmade kActuator Hp) in Hr. discriminate. }
  destruct Ha as [_ [-> _]].
  pose proof (emplace_spec (pGateway p) (answers kGateway) k2) as Hg.
  destruct (emplace (pGateway p) (answers kGateway) k2) as [[e|g] k3].
  { destruct Hg as [Hp [Hr _]]. rewrite (Hmade kGateway Hp) in Hr. discriminate. }
  destruct Hg as [_ [-> _]].
  rewrite !moveOptional_run. cbv beta iota.
  rewrite bind_run, construct_run. cbv beta iota. fold start.
  rewrite bind_run.
  pose proof (run_not_returned inputs start) as Hrun.
  destruct (run inputs start) as [[z| | |] c']; cbn [fst snd sameEnd] in *;
    [exfalso; exact (Hrun z eq_refl)|repeat split..].
Qed.

End MainMore.

(** ** The properties above at concrete inputs *)

Section Examples.
Local Existing Instance Sample.platform.
Local Existing Instance Sample.messages.
Local Existing Instance Sample.coap.

Lemma sender_writes_to_destination_only_witness :
  ∃ c' : Controller,
    sender_iteration []
      (Sample.controller None (Some (Sample.holding [] [8])) None [Sample.toActuator])
    = (Returned (), c')
    ∧ queue c' = []
    ∧ monitor (sockets c') = None.
Proof.
  destruct (sender_writes_to_destination_only []
              (Sample.controller None (Some (Sample.holding [] [8])) None [Sample.toActuator])
              Sample.toActuator [] (Sample.holding [] [8])
              ltac:(reflexivity) ltac:(reflexivity))
    as [c' [s' [result [Hrun [Hq [_ [_ Hothers]]]]]]].
  exists c'. split; [exact Hrun|]. split; [exact Hq|].
  exact (Hothers kMonitor ltac:(discriminate)).
Defined.

Lemma receiver_loop_is_safe_witness :
  ∃ (e : LoopEnd) (c' : Controller),
    receiver_loop 3 kMonitor (Sample.monitoring Sample.unknownRecord) = (Returned e, c')
    ∧ actuator (sockets c') = None.
Proof.
  destruct (receiver_loop_is_safe 3 kMonitor (Sample.monitoring Sample.unknownRecord)
              (Sample.holding [Some Sample.unknownRecord] [])
              ltac:(reflexivity) ltac:(vm_compute; lia))
    as [e [c' [s' [relayed [Hrun [_ [_ [Hothers _]]]]]]]].
  exists e, c'. split; [exact Hrun|].
  exact (Hothers kActuator ltac:(discriminate)).
Defined.

Lemma alert_from_monitor_reaches_actuator_witness :
  ∃ (c1 c2 : Controller) (sa' : StreamSocket),
    receiver_iteration kMonitor Scenario.relaying = (Returned Continue, c1)
    ∧ sender_iteration [] c1 = (Returned (), c2)
    ∧ queue c2 = []
    ∧ actuator (sockets c2) = Some sa'
    ∧ length (sent sa') = 1%nat.
Proof.
  destruct (alert_from_monitor_reaches_actuator Scenario.relaying
              (Sample.holding [Some Sample.dryRecord] []) (Sample.holding [] [])
              (Sample.holding [] [8]) Sample.dryRecord
              ltac:(reflexivity) ltac:(reflexivity) ltac:(reflexivity) ltac:(reflexivity)
              ltac:(vm_compute; lia) ltac:(reflexivity) ltac:(left; reflexivity))
    as [c1 [c2 [sa' [result [Hr [Hs [Hq [Ha [Hsent _]]]]]]]]].
  exists c1, c2, sa'. repeat (split; [assumption|]).
  rewrite Hsent. reflexivity.
Defined.

Lemma receiver_start_witness :
  receiver 1 kMonitor Sample.alone
  = (Aborted, printed (assertionLines "The socket should be connected." []) Sample.alone).
Proof.
  exact (proj1 (receiver_start 1 kMonitor Sample.alone) ltac:(reflexivity)).
Defined.

Lemma receiver_returns_when_connection_ends_witness :
  ∃ c' : Controller,
    receiver_loop 10 kMonitor (Sample.monitoring Sample.dryRecord) = (Returned Exited, c').
Proof.
  exact (receiver_returns_when_connection_ends kMonitor (Sample.monitoring Sample.dryRecord)
           (Sample.holding [Some Sample.dryRecord] [])
           ltac:(reflexivity) ltac:(vm_compute; lia)).
Defined.

Lemma receiver_frames_first_record_witness :
  ∃ c' : Controller,
    receiver 1 kMonitor Scenario.cut = (Returned Running, c')
    ∧ queue c' = [Sample.toActuator].
Proof.
  exact (receiver_frames_first_record kMonitor Scenario.cut
           (Sample.holding (map Some Scenario.pieces ++ [None]) [])
           Scenario.pieces [None] (replicate 15 42) Sample.dryRecord [0x57]
           ltac:(reflexivity) ltac:(reflexivity)
           ltac:(repeat constructor; discriminate)
           ltac:(reflexivity) ltac:(reflexivity) ltac:(reflexivity)
           ltac:(vm_compute; lia) ltac:(reflexivity)).
Defined.

Lemma blank_line_does_nothing_witness :
  run_iteration "   " Sample.alone
  = (Returned Continue, printed [Printf "Commander > " []] Sample.alone).
Proof.
  exact (blank_line_does_nothing "   " Sample.alone ltac:(reflexivity)).
Defined.

Lemma soil_line_witness :
  run_iteration "  soil 30 " Sample.alone
  = (Returned Continue,
     enqueued [Command.changeSoilMoisture 30] (printed [Printf "Commander > " []] Sample.alone)).
Proof.
  exact (proj2 (soil_line "  soil 30 " ["30"%string] Sample.alone
                  ltac:(vm_compute; reflexivity)) "30"%string ltac:(reflexivity)).
Defined.

Lemma sendRecvCoAPMessage_round_trip_witness :
  (sendRecvCoAPMessage (coapRequest 100) (replicate 64 0) 54 Scenario.answering).1
  = Returned (Scenario.reply ++ replicate 10 0).
Proof.
  destruct (sendRecvCoAPMessage_round_trip (coapRequest 100) (replicate 64 0) Scenario.reply
              54 Scenario.answering (Sample.holding [Some Scenario.reply] [32])
              {| descriptor := 3; arriving := []; accepting := [];
                 sent := [(coapRequest 100, 32)] |}
              ltac:(reflexivity) ltac:(reflexivity) ltac:(reflexivity)
              ltac:(vm_compute; lia))
    as [Hrun _].
  rewrite Hrun. reflexivity.
Defined.


Lemma gateway_line_zero_trials_witness :
  ∃ c' : Controller,
    run_iteration "gateway 0 5" Sample.alone = (Undefined EndIterator, c')
    ∧ queue c' = [].
Proof.
  destruct (gateway_line_zero_trials "gateway 0 5" "0" "5" 0 5 Sample.alone
              ltac:(vm_compute; reflexivity) ltac:(reflexivity) ltac:(reflexivity)
              ltac:(reflexivity))
    as [c' [Hrun [Hq _]]].
  exists c'. split; [exact Hrun|exact Hq].
Defined.

Lemma run_never_returns_witness :
  run ["exit"%string] Sample.alone
  = (Aborted, printed [Printf "Commander > " []; Printf "Goodbye.\n" []] Sample.alone).
Proof.
  exact (proj2 (run_never_returns [] Sample.alone) ltac:(reflexivity) []).
Defined.

Lemma coap_reply_is_printed_witness :
  ∃ text rest : list Z,
    Scenario.reply = text ++ rest
    ∧ (sendRecvCoAPMessageOnce Scenario.answering).1 = Returned ()
    ∧ last (console (sendRecvCoAPMessageOnce Scenario.answering).2)
      = Some (Printf "%s\n" [Chars text]).
Proof.
  destruct (coap_reply_is_printed Scenario.answering
              (Sample.holding [Some Scenario.reply] [32])
              {| descriptor := 3; arriving := []; accepting := [];
                 sent := [(coapRequest 100, 32)] |}
              Scenario.reply
              ltac:(reflexivity) ltac:(reflexivity) ltac:(reflexivity))
    as [text [rest [Hsplit [_ [_ Hrun]]]]].
  exists text, rest. split; [exact Hsplit|]. rewrite Hrun. split; reflexivity.
Defined.

Lemma move_transfers_and_assignment_leaks_witness :
  In 7 (opened (StreamSocketObject.destroy (StreamSocketObject.disowned (Sample.holding [] []))
                  (StreamSocketObject.destroy (Sample.holding [] [])
                     {| opened := [3; 7]; closed := [] |}))).
Proof.
  exact (proj1 (proj2 (proj2 (move_transfers_and_assignment_leaks
           {| descriptor := 7; arriving := []; accepting := []; sent := [] |}
           (Sample.holding [] []) {| opened := [3; 7]; closed := [] |})
           ltac:(discriminate) ltac:(right; left; reflexivity) ltac:(intros [])))).
Defined.

Lemma main_needs_a_port_witness :
  main Scenario.wrappedPort Scenario.allMade [] Scenario.fresh Sample.alone
  = (Returned (-1, Scenario.fresh),
     printed (errorLines "Must provide at least one port number." []) Sample.alone).
Proof.
  apply (main_needs_a_port Scenario.wrappedPort Scenario.allMade [] Scenario.fresh
           Sample.alone Sample.alone noPorts).
  - vm_compute. reflexivity.
  - intros []; reflexivity.
Defined.

Lemma main_closes_what_it_opened_witness :
  ∃ (text : string) (k' : Kernel),
    main Scenario.twoPorts Scenario.halfway [] Scenario.fresh Sample.alone
    = (Returned (-1, k'), printed (errorLines "%s" [Str text]) Sample.alone)
    ∧ opened k' = [0; 1; 2].
Proof.
  apply (main_closes_what_it_opened Scenario.twoPorts Scenario.halfway [] Scenario.fresh
           Sample.alone Sample.alone
           {| pMonitor := 5000; pActuator := 5001; pGateway := 0 |}).
  - vm_compute. reflexivity.
  - exists kActuator. split; [discriminate|reflexivity].
Defined.

Lemma main_runs_the_controller_witness :
  (main Scenario.twoPorts Scenario.allMade ["exit"%string] Scenario.fresh Sample.alone).2
  = (run ["exit"%string]
       (Sample.controller (Some (established (Scenario.made 3)))
          (Some (established (Scenario.made 4))) None [])).2.
Proof.
  apply (main_runs_the_controller Scenario.twoPorts Scenario.allMade ["exit"%string]
           Scenario.fresh Sample.alone Sample.alone
           {| pMonitor := 5000; pActuator := 5001; pGateway := 0 |}).
  - vm_compute. reflexivity.
  - exists kMonitor. discriminate.
  - intros [] _; reflexivity.
Defined.

End Examples.
